(** * The spatial domain explorer of ExploreView: tree store, layout engine
      and gesture controller

    A shallow embedding of the three pieces of [ExploreView] that carry the
    logic of the explorer:

    - the domain tree store ([findNodeByPath], [cloneDomainTree],
      [updateNodeByPath], and the handlers that extend the tree:
      [handleLoadMore], [fetchChildrenIfNeeded] and
      [handleContextSearchSubmit]), over an explicit store of node records
      addressed by references, since the code clones, shares and assigns to
      JavaScript objects;
    - the layout engine ([calculateChaoticLayout]);
    - the pointer handlers ([onPointerDown], [onPointerMove], [onPointerUp],
      [handleDomainClickRequest]), the zoom buttons ([handleZoomIn],
      [handleZoomOut]) and the navigation ([handleSelectDomain],
      [handleNavigate], [handleBack]).

    JavaScript numbers are modelled by the real numbers [R]: sums, products,
    quotients, [Math.sqrt], [Math.min], [Math.max] and the trigonometric
    functions are the exact ones, so rounding, overflow and NaN are outside
    the model.  Timestamps ([Date.now()]) and pointer ids are integers.

    On nodes of the horizontal line through the center the passes of the
    layout engine are rational; module [Line] holds them over integers, and
    [LayoutFacts] shows that this agrees with the embedding of the engine,
    so that whole runs of the engine can be evaluated. *)

From Stdlib Require Import Reals Lra Lia List String ZArith Bool.
From stdpp Require Import base option list.
Import ListNotations.

Set Warnings "-register-all".

Local Open Scope string_scope.
Local Open Scope list_scope.

(** ** JavaScript [Map]: insertion-ordered, one entry per key *)

Module JsMap.
Section WithKey.
Context {K V : Type} (eqb : K -> K -> bool).

(** [m.set(k, v)]: an existing key keeps its place and takes the new
    value, a new key goes last. *)
Fixpoint set (m : list (K * V)) (k : K) (v : V) : list (K * V) :=
  match m with
  | [] => [(k, v)]
  | (k', v') :: m' =>
      if eqb k' k then (k', v) :: m' else (k', v') :: set m' k v
  end.

(** [m.get(k)] ([None] for [undefined]). *)
Fixpoint get (m : list (K * V)) (k : K) : option V :=
  match m with
  | [] => None
  | (k', v') :: m' => if eqb k' k then Some v' else get m' k
  end.

(** [m.has(k)]. *)
Definition has (m : list (K * V)) (k : K) : bool :=
  match get m k with Some _ => true | None => false end.

(** [m.delete(k)]. *)
Fixpoint delete (m : list (K * V)) (k : K) : list (K * V) :=
  match m with
  | [] => []
  | (k', v') :: m' => if eqb k' k then m' else (k', v') :: delete m' k
  end.

(** [new Map(entries)]: the entries are set one after the other. *)
Definition fromEntries (es : list (K * V)) : list (K * V) :=
  fold_left (fun m e => set m (fst e) (snd e)) es [].

(** [Array.from(m.values())]. *)
Definition values (m : list (K * V)) : list V := map snd m.

(** [m.size]. *)
Definition size (m : list (K * V)) : nat := List.length m.

(** The entry a lookup by key [k] in [new Map(es)] answers with: the last
    one of [es] whose key is [k]. *)
Fixpoint lastWith (es : list (K * V)) (k : K) : option V :=
  match es with
  | [] => None
  | (k', v') :: es' =>
      match lastWith es' k with
      | Some v => Some v
      | None => if eqb k' k then Some v' else None
      end
  end.
End WithKey.

(** The type of a [Map] from [K] to [V]: its entries in insertion order. *)
Abbreviation t K V := (list (K * V)) (only parsing).
End JsMap.

(** ** The domain tree store *)

Module TreeStore.

(** A reference to a node object. *)
Abbreviation ref := nat (only parsing).

(** [{ x, y }] in the percentage space of the explorer. *)
Record Position : Type := mkPosition { x : R; y : R }.

(** A node object ([Domain] of [../types], which is not among the sources:
    the fields are the ones the code reads and writes).  [children] is
    [null] ([None]) or an array of node references; [source] and [position]
    may be missing.  Arrays and positions are held by value: no code of the
    view assigns to an element of a [children] array or to a coordinate of a
    [position] object, only to the [children] and [position] fields of a
    node. *)
Record Domain : Type := mkDomain {
  id : string;
  name : string;
  children : option (list ref);
  source : option string;
  position : option Position
}.

Definition setChildren (d : Domain) (cs : option (list ref)) : Domain :=
  {| id := id d; name := name d; children := cs;
     source := source d; position := position d |}.

Definition setPosition (d : Domain) (p : option Position) : Domain :=
  {| id := id d; name := name d; children := children d;
     source := source d; position := p |}.

(** The store: the node objects allocated so far, a reference being an
    index.  Allocation appends. *)
Abbreviation heap := (list Domain) (only parsing).

(** Computations over the store.  [None] stands for an access through a
    reference that the store does not hold (or for exhausted fuel): it has
    no counterpart in JavaScript, whose references are always live. *)
Definition M (A : Type) : Type := heap -> option (A * heap).

Definition ret {A} (a : A) : M A := fun h => Some (a, h).

Definition bind {A B} (m : M A) (f : A -> M B) : M B :=
  fun h => match m h with
           | Some (a, h') => f a h'
           | None => None
           end.

Definition fail {A} : M A := fun _ => None.

Notation "x <- m ;; f" := (bind m (fun x => f))
  (at level 100, m at next level, right associativity).

Definition read (a : ref) : M Domain :=
  fun h => match h !! a with
           | Some d => Some (d, h)
           | None => None
           end.

Definition alloc (d : Domain) : M ref :=
  fun h => Some (List.length h, h ++ [d]).

(** An assignment to a field of the object at [a]. *)
Definition modify (a : ref) (f : Domain -> Domain) : M unit :=
  fun h => match h !! a with
           | Some d => Some (tt, <[a := f d]> h)
           | None => None
           end.

(** [xs.map(f)] for an effectful [f]: left to right. *)
Fixpoint mapM {A B} (f : A -> M B) (xs : list A) : M (list B) :=
  match xs with
  | [] => ret []
  | a :: xs' => b <- f a ;; bs <- mapM f xs' ;; ret (b :: bs)
  end.

(** [cs.find(child => pred(child))]. *)
Fixpoint find (pred : Domain -> bool) (cs : list ref) : M (option ref) :=
  match cs with
  | [] => ret None
  | c :: cs' => d <- read c ;; if pred d then ret (Some c) else find pred cs'
  end.

(** The loop over [path] that [findNodeByPath] and [updateNodeByPath] share:
    [Some] of the node reached, [None] where the code returns early because
    [children] is [null] or holds no child of that name. *)
Fixpoint walk (currentNode : ref) (path : list string) : M (option ref) :=
  match path with
  | [] => ret (Some currentNode)
  | name' :: rest =>
      d <- read currentNode ;;
      nextNode <- match children d with
                  | Some cs => find (fun child => String.eqb (name child) name') cs
                  | None => ret None
                  end ;;
      match nextNode with
      | None => ret None
      | Some next => walk next rest
      end
  end.

Definition findNodeByPath (root : ref) (path : list string) : M (option ref) :=
  match path with
  | [] => ret (Some root)
  | _ => walk root path
  end.

(** [cloneDomainTree]: the recursion follows the references of the store,
    so the model takes fuel; [cloneDomainTree_total] shows that more fuel
    than the height of the tree suffices. *)
Fixpoint cloneDomainTree (fuel : nat) (node : ref) : M ref :=
  match fuel with
  | O => fail
  | S fuel' =>
      d <- read node ;;
      newNode <- alloc {| id := id d; name := name d; children := None;
                          source := source d; position := None |} ;;
      _ <- match position d with
           | Some p =>
               modify newNode
                 (fun n => setPosition n (Some (mkPosition (x p) (y p))))
           | None => ret tt
           end ;;
      _ <- match children d with
           | Some cs =>
               cs' <- mapM (cloneDomainTree fuel') cs ;;
               modify newNode (fun n => setChildren n (Some cs'))
           | None => ret tt
           end ;;
      ret newNode
  end.

(** The callback of [newChildren.map] in [updateNodeByPath]. *)
Definition carryPosition (existingChildrenMap : JsMap.t string ref)
    (newChild : ref) : M ref :=
  nc <- read newChild ;;
  match JsMap.get String.eqb existingChildrenMap (id nc) with
  | Some existing =>
      e <- read existing ;;
      match position e with
      | Some p => alloc (setPosition nc (Some p))
      | None => ret newChild
      end
  | None => ret newChild
  end.

Definition updateNodeByPath (fuel : nat) (root : ref) (path : list string)
    (newChildren : list ref) : M ref :=
  newRoot <- cloneDomainTree fuel root ;;
  cur <- walk newRoot path ;;
  match cur with
  | None => ret newRoot
  | Some currentNode =>
      d <- read currentNode ;;
      entries <- match children d with
                 | Some cs => mapM (fun c => e <- read c ;; ret (id e, c)) cs
                 | None => ret []
                 end ;;
      let existingChildrenMap := JsMap.fromEntries String.eqb entries in
      kids <- mapM (carryPosition existingChildrenMap) newChildren ;;
      _ <- modify currentNode (fun n => setChildren n (Some kids)) ;;
      ret newRoot
  end.

(** The merge of [handleLoadMore] (from [findNodeByPath] on): the reference
    handed to [setDomainTree], or [None] where the handler returns without
    setting the tree.  [toLowerCase] is [String.prototype.toLowerCase]. *)
Definition handleLoadMore (toLowerCase : string -> string) (fuel : nat)
    (domainTree : ref) (currentPath : list string) (newNames : list string)
    : M (option ref) :=
  if (0 <? List.length newNames)%nat then
    freshParent <- findNodeByPath domainTree currentPath ;;
    match freshParent with
    | None => ret None
    | Some parent =>
        d <- read parent ;;
        let existing := default [] (children d) in
        existingSet <- mapM (fun c => e <- read c ;; ret (toLowerCase (name e)))
                         existing ;;
        let uniqueNew :=
          List.filter
            (fun n => negb (existsb (String.eqb (toLowerCase n)) existingSet))
            newNames in
        newDomains <- mapM (fun n => alloc {| id := n; name := n; children := None;
                                              source := Some "ai"; position := None |})
                        uniqueNew ;;
        newTree <- updateNodeByPath fuel domainTree currentPath
                     (existing ++ newDomains) ;;
        ret (Some newTree)
    end
  else ret None.

(** *** Trees as values, and what it means for the store to hold one *)

(** The value of a node and of everything below it. *)
Inductive Tree : Type :=
| TNode (i n : string) (ch : option (list Tree)) (s : option string)
        (p : option Position).

Definition t_id (t : Tree) : string := let 'TNode i _ _ _ _ := t in i.
Definition t_name (t : Tree) : string := let 'TNode _ n _ _ _ := t in n.
Definition t_children (t : Tree) : option (list Tree) :=
  let 'TNode _ _ ch _ _ := t in ch.
Definition t_source (t : Tree) : option string := let 'TNode _ _ _ s _ := t in s.
Definition t_position (t : Tree) : option Position :=
  let 'TNode _ _ _ _ p := t in p.

Fixpoint height (t : Tree) : nat :=
  match t with
  | TNode _ _ None _ _ => 0
  | TNode _ _ (Some ts) _ _ =>
      S ((fix maxh (l : list Tree) : nat :=
            match l with
            | [] => 0
            | t' :: l' => Nat.max (height t') (maxh l')
            end) ts)
  end.

(** [reprR R h t a]: in the store [h] the object at [a] and the objects below
    it have the value [t], and every child reference [c] held by an object at
    [b] of them satisfies [R b c]. *)
Inductive reprR (R : ref -> ref -> Prop) (h : heap) : Tree -> ref -> Prop :=
| reprR_leaf a i n s p :
    h !! a = Some (mkDomain i n None s p) ->
    reprR R h (TNode i n None s p) a
| reprR_inner a i n ts cs s p :
    h !! a = Some (mkDomain i n (Some cs) s p) ->
    Forall (R a) cs ->
    Forall2 (reprR R h) ts cs ->
    reprR R h (TNode i n (Some ts) s p) a.

(** The store holds the tree [t] at [a]. *)
Definition repr : heap -> Tree -> ref -> Prop := reprR (fun _ _ => True).

(** The same, with every object allocated before its children: what
    [cloneDomainTree] builds. *)
Definition reprUp : heap -> Tree -> ref -> Prop := reprR lt.

(** The subtree a path of names leads to: at each step the first child of
    that name. *)
Fixpoint resolve (t : Tree) (path : list string) : option Tree :=
  match path with
  | [] => Some t
  | name' :: rest =>
      match t_children t with
      | None => None
      | Some ts =>
          match List.find (fun c => String.eqb (t_name c) name') ts with
          | None => None
          | Some c => resolve c rest
          end
      end
  end.

(** [reach h a b]: the object at [b] is the one at [a] or lies below it. *)
Inductive reach (h : heap) : ref -> ref -> Prop :=
| reach_refl a : reach h a a
| reach_step a d cs c b :
    h !! a = Some d -> children d = Some cs -> In c cs -> reach h c b ->
    reach h a b.

(** The ids and cached positions of the children of the root of [t] (none
    when they are unresolved). *)
Definition treeIdPositions (t : Tree) : list (string * option Position) :=
  map (fun c => (t_id c, t_position c)) (default [] (t_children t)).

(** The node [handleLoadMore] makes for the name [n]. *)
Definition newDomain (n : string) : Domain :=
  {| id := n; name := n; children := None; source := Some "ai";
     position := None |}.

(** The candidate names that are the name of none of the objects [es], up
    to [toLowerCase], in the order of the candidates. *)
Definition uniqueNames (toLowerCase : string -> string) (es : list Domain)
    (newNames : list string) : list string :=
  List.filter
    (fun n => negb (existsb (String.eqb (toLowerCase n))
                      (map (fun e => toLowerCase (name e)) es)))
    newNames.

(** [toLowerCase] on strings of ASCII characters: the letters A to Z become
    a to z, every other character stays. *)
Definition lowerAscii (c : Ascii.ascii) : Ascii.ascii :=
  let n := Ascii.nat_of_ascii c in
  if Nat.leb 65 n && Nat.leb n 90 then Ascii.ascii_of_nat (n + 32) else c.

Fixpoint toLowerAscii (s : string) : string :=
  match s with
  | EmptyString => EmptyString
  | String c s' => String (lowerAscii c) (toLowerAscii s')
  end.

(** Every child reference held in the objects [ext] is [lo] or later. *)
Definition regionFresh (lo : nat) (ext : heap) : Prop :=
  Forall (fun d => forall cs, children d = Some cs -> Forall (fun c => lo <= c) cs)
    ext.

(** The id and the cached position of each of the objects [es]. *)
Definition idPositions (es : list Domain) : list (string * option Position) :=
  map (fun e => (id e, position e)) es.

(** What [carryPosition] makes of the new child [nc], given the ids and
    positions [existing] of the children of the node so far: [nc] with the
    position of the last of them that has the id of [nc], when that one has
    a position, and [nc] as it is otherwise. *)
Definition carried (existing : list (string * option Position)) (nc : Domain)
    : Domain :=
  match JsMap.lastWith String.eqb existing (id nc) with
  | Some (Some p) => setPosition nc (Some p)
  | _ => nc
  end.

(** *** Definitions for the statements and the examples *)

(** What one call of [cloneDomainTree] on a tree [t] does. *)
Definition cloneSpec (t : Tree) : Prop :=
  forall fuel h a, repr h t a -> height t < fuel ->
  exists ext,
    cloneDomainTree fuel a h = Some (List.length h, h ++ ext) /\
    reprUp (h ++ ext) t (List.length h) /\
    regionFresh (List.length h) ext.

(** The entries handed to [new Map]: a lookup by id answers with a child
    that carries the position [carried] looks at. *)
Definition mapAgrees (H : heap) (m : JsMap.t string ref)
    (existing : list (string * option Position)) : Prop :=
  forall k,
    match JsMap.get String.eqb m k with
    | None => JsMap.lastWith String.eqb existing k = None
    | Some c =>
        exists e, H !! c = Some e /\
                  JsMap.lastWith String.eqb existing k = Some (position e)
    end.

(** A root with the children A, cached at (10,10), and B, without a
    position (objects 0 to 2), and three objects made for an update: A, B
    and C, none with a position (objects 3 to 5). *)
Definition sampleStore : heap :=
  [ mkDomain "root" "SparkSphere" (Some [1; 2]) None None;
    mkDomain "A" "A" None (Some "ai") (Some (mkPosition 10 10));
    mkDomain "B" "B" None (Some "ai") None;
    mkDomain "A" "A" None (Some "ai") None;
    mkDomain "B" "B" None (Some "ai") None;
    mkDomain "C" "C" None (Some "ai") None ].

Definition sampleTree : Tree :=
  TNode "root" "SparkSphere"
    (Some [ TNode "A" "A" None (Some "ai") (Some (mkPosition 10 10));
            TNode "B" "B" None (Some "ai") None ])
    None None.

(** A root whose only child is named Art. *)
Definition artStore : heap :=
  [ mkDomain "root" "SparkSphere" (Some [1]) None None;
    mkDomain "Art" "Art" None (Some "ai") None ].

Definition artTree : Tree :=
  TNode "root" "SparkSphere" (Some [TNode "Art" "Art" None (Some "ai") None])
    None None.

(** *** Tree values after an update *)

(** The node [t] with the children [kids]. *)
Definition withChildren (kids : list Tree) (t : Tree) : Tree :=
  TNode (t_id t) (t_name t) (Some kids) (t_source t) (t_position t).

(** [carried] on tree values: the new child [kt] with the position that
    [updateNodeByPath] carries over to it. *)
Definition carriedTree (existing : list (string * option Position)) (kt : Tree)
    : Tree :=
  match JsMap.lastWith String.eqb existing (t_id kt) with
  | Some (Some p) => TNode (t_id kt) (t_name kt) (t_children kt) (t_source kt) (Some p)
  | _ => kt
  end.

(** [l] with [f] applied to its first element that satisfies [pred]. *)
Fixpoint updateFirst {A} (pred : A -> bool) (f : A -> A) (l : list A) : list A :=
  match l with
  | [] => []
  | a :: l' => if pred a then f a :: l' else a :: updateFirst pred f l'
  end.

(** The tree [t] with [f] applied to the subtree that [path] leads to
    (and [t] itself where [path] leads nowhere). *)
Fixpoint replaceAt (path : list string) (f : Tree -> Tree) (t : Tree) : Tree :=
  match path with
  | [] => f t
  | name' :: rest =>
      match t with
      | TNode i n (Some ts) s p =>
          TNode i n
            (Some (updateFirst (fun c => String.eqb (t_name c) name')
                     (replaceAt rest f) ts))
            s p
      | _ => t
      end
  end.

(** The node [t'] after [updateNodeByPath] has given it the new children
    [kts]: each new child takes over the position of the child of [t'] that
    has its id. *)
Definition mergeChildren (kts : list Tree) (t' : Tree) : Tree :=
  withChildren (map (carriedTree (treeIdPositions t')) kts) t'.

(** The leaf that the view makes for a generated name. *)
Definition leaf (n : string) : Tree := TNode n n None (Some "ai") None.

(** [chain P l cs lo hi]: the elements of [l] lie side by side from [lo] to
    [hi], element number [k] over an interval that starts at [cs !! k]. *)
Inductive chain {A} (P : A -> nat -> nat -> Prop)
    : list A -> list nat -> nat -> nat -> Prop :=
| chain_nil lo : chain P [] [] lo lo
| chain_cons a l cs lo mid hi :
    P a lo mid -> chain P l cs mid hi -> chain P (a :: l) (lo :: cs) lo hi.

(** [reprI h t lo hi]: the store holds the tree [t] in the objects [lo] to
    [hi - 1], the root first and each subtree after it in an interval of its
    own: the layout of a tree that [cloneDomainTree] has just allocated. *)
Inductive reprI (h : heap) : Tree -> nat -> nat -> Prop :=
| reprI_leaf lo i n s p :
    h !! lo = Some (mkDomain i n None s p) ->
    reprI h (TNode i n None s p) lo (S lo)
| reprI_inner lo hi i n ts cs s p :
    h !! lo = Some (mkDomain i n (Some cs) s p) ->
    chain (reprI h) ts cs (S lo) hi ->
    reprI h (TNode i n (Some ts) s p) lo hi.

(** *** The handlers of the view that build and extend the tree *)

(** The object literal [{ id: name, name, children: null, source: 'ai' }]. *)
Definition allocDomain (n : string) : M ref :=
  alloc {| id := n; name := n; children := None; source := Some "ai";
           position := None |}.

(** The effect [fetchChildrenIfNeeded], for the names [aiNames] that
    [generateAIDomains] answers with: the reference handed to
    [setDomainTree], or [None] where the effect sets no tree ([currentNode]
    is [null], or its children are there already).  [currentNode] is the
    memo [findNodeByPath(domainTree, currentPath)]; the loading flags and
    the failure of the request are not part of the model. *)
Definition fetchChildrenIfNeeded (fuel : nat) (domainTree : ref)
    (currentPath : list string) (aiNames : list string) : M (option ref) :=
  currentNode <- findNodeByPath domainTree currentPath ;;
  match currentNode with
  | None => ret None
  | Some node =>
      d <- read node ;;
      match children d with
      | None =>
          aiChildren <- mapM allocDomain aiNames ;;
          treeWithNew <- updateNodeByPath fuel domainTree currentPath aiChildren ;;
          ret (Some treeWithNew)
      | Some _ => ret None
      end
  end.

(** [s.charAt(0)] and [s.slice(1)]. *)
Definition charAt0 (s : string) : string :=
  match s with
  | EmptyString => EmptyString
  | String c _ => String c EmptyString
  end.

Definition slice1 (s : string) : string :=
  match s with
  | EmptyString => EmptyString
  | String _ s' => s'
  end.

(** [q.trim().charAt(0).toUpperCase() + q.trim().slice(1)]; [trim] and
    [toUpperCase] are the methods of [String.prototype]. *)
Definition capitalize (trim toUpperCase : string -> string) (q : string)
    : string :=
  toUpperCase (charAt0 (trim q)) ++ slice1 (trim q).

(** What [handleContextSearchSubmit] does. *)
Inductive SubmitOutcome : Type :=
| Ignored
    (** it returns at once: the query is blank or the path leads nowhere *)
| GlobalSearch (term : string)
    (** there is no tree, [executeSearch(term)] takes over *)
| Submitted (newTree : option ref)
    (** the query is cleared; [setDomainTree(newTree)] when there is one *).

Definition isEmpty (s : string) : bool :=
  match s with EmptyString => true | _ => false end.

(** [handleContextSearchSubmit], on the tree [domainTree] ([None] for
    [null]) and the query [searchQuery]. *)
Definition handleContextSearchSubmit (trim toUpperCase toLowerCase : string -> string)
    (fuel : nat) (domainTree : option ref) (currentPath : list string)
    (searchQuery : string) : M SubmitOutcome :=
  if isEmpty (trim searchQuery) then ret Ignored
  else
    let term := capitalize trim toUpperCase searchQuery in
    match domainTree with
    | None => ret (GlobalSearch term)
    | Some tree =>
        node <- findNodeByPath tree currentPath ;;
        match node with
        | None => ret Ignored
        | Some node =>
            newChild <- allocDomain term ;;
            d <- read node ;;
            let currentChildren := default [] (children d) in
            dup <- find (fun c => String.eqb (toLowerCase (name c))
                                              (toLowerCase term))
                     currentChildren ;;
            match dup with
            | Some _ => ret (Submitted None)
            | None =>
                newTree <- updateNodeByPath fuel tree currentPath
                             (currentChildren ++ [newChild]) ;;
                ret (Submitted (Some newTree))
            end
        end
    end.

(** The candidate names whose lower-cased form is the lower-cased form of
    none of the names [existing], in the order of the candidates. *)
Definition freshNames (toLowerCase : string -> string) (existing : list string)
    (newNames : list string) : list string :=
  List.filter
    (fun n => negb (existsb (String.eqb (toLowerCase n))
                      (map toLowerCase existing)))
    newNames.

(** The children of a node, none for [null]. *)
Definition childrenOf (t : Tree) : list Tree := default [] (t_children t).

(** The node [t'] after [handleLoadMore] has merged the candidates
    [newNames] into it. *)
Definition loadedMore (toLowerCase : string -> string) (newNames : list string)
    (t' : Tree) : Tree :=
  mergeChildren
    (childrenOf t'
     ++ map leaf (freshNames toLowerCase (map t_name (childrenOf t')) newNames))
    t'.

(** The node [t'] after [handleContextSearchSubmit] has added [term]. *)
Definition withTerm (term : string) (t' : Tree) : Tree :=
  mergeChildren (childrenOf t' ++ [leaf term]) t'.

(** What [cloneDomainTree] on a store that holds [t] does, with the layout
    of the clone: it fills the interval of new objects at the end of the
    store. *)
Definition cloneLayout (t : Tree) : Prop :=
  forall fuel h a, repr h t a -> height t < fuel ->
  exists ext,
    cloneDomainTree fuel a h = Some (List.length h, h ++ ext) /\
    reprI (h ++ ext) t (List.length h) (List.length (h ++ ext)).

(** [toUpperCase] and [trim] on strings of ASCII characters, for the
    examples. *)
Definition upperAscii (c : Ascii.ascii) : Ascii.ascii :=
  let n := Ascii.nat_of_ascii c in
  if Nat.leb 97 n && Nat.leb n 122 then Ascii.ascii_of_nat (n - 32) else c.

Fixpoint toUpperAscii (s : string) : string :=
  match s with
  | EmptyString => EmptyString
  | String c s' => String (upperAscii c) (toUpperAscii s')
  end.

Fixpoint dropSpaces (l : list Ascii.ascii) : list Ascii.ascii :=
  match l with
  | c :: l' => if Ascii.eqb c (Ascii.ascii_of_nat 32) then dropSpaces l' else l
  | [] => []
  end.

Definition trimAscii (s : string) : string :=
  string_of_list_ascii
    (rev (dropSpaces (rev (dropSpaces (list_ascii_of_string s))))).

End TreeStore.

(** ** The gesture controller *)

Module Gesture.
Local Open Scope R_scope.

(** [{ x, y }] in client coordinates. *)
Record Point : Type := mkPoint { x : R; y : R }.

(** What the handlers read of a [React.PointerEvent]. *)
Record PointerEvent : Type := mkEvent {
  pointerId : Z;
  clientX : R;
  clientY : R;
  pointerType : string
}.

Definition clientPoint (e : PointerEvent) : Point :=
  mkPoint (clientX e) (clientY e).

(** The state and the refs of the view that the handlers read and write.
    A state setter takes effect at once: the model has no render between
    the call of a setter and the next handler. *)
Record State : Type := mkState {
  zoomLevel : R;
  isPinchEnabled : bool;
  pan : Point;
  currentPath : list string;
  isDragging : bool;
  lastPanPosition : Point;
  dragStartPos : Point;
  startDragTime : Z;
  lastPointerType : string;
  activePointers : JsMap.t Z Point;
  initialPinchDistance : option R;
  initialZoomLevel : R
}.

(** The values of [useState] and [useRef] when the view mounts. *)
Definition initialState (initialPath : list string) : State :=
  {| zoomLevel := 1; isPinchEnabled := false; pan := mkPoint 0 0;
     currentPath := initialPath; isDragging := false;
     lastPanPosition := mkPoint 0 0; dragStartPos := mkPoint 0 0;
     startDragTime := 0; lastPointerType := "touch"; activePointers := [];
     initialPinchDistance := None; initialZoomLevel := 1 |}.

Definition setZoomLevel (s : State) (z : R) : State :=
  {| zoomLevel := z; isPinchEnabled := isPinchEnabled s; pan := pan s;
     currentPath := currentPath s; isDragging := isDragging s;
     lastPanPosition := lastPanPosition s; dragStartPos := dragStartPos s;
     startDragTime := startDragTime s; lastPointerType := lastPointerType s;
     activePointers := activePointers s;
     initialPinchDistance := initialPinchDistance s;
     initialZoomLevel := initialZoomLevel s |}.

Definition setPinchEnabled (s : State) (b : bool) : State :=
  {| zoomLevel := zoomLevel s; isPinchEnabled := b; pan := pan s;
     currentPath := currentPath s; isDragging := isDragging s;
     lastPanPosition := lastPanPosition s; dragStartPos := dragStartPos s;
     startDragTime := startDragTime s; lastPointerType := lastPointerType s;
     activePointers := activePointers s;
     initialPinchDistance := initialPinchDistance s;
     initialZoomLevel := initialZoomLevel s |}.

Definition setPan (s : State) (p : Point) : State :=
  {| zoomLevel := zoomLevel s; isPinchEnabled := isPinchEnabled s; pan := p;
     currentPath := currentPath s; isDragging := isDragging s;
     lastPanPosition := lastPanPosition s; dragStartPos := dragStartPos s;
     startDragTime := startDragTime s; lastPointerType := lastPointerType s;
     activePointers := activePointers s;
     initialPinchDistance := initialPinchDistance s;
     initialZoomLevel := initialZoomLevel s |}.

Definition setIsDragging (s : State) (b : bool) : State :=
  {| zoomLevel := zoomLevel s; isPinchEnabled := isPinchEnabled s;
     pan := pan s; currentPath := currentPath s; isDragging := b;
     lastPanPosition := lastPanPosition s; dragStartPos := dragStartPos s;
     startDragTime := startDragTime s; lastPointerType := lastPointerType s;
     activePointers := activePointers s;
     initialPinchDistance := initialPinchDistance s;
     initialZoomLevel := initialZoomLevel s |}.

Definition setLastPanPosition (s : State) (p : Point) : State :=
  {| zoomLevel := zoomLevel s; isPinchEnabled := isPinchEnabled s;
     pan := pan s; currentPath := currentPath s; isDragging := isDragging s;
     lastPanPosition := p; dragStartPos := dragStartPos s;
     startDragTime := startDragTime s; lastPointerType := lastPointerType s;
     activePointers := activePointers s;
     initialPinchDistance := initialPinchDistance s;
     initialZoomLevel := initialZoomLevel s |}.

Definition setActivePointers (s : State) (m : JsMap.t Z Point) : State :=
  {| zoomLevel := zoomLevel s; isPinchEnabled := isPinchEnabled s;
     pan := pan s; currentPath := currentPath s; isDragging := isDragging s;
     lastPanPosition := lastPanPosition s; dragStartPos := dragStartPos s;
     startDragTime := startDragTime s; lastPointerType := lastPointerType s;
     activePointers := m;
     initialPinchDistance := initialPinchDistance s;
     initialZoomLevel := initialZoomLevel s |}.

Definition setInitialPinchDistance (s : State) (d : option R) : State :=
  {| zoomLevel := zoomLevel s; isPinchEnabled := isPinchEnabled s;
     pan := pan s; currentPath := currentPath s; isDragging := isDragging s;
     lastPanPosition := lastPanPosition s; dragStartPos := dragStartPos s;
     startDragTime := startDragTime s; lastPointerType := lastPointerType s;
     activePointers := activePointers s;
     initialPinchDistance := d;
     initialZoomLevel := initialZoomLevel s |}.

(** The navigation of the view: [setCurrentPath], and the effect on
    [currentPath] that follows it ([setZoomLevel(1)], [setPan] to the
    origin). *)
Definition navigate (s : State) (path : list string) : State :=
  {| zoomLevel := 1; isPinchEnabled := isPinchEnabled s; pan := mkPoint 0 0;
     currentPath := path; isDragging := isDragging s;
     lastPanPosition := lastPanPosition s; dragStartPos := dragStartPos s;
     startDragTime := startDragTime s; lastPointerType := lastPointerType s;
     activePointers := activePointers s;
     initialPinchDistance := initialPinchDistance s;
     initialZoomLevel := initialZoomLevel s |}.

Definition handleSelectDomain (s : State) (domainName : string) : State :=
  navigate s (currentPath s ++ [domainName]).

(** [handleNavigate], the click on the breadcrumb number [pathIndex], and
    [handleBack]: [prev.slice(0, pathIndex + 1)] and
    [prev.slice(0, prev.length - 1)]. *)
Definition handleNavigate (s : State) (pathIndex : nat) : State :=
  navigate s (firstn (S pathIndex) (currentPath s)).

Definition handleBack (s : State) : State :=
  if Nat.ltb 0 (List.length (currentPath s))
  then navigate s (firstn (List.length (currentPath s) - 1) (currentPath s))
  else s.

Definition handleZoomIn (s : State) : State :=
  setZoomLevel s (Rmin (zoomLevel s + 0.2) 2.0).

Definition handleZoomOut (s : State) : State :=
  setZoomLevel s (Rmax (zoomLevel s - 0.2) 0.6).

Definition getDistance (p1 p2 : Point) : R :=
  sqrt ((x p2 - x p1) ^ 2 + (y p2 - y p1) ^ 2).

(** Whether a number or [null] counts as true in a condition: neither
    [null] nor zero. *)
Definition truthy (v : option R) : bool :=
  match v with
  | Some d => if Req_dec_T d 0 then false else true
  | None => false
  end.

(** [points[i]] of [Array.from(activePointers.current.values())]. *)
Definition point (points : list Point) (i : nat) : Point :=
  nth i points (mkPoint 0 0).

Definition isMouse (pointerType' : string) : bool :=
  String.eqb pointerType' "mouse".

(** [onPointerDown]; [now] is [Date.now()].  [setPointerCapture] acts on
    the platform only. *)
Definition onPointerDown (s : State) (e : PointerEvent) (now : Z) : State :=
  let s := setActivePointers s
             (JsMap.set Z.eqb (activePointers s) (pointerId e) (clientPoint e)) in
  if Nat.eqb (JsMap.size (activePointers s)) 2 && isPinchEnabled s then
    let points := JsMap.values (activePointers s) in
    {| zoomLevel := zoomLevel s; isPinchEnabled := isPinchEnabled s;
       pan := pan s; currentPath := currentPath s;
       isDragging := false;
       lastPanPosition := lastPanPosition s; dragStartPos := dragStartPos s;
       startDragTime := startDragTime s;
       lastPointerType := lastPointerType s;
       activePointers := activePointers s;
       initialPinchDistance := Some (getDistance (point points 0) (point points 1));
       initialZoomLevel := zoomLevel s |}
  else if Nat.eqb (JsMap.size (activePointers s)) 1 then
    {| zoomLevel := zoomLevel s; isPinchEnabled := isPinchEnabled s;
       pan := pan s; currentPath := currentPath s;
       isDragging := false;
       lastPanPosition := clientPoint e; dragStartPos := clientPoint e;
       startDragTime := now;
       lastPointerType := pointerType e;
       activePointers := activePointers s;
       initialPinchDistance := initialPinchDistance s;
       initialZoomLevel := initialZoomLevel s |}
  else s.

(** The end of [onPointerMove]: the running delta goes to the pan. *)
Definition panBy (s : State) (e : PointerEvent) : State :=
  let dx := clientX e - x (lastPanPosition s) in
  let dy := clientY e - y (lastPanPosition s) in
  setLastPanPosition
    (setPan s (mkPoint (x (pan s) + dx) (y (pan s) + dy)))
    (clientPoint e).

Definition onPointerMove (s : State) (e : PointerEvent) : State :=
  if negb (JsMap.has Z.eqb (activePointers s) (pointerId e)) then s
  else
    let s := setActivePointers s
               (JsMap.set Z.eqb (activePointers s) (pointerId e) (clientPoint e)) in
    if Nat.eqb (JsMap.size (activePointers s)) 2 && isPinchEnabled s
       && truthy (initialPinchDistance s)
    then
      let points := JsMap.values (activePointers s) in
      let currentDistance := getDistance (point points 0) (point points 1) in
      let ratio := currentDistance / default 0 (initialPinchDistance s) in
      let newZoom := Rmin (Rmax (initialZoomLevel s * ratio) 0.6) 2.5 in
      setZoomLevel s newZoom
    else if negb (Nat.eqb (JsMap.size (activePointers s)) 1) then s
    else if negb (isDragging s) then
      if isMouse (pointerType e) then panBy (setIsDragging s true) e
      else
        let dist := getDistance (dragStartPos s) (clientPoint e) in
        if Rgt_dec dist 10 then panBy (setIsDragging s true) e
        else s
    else panBy s e.

(** [onPointerUp], which also serves [onPointerLeave].  The handler also
    computes a duration and a distance that it never uses. *)
Definition onPointerUp (s : State) (e : PointerEvent) (now : Z) : State :=
  let s := setActivePointers s
             (JsMap.delete Z.eqb (activePointers s) (pointerId e)) in
  let s := if Nat.ltb (JsMap.size (activePointers s)) 2
           then setInitialPinchDistance s None else s in
  if Nat.eqb (JsMap.size (activePointers s)) 0 then
    let dist := getDistance (dragStartPos s) (clientPoint e) in
    if isMouse (pointerType e) && (if Rlt_dec dist 5 then true else false)
    then setIsDragging s false
    else s
  else if Nat.eqb (JsMap.size (activePointers s)) 1 then
    let remaining := point (JsMap.values (activePointers s)) 0 in
    setIsDragging (setLastPanPosition s remaining) true
  else s.

(** Whether [handleDomainClickRequest] goes on to [handleSelectDomain]. *)
Definition honored (s : State) (now : Z) : bool :=
  if isDragging s then false
  else if negb (isMouse (lastPointerType s))
          && Z.ltb 150 (now - startDragTime s)
  then false
  else true.

Definition handleDomainClickRequest (s : State) (domainName : string)
    (now : Z) : State :=
  if honored s now then handleSelectDomain s domainName else s.

(** The events of the controller. *)
Inductive Event : Type :=
| PointerDown (e : PointerEvent) (now : Z)
| PointerMove (e : PointerEvent)
| PointerUp (e : PointerEvent) (now : Z)
| DomainClickRequest (domainName : string) (now : Z)
| ZoomIn
| ZoomOut
| TogglePinch
| Navigate (path : list string).

Definition step (s : State) (ev : Event) : State :=
  match ev with
  | PointerDown e now => onPointerDown s e now
  | PointerMove e => onPointerMove s e
  | PointerUp e now => onPointerUp s e now
  | DomainClickRequest domainName now => handleDomainClickRequest s domainName now
  | ZoomIn => handleZoomIn s
  | ZoomOut => handleZoomOut s
  | TogglePinch => setPinchEnabled s (negb (isPinchEnabled s))
  | Navigate path => navigate s path
  end.

Definition run (s : State) (evs : list Event) : State := fold_left step evs s.

(** The moves of one pointer to the points [ps], one after the other. *)
Definition moves (s : State) (id : Z) (pointerType' : string)
    (ps : list Point) : State :=
  fold_left (fun s p => onPointerMove s (mkEvent id (x p) (y p) pointerType'))
    ps s.

(** *** Definitions for the statements and the examples *)

(** A pinch that takes the zoom to 2.5: with pinch enabled, two pointers
    go down 10 apart and one moves until they are 100 apart. *)
Definition pinchOut : list Event :=
  [ TogglePinch;
    PointerDown (mkEvent 1 0 0 "touch") 0;
    PointerDown (mkEvent 2 10 0 "touch") 5;
    PointerMove (mkEvent 2 100 0 "touch") ].

(** Whether the drag is committed by a move to [p] of the only pointer,
    which went down at [p0]. *)
Definition commits (pointerType' : string) (p0 p : Point) : bool :=
  if isMouse pointerType' then true
  else if Rgt_dec (getDistance p0 p) 10 then true else false.

(** Two pointers 10 apart with pinch enabled and the zoom at 1; one moves
    until they are 20 apart. *)
Definition pinchBy2 : list Event :=
  [ TogglePinch;
    PointerDown (mkEvent 1 0 0 "touch") 0;
    PointerDown (mkEvent 2 10 0 "touch") 5 ].

End Gesture.

(** ** The layout engine *)

Module Layout.
Import TreeStore.
Local Open Scope R_scope.

(** [Math.atan2(y, x)]. *)
Definition atan2 (y x : R) : R :=
  if Rlt_dec 0 x then atan (y / x)
  else if Rlt_dec x 0 then
    if Rle_dec 0 y then atan (y / x) + PI else atan (y / x) - PI
  else if Rlt_dec 0 y then PI / 2
  else if Rlt_dec y 0 then - (PI / 2)
  else 0.

(** An element of [nodes]: the fields of the domain, and [radius], [x] and
    [y]. *)
Record Node : Type := mkNode {
  domain : Domain;
  radius : R;
  x : R;
  y : R
}.

Definition moveTo (n : Node) (x' y' : R) : Node :=
  {| domain := domain n; radius := radius n; x := x'; y := y' |}.

Section WithEnvironment.

(** [calculateSphereSize] of [./DomainSphere], which is not among the
    sources. *)
Variable calculateSphereSize : string -> R.

(** [Math.random]: [random k] is what call number [k] of the layout
    returns. *)
Variable random : nat -> R.

(** The callback of [domains.map]: the domain number [i] of the list. *)
Definition seed (i : nat) (d : Domain) : Node :=
  let existingX := option_map TreeStore.x (position d) in
  let existingY := option_map TreeStore.y (position d) in
  let size := calculateSphereSize (name d) in
  let radius := size * 0.56 in
  let startX := 50 + (random (2 * i)%nat - 0.5) * 30 in
  let startY := 50 + (random (2 * i + 1)%nat - 0.5) * 30 in
  {| domain := d; radius := radius;
     x := default startX existingX; y := default startY existingY |}.

(** The body of the loop over pairs, on [node1 = nodes[j]] and
    [node2 = nodes[k]]. *)
Definition separate (node1 node2 : Node) : Node * Node :=
  let dx := x node2 - x node1 in
  let dy := y node2 - y node1 in
  let distance := sqrt (dx * dx + dy * dy) in
  let minDistance := radius node1 + radius node2 + 2 in
  if Rlt_dec distance minDistance then
    if Rgt_dec distance 0 then
      let overlap := minDistance - distance in
      let angle := atan2 dy dx in
      let pushX := overlap / 2 * cos angle in
      let pushY := overlap / 2 * sin angle in
      (moveTo node1 (x node1 - pushX) (y node1 - pushY),
       moveTo node2 (x node2 + pushX) (y node2 + pushY))
    else (node1, node2)
  else (node1, node2).

Definition pairStep (nodes : list Node) (j k : nat) : list Node :=
  match nodes !! j, nodes !! k with
  | Some node1, Some node2 =>
      let '(node1', node2') := separate node1 node2 in
      <[k := node2']> (<[j := node1']> nodes)
  | _, _ => nodes
  end.

(** The two loops over [j] and [k = j + 1 ..]. *)
Definition pairLoop (nodes : list Node) : list Node :=
  fold_left
    (fun nodes j =>
       fold_left (fun nodes k => pairStep nodes j k)
         (seq (S j) (List.length nodes - S j)) nodes)
    (seq 0 (List.length nodes)) nodes.

(** The body of the loop [for (const node of nodes)]. *)
Definition attract (centerRadius : R) (node : Node) : Node :=
  let dxToCenter := 50 - x node in
  let dyToCenter := 50 - y node in
  let pullForce := 0.015 in
  let node' := moveTo node (x node + dxToCenter * pullForce)
                           (y node + dyToCenter * pullForce) in
  let distanceFromCenter :=
    sqrt (dxToCenter * dxToCenter + dyToCenter * dyToCenter) in
  let minDistanceFromCenter := centerRadius + radius node + 4 in
  if Rlt_dec distanceFromCenter minDistanceFromCenter then
    if Rgt_dec distanceFromCenter 0 then
      let overlap := minDistanceFromCenter - distanceFromCenter in
      let angle := atan2 dyToCenter dxToCenter in
      moveTo node' (x node' - overlap * cos angle)
                   (y node' - overlap * sin angle)
    else node'
  else node'.

(** One pass of the loop over [i]. *)
Definition iteration (centerRadius : R) (nodes : list Node) : list Node :=
  map (attract centerRadius) (pairLoop nodes).

Definition iterations : nat := 300.

(** The callback of the final [nodes.map]. *)
Definition withPosition (node : Node) : Node :=
  {| domain := setPosition (domain node) (Some (mkPosition (x node) (y node)));
     radius := radius node; x := x node; y := y node |}.

(** [calculateChaoticLayout]; [containerSize] is a parameter that the body
    does not read.  The result holds, for each node, the fields of the
    domain with the new [position], and [radius], [x] and [y]. *)
Definition calculateChaoticLayout (domains : option (list Domain))
    (containerSize : R) (centerNodeName : string) : list Node :=
  match domains with
  | None => []
  | Some domains =>
      let centerNodeSize := calculateSphereSize centerNodeName in
      let centerRadius := centerNodeSize * 0.56 in
      let nodes := imap seed domains in
      let nodes := Nat.iter iterations (iteration centerRadius) nodes in
      map withPosition nodes
  end.

End WithEnvironment.

(** The distance of a node from the center of the space. *)
Definition centerDistance (n : Node) : R :=
  sqrt ((50 - x n) * (50 - x n) + (50 - y n) * (50 - y n)).

(** The distance between the centers of two nodes. *)
Definition nodeDistance (n1 n2 : Node) : R :=
  sqrt ((x n2 - x n1) * (x n2 - x n1) + (y n2 - y n1) * (y n2 - y n1)).

(** A sizing function that grows with the length of the name, for the
    examples. *)
Definition sizeByLength (name' : string) : R :=
  8 + INR (String.length name').

(** A source of random numbers for the examples: always one half. *)
Definition constantRandom (k : nat) : R := 0.5.

(** *** Definitions for the statements and the examples *)

(** The same domain and the same radius. *)
Definition sameNode (n n' : Node) : Prop :=
  domain n = domain n' /\ radius n = radius n'.

(** A child with a cached position at the center of the space. *)
Definition centerChild : Domain :=
  mkDomain "A" "A" None (Some "ai"%string) (Some (mkPosition 50 50)).





(** The sums of the coordinates of the nodes. *)
Definition sumX (nodes : list Node) : R := fold_right Rplus 0 (map x nodes).
Definition sumY (nodes : list Node) : R := fold_right Rplus 0 (map y nodes).

End Layout.

(** ** The layout engine on the horizontal line through the center *)

Module Line.
Import TreeStore Layout.

(** Nodes that start on the line [y = 50] stay on it, and the passes then
    take rational coordinates to rational coordinates.  [LineState] holds
    such nodes by the numerators of their radius and abscissa over one
    common denominator, so that the passes can be evaluated; the facts
    ([iter_iterationZ_spec]) show that the evaluation agrees with
    [iteration].

    A node of the line: the domain, and the numerators of [radius] and
    [x]. *)
Record LineNode : Type := mkLineNode {
  ldomain : Domain;
  lradius : Z;
  lx : Z
}.

(** The denominator, the numerator of the exclusion radius of the center
    node, and the nodes. *)
Record LineState : Type := mkLineState {
  den : Z;
  lcenterRadius : Z;
  lnodes : list LineNode
}.

(** The same node over a denominator [c] times as large. *)
Definition scaleNode (c : Z) (n : LineNode) : LineNode :=
  {| ldomain := ldomain n; lradius := c * lradius n; lx := c * lx n |}.

(** [separate] on two nodes over the denominator [den]: the two nodes
    over [2 * den] when the step pushes them, [None] when it does not. *)
Definition separateZ (den : Z) (node1 node2 : LineNode)
    : option (LineNode * LineNode) :=
  let dx := (lx node2 - lx node1)%Z in
  let distance := Z.abs dx in
  let minDistance := (lradius node1 + lradius node2 + 2 * den)%Z in
  if (distance <? minDistance)%Z && (0 <? distance)%Z then
    let overlap := (minDistance - distance)%Z in
    Some ({| ldomain := ldomain node1; lradius := 2 * lradius node1;
             lx := 2 * lx node1 - overlap * Z.sgn dx |},
          {| ldomain := ldomain node2; lradius := 2 * lradius node2;
             lx := 2 * lx node2 + overlap * Z.sgn dx |})
  else None.

(** [pairStep], [pairLoop] and [iteration] on a state of the line. *)
Definition pairStepZ (st : LineState) (j k : nat) : LineState :=
  match lnodes st !! j, lnodes st !! k with
  | Some node1, Some node2 =>
      match separateZ (den st) node1 node2 with
      | Some (node1', node2') =>
          {| den := 2 * den st; lcenterRadius := 2 * lcenterRadius st;
             lnodes := <[k := node2']>
                         (<[j := node1']> (map (scaleNode 2) (lnodes st))) |}
      | None => st
      end
  | _, _ => st
  end.

Definition pairLoopZ (st : LineState) : LineState :=
  fold_left
    (fun st j =>
       fold_left (fun st k => pairStepZ st j k)
         (seq (S j) (List.length (lnodes st) - S j)) st)
    (seq 0 (List.length (lnodes st))) st.

(** [attract] on a node over the denominator [den]: the node over
    [200 * den]. *)
Definition attractZ (den centerRadius : Z) (node : LineNode) : LineNode :=
  let dxToCenter := (50 * den - lx node)%Z in
  let x1 := (200 * lx node + 3 * dxToCenter)%Z in
  let distanceFromCenter := Z.abs dxToCenter in
  let minDistanceFromCenter := (centerRadius + lradius node + 4 * den)%Z in
  if (distanceFromCenter <? minDistanceFromCenter)%Z
     && (0 <? distanceFromCenter)%Z
  then
    let overlap := (minDistanceFromCenter - distanceFromCenter)%Z in
    {| ldomain := ldomain node; lradius := 200 * lradius node;
       lx := x1 - 200 * overlap * Z.sgn dxToCenter |}
  else {| ldomain := ldomain node; lradius := 200 * lradius node; lx := x1 |}.

Definition iterationZ (st : LineState) : LineState :=
  let st' := pairLoopZ st in
  {| den := 200 * den st'; lcenterRadius := 200 * lcenterRadius st';
     lnodes := map (attractZ (den st') (lcenterRadius st')) (lnodes st') |}.

(** The child of name [c.1] with a cached position at [(c.2, 50)]. *)
Definition lineChild (c : string * Z) : Domain :=
  mkDomain c.1 c.1 None (Some "ai") (Some (mkPosition (IZR c.2) 50)).

(** The nodes that [calculateChaoticLayout] starts from for such children
    and [sizeByLength], over the denominator 25: a radius is 0.56 = 14 / 25
    times a size. *)
Definition lineStart (centerNodeName : string) (children : list (string * Z))
    : LineState :=
  {| den := 25;
     lcenterRadius := 14 * (8 + Z.of_nat (String.length centerNodeName));
     lnodes :=
       map (fun c =>
              {| ldomain := lineChild c;
                 lradius := 14 * (8 + Z.of_nat (String.length c.1));
                 lx := 25 * c.2 |})
           children |}.

(** Node number [i] is left of the abscissa [c]. *)
Definition leftOf (c : Z) (st : LineState) (i : nat) : bool :=
  match lnodes st !! i with
  | Some n => (lx n <? c * den st)%Z
  | None => false
  end.

(** Nodes number [i] and [j] do not coincide, and the distance of their
    centers plus [t / 10] is less than the sum of their radii. *)
Definition overlapBy (t : Z) (st : LineState) (i j : nat) : bool :=
  match lnodes st !! i, lnodes st !! j with
  | Some a, Some b =>
      (0 <? Z.abs (lx b - lx a))%Z
      && (10 * Z.abs (lx b - lx a) + t * den st <? 10 * (lradius a + lradius b))%Z
  | _, _ => false
  end.

(** Node number [i] is at least the exclusion radius plus its radius plus 4
    from the center. *)
Definition clearOfCenter (st : LineState) (i : nat) : bool :=
  match lnodes st !! i with
  | Some n =>
      (lcenterRadius st + lradius n + 4 * den st <=? Z.abs (50 * den st - lx n))%Z
  | None => false
  end.

(** Nodes number [i] and [j] do not coincide. *)
Definition distinctAt (st : LineState) (i j : nat) : bool :=
  match lnodes st !! i, lnodes st !! j with
  | Some a, Some b => negb (lx a =? lx b)%Z
  | _, _ => false
  end.

(** Children for the examples, by name and abscissa. *)
Definition lineFive : list (string * Z) :=
  [("A", 10%Z); ("B", 15%Z); ("C", 20%Z); ("D", 25%Z); ("E", 30%Z)].

Definition lineThree : list (string * Z) :=
  [("A", 30%Z); ("B", 20%Z); ("C", 10%Z)].

Local Open Scope R_scope.

(** The node and the exclusion radius that a state of the line stands
    for. *)
Definition toNode (den : Z) (n : LineNode) : Node :=
  {| domain := ldomain n; radius := IZR (lradius n) / IZR den;
     x := IZR (lx n) / IZR den; y := 50 |}.

Definition toNodes (st : LineState) : list Node :=
  map (toNode (den st)) (lnodes st).

Definition toCenterRadius (st : LineState) : R :=
  IZR (lcenterRadius st) / IZR (den st).

(** The nodes that the layout returns from a state of the line. *)
Definition lineOut (st : LineState) : list Node :=
  map withPosition (toNodes st).

End Line.

(** * Facts *)

(** ** [Map] *)

Module JsMapFacts.
Section WithKey.
Context {K V : Type} (eqb : K -> K -> bool).
Hypothesis eqb_eq : forall a b, eqb a b = true <-> a = b.

Lemma eqb_refl a : eqb a a = true.
Proof. by apply eqb_eq. Qed.

Lemma eqb_neq a b : eqb a b = false <-> a <> b.
Proof.
  split.
  - intros E ->. rewrite eqb_refl in E. discriminate.
  - intros N. destruct (eqb a b) eqn:E; [|done]. by apply eqb_eq in E.
Qed.

Lemma get_set (m : JsMap.t K V) k v k' :
  JsMap.get eqb (JsMap.set eqb m k v) k' =
  if eqb k k' then Some v else JsMap.get eqb m k'.
Proof.
  induction m as [|[k0 v0] m IH]; simpl.
  - done.
  - destruct (eqb k0 k) eqn:E0; simpl.
    + apply eqb_eq in E0 as ->. by destruct (eqb k k').
    + rewrite IH. destruct (eqb k0 k') eqn:E1; [|done].
      destruct (eqb k k') eqn:E2; [|done].
      apply eqb_eq in E1. apply eqb_eq in E2. subst.
      rewrite eqb_refl in E0. discriminate.
Qed.

Lemma get_fold_set (es : list (K * V)) (m : JsMap.t K V) k :
  JsMap.get eqb (fold_left (fun m e => JsMap.set eqb m (fst e) (snd e)) es m) k =
  match JsMap.lastWith eqb es k with
  | Some v => Some v
  | None => JsMap.get eqb m k
  end.
Proof.
  revert m. induction es as [|[k0 v0] es IH]; intros m; simpl; [done|].
  rewrite IH. destruct (JsMap.lastWith eqb es k); [done|].
  rewrite get_set. by destruct (eqb k0 k).
Qed.

(** A lookup in [new Map(es)] answers with the last entry of that key. *)
Lemma get_fromEntries (es : list (K * V)) k :
  JsMap.get eqb (JsMap.fromEntries eqb es) k = JsMap.lastWith eqb es k.
Proof.
  unfold JsMap.fromEntries. rewrite get_fold_set.
  by destruct (JsMap.lastWith eqb es k).
Qed.

Lemma set_has (m : JsMap.t K V) k v :
  JsMap.has eqb m k = true ->
  JsMap.size (JsMap.set eqb m k v) = JsMap.size m.
Proof.
  unfold JsMap.has, JsMap.size.
  induction m as [|[k0 v0] m IH]; simpl; [done|].
  destruct (eqb k0 k); simpl; [done|]. intros H. by rewrite IH.
Qed.

Lemma delete_absent (m : JsMap.t K V) k :
  JsMap.has eqb m k = false -> JsMap.delete eqb m k = m.
Proof.
  unfold JsMap.has.
  induction m as [|[k0 v0] m IH]; simpl; [done|].
  destruct (eqb k0 k); [done|]. intros H. by rewrite IH.
Qed.
End WithKey.
End JsMapFacts.

(** ** The tree store *)

Module TreeStoreFacts.
Import TreeStore.

Lemma string_eqb_eq (a b : string) : String.eqb a b = true <-> a = b.
Proof. apply String.eqb_eq. Qed.

(** Induction over trees, with the hypothesis for every child. *)
Lemma Tree_ind' (P : Tree -> Prop) :
  (forall i n s p, P (TNode i n None s p)) ->
  (forall i n ts s p, Forall P ts -> P (TNode i n (Some ts) s p)) ->
  forall t, P t.
Proof.
  intros Hleaf Hinner. fix IH 1. intros [i n [ts|] s p].
  - apply Hinner. revert ts. fix IHts 1. intros [|t ts].
    + constructor.
    + constructor; [apply IH | apply IHts].
  - apply Hleaf.
Qed.

(** *** The store under extension and assignment *)

Lemma Forall2_Forall_impl {A B} (Q Q' : A -> B -> Prop) (S : B -> Prop) ts cs :
  Forall (fun t => forall c, S c -> Q t c -> Q' t c) ts ->
  Forall S cs -> Forall2 Q ts cs -> Forall2 Q' ts cs.
Proof.
  intros Hts Hcs H2. revert Hts Hcs.
  induction H2; intros Hts Hcs; inversion Hts; inversion Hcs; subst;
    constructor; eauto.
Qed.

(** [reprR] looks only at the objects it goes through: it survives any
    change of the store that keeps the objects of a region closed under
    [R]. *)
Lemma reprR_frame (R : ref -> ref -> Prop) (P : ref -> Prop) (h h' : heap) :
  (forall a c, P a -> R a c -> P c) ->
  (forall a d, P a -> h !! a = Some d -> h' !! a = Some d) ->
  forall t a, P a -> reprR R h t a -> reprR R h' t a.
Proof.
  intros HR Hh. induction t as [i n s p|i n ts s p IH] using Tree_ind';
    intros a Pa Hr; inversion Hr; subst.
  - constructor. by apply Hh.
  - econstructor; [by apply Hh | done |].
    eapply (Forall2_Forall_impl _ _ P); [exact IH | | eassumption].
    eapply Forall_impl; [eassumption|]. intros c Hc. by eapply HR.
Qed.

Lemma reprR_weaken (R R' : ref -> ref -> Prop) (h : heap) :
  (forall a c, R a c -> R' a c) ->
  forall t a, reprR R h t a -> reprR R' h t a.
Proof.
  intros HR. induction t as [i n s p|i n ts s p IH] using Tree_ind';
    intros a Hr; inversion Hr; subst.
  - by constructor.
  - econstructor; [done | |].
    + eapply Forall_impl; eauto.
    + eapply (Forall2_Forall_impl _ _ (fun _ => True)); [| |eassumption].
      * eapply Forall_impl; [exact IH|]. simpl. eauto.
      * by apply Forall_forall.
Qed.

(** Allocation only: what the store held it still holds. *)
Lemma repr_app (R : ref -> ref -> Prop) (h ext : heap) t a :
  reprR R h t a -> reprR R (h ++ ext) t a.
Proof.
  apply (reprR_frame R (fun _ => True)); [done | | done].
  intros b d _ Hb. by apply lookup_app_l_Some.
Qed.

Lemma reprUp_frame (h h' : heap) (lo : nat) t a :
  (forall b d, lo <= b -> h !! b = Some d -> h' !! b = Some d) ->
  lo <= a -> reprUp h t a -> reprUp h' t a.
Proof.
  intros Hh Ha. apply (reprR_frame lt (fun b => lo <= b)); [|done|done].
  intros b c Hb Hlt. lia.
Qed.

Lemma reprR_lookup R h t a :
  reprR R h t a ->
  exists d, h !! a = Some d /\ id d = t_id t /\ name d = t_name t /\
            source d = t_source t /\ position d = t_position t.
Proof. intros Hr; inversion Hr; subst; eexists; split; eauto. Qed.

Lemma lookup_alloc (h ext : heap) d : (h ++ d :: ext) !! List.length h = Some d.
Proof. by apply list_lookup_middle. Qed.

Lemma insert_alloc (h ext : heap) d d' :
  <[List.length h := d']> (h ++ d :: ext) = h ++ d' :: ext.
Proof.
  rewrite insert_app_r_alt; [|done]. by rewrite Nat.sub_diag.
Qed.

Lemma regionFresh_weaken lo lo' ext :
  lo' <= lo -> regionFresh lo ext -> regionFresh lo' ext.
Proof.
  intros Hle H. eapply Forall_impl; [exact H|]. intros d Hd cs Hcs.
  eapply Forall_impl; [by apply Hd|]. simpl. lia.
Qed.

Lemma height_children i n ts s p f :
  height (TNode i n (Some ts) s p) < S f -> Forall (fun t => height t < f) ts.
Proof.
  simpl. intros H. apply Nat.succ_lt_mono in H. revert H.
  induction ts as [|t ts IH]; intros H; constructor; [lia|].
  apply IH. lia.
Qed.

(** *** [cloneDomainTree] *)

Lemma mapM_clone f h0 ts :
  Forall cloneSpec ts ->
  forall cs, Forall2 (repr h0) ts cs -> Forall (fun t => height t < f) ts ->
  forall ext0, exists cs' ext,
    mapM (cloneDomainTree f) cs (h0 ++ ext0) = Some (cs', h0 ++ ext0 ++ ext) /\
    Forall2 (reprUp (h0 ++ ext0 ++ ext)) ts cs' /\
    Forall (fun c => List.length (h0 ++ ext0) <= c) cs' /\
    regionFresh (List.length (h0 ++ ext0)) ext.
Proof.
  induction 1 as [|t ts Ht _ IH]; intros cs H2 Hh ext0;
    inversion H2 as [|? c ? cs0 Hc H2']; subst.
  - exists [], []. rewrite app_nil_r. repeat split; constructor.
  - inversion Hh as [|? ? Hht Hhts]; subst.
    destruct (Ht f (h0 ++ ext0) c) as (ext1 & E1 & R1 & F1);
      [by apply repr_app | done |].
    destruct (IH cs0 H2' Hhts (ext0 ++ ext1)) as (cs' & ext2 & E2 & R2 & B2 & F2).
    exists (List.length (h0 ++ ext0) :: cs'), (ext1 ++ ext2).
    assert (Hassoc : h0 ++ ext0 ++ ext1 ++ ext2 = h0 ++ (ext0 ++ ext1) ++ ext2)
      by (by rewrite <- !app_assoc).
    repeat split.
    + simpl. unfold bind at 1. rewrite E1.
      rewrite <- app_assoc. unfold bind at 1. rewrite E2.
      unfold ret. by rewrite Hassoc.
    + rewrite Hassoc. constructor; [|done].
      replace (h0 ++ (ext0 ++ ext1) ++ ext2)
        with (((h0 ++ ext0) ++ ext1) ++ ext2) by (by rewrite <- !app_assoc).
      by apply repr_app.
    + constructor; [done|].
      eapply Forall_impl; [exact B2|]. simpl. intros b.
      rewrite !length_app. lia.
    + apply Forall_app. split; [done|].
      eapply regionFresh_weaken; [|exact F2]. rewrite !length_app. lia.
Qed.

Lemma position_copy (p : Position) : mkPosition (x p) (y p) = p.
Proof. by destruct p. Qed.

Lemma clone_spec t : cloneSpec t.
Proof.
  induction t as [i n s p|i n ts s p IH] using Tree_ind';
    intros fuel h a Hr Hf; (destruct fuel as [|f]; [lia|]);
    inversion Hr as [? ? ? ? ? Ha|? ? ? ? cs ? ? Ha _ H2]; subst.
  - exists [mkDomain i n None s p]. repeat split.
    + simpl. unfold bind at 1, read. rewrite Ha. unfold bind at 1, alloc.
      simpl. destruct p as [p|]; unfold bind, modify, ret; simpl.
      * rewrite lookup_alloc, insert_alloc. unfold setPosition. simpl.
        by rewrite position_copy.
      * done.
    + constructor. apply lookup_alloc.
    + constructor; [|constructor]. simpl. discriminate.
  - pose proof (height_children _ _ _ _ _ _ Hf) as Hh.
    set (d1 := mkDomain i n None s p).
    destruct (mapM_clone f h ts IH cs H2 Hh [d1]) as (cs' & ext & E & R & B & F).
    exists (mkDomain i n (Some cs') s p :: ext).
    assert (Hpos : (_ <- match p with
                 | Some p0 => modify (List.length h)
                     (fun n0 => setPosition n0 (Some (mkPosition (x p0) (y p0))))
                 | None => ret tt
                 end ;; ret tt) (h ++ [mkDomain i n None s None])
               = Some (tt, h ++ [d1])).
    { destruct p as [p|]; unfold bind, modify, ret; simpl; [|done].
      rewrite lookup_alloc, insert_alloc. unfold setPosition. simpl.
      by rewrite position_copy. }
    repeat split.
    + simpl. unfold bind at 1, read. rewrite Ha. unfold bind at 1, alloc.
      simpl. unfold bind at 1. unfold bind at 1 in Hpos.
      destruct (match p with
                | Some p0 => modify (List.length h)
                    (fun n0 => setPosition n0 (Some (mkPosition (x p0) (y p0))))
                | None => ret tt
                end (h ++ [mkDomain i n None s None])) as [[[] h1]|];
        [|discriminate].
      unfold ret in Hpos. injection Hpos as ->.
      unfold bind at 1. unfold bind at 1. rewrite E. simpl in *.
      unfold modify, ret. rewrite lookup_alloc, insert_alloc. done.
    + econstructor.
      * apply lookup_alloc.
      * eapply Forall_impl; [exact B|]. simpl. intros b.
        rewrite length_app. simpl. lia.
      * eapply (Forall2_Forall_impl _ _ (fun c => S (List.length h) <= c));
          [| |exact R].
        -- apply Forall_forall. intros t _ c Hc.
           apply (reprUp_frame _ _ (S (List.length h))); [|done].
           intros b d Hb. simpl.
           rewrite !lookup_app_r by lia.
           replace (b - List.length h) with (S (b - S (List.length h))) by lia.
           done.
        -- eapply Forall_impl; [exact B|]. simpl. intros b.
           rewrite length_app. simpl. lia.
    + constructor.
      * simpl. intros ? [= <-]. eapply Forall_impl; [exact B|]. simpl.
        intros b. rewrite length_app. simpl. lia.
      * eapply regionFresh_weaken; [|exact F]. rewrite length_app. lia.
Qed.

(** *** The walk along a path *)

Lemma findNodeByPath_walk root path : findNodeByPath root path = walk root path.
Proof. by destruct path. Qed.

Lemma find_spec R h n ts cs :
  Forall2 (reprR R h) ts cs ->
  exists res,
    find (fun child => String.eqb (name child) n) cs h = Some (res, h) /\
    match List.find (fun t => String.eqb (t_name t) n) ts with
    | None => res = None
    | Some t' => exists c, res = Some c /\ In c cs /\ reprR R h t' c
    end.
Proof.
  induction 1 as [|t c ts cs Hr _ IH]; simpl.
  - by exists None.
  - destruct (reprR_lookup _ _ _ _ Hr) as (d & Hd & _ & Hn & _).
    unfold bind, read. rewrite Hd, Hn.
    destruct (String.eqb (t_name t) n).
    + exists (Some c). split; [done|]. exists c. auto.
    + destruct IH as (res & E & Hres). exists res. split; [done|].
      destruct (List.find _ ts); [|done].
      destruct Hres as (c' & -> & Hin & Hr'). exists c'. auto.
Qed.

(** The walk of the code follows [resolve], and changes nothing. *)
Lemma walk_spec R h path :
  forall t a, reprR R h t a ->
  exists res,
    walk a path h = Some (res, h) /\
    match resolve t path with
    | None => res = None
    | Some t' => exists c, res = Some c /\ reprR R h t' c
    end.
Proof.
  induction path as [|n rest IH]; intros t a Hr; simpl.
  - exists (Some a). split; [done|]. by exists a.
  - inversion Hr as [? ? ? ? ? Ha|? ? ? ts cs ? ? Ha _ H2]; subst; simpl;
      unfold bind at 1, read; rewrite Ha; simpl.
    + by exists None.
    + destruct (find_spec R h n ts cs H2) as (res & E & Hres).
      unfold bind at 1. rewrite E.
      destruct (List.find _ ts) as [t'|].
      * destruct Hres as (c & -> & _ & Hr'). by apply IH.
      * subst res. by exists None.
Qed.

(** In a tree allocated parents first, the walk only goes up in the
    store. *)
Lemma walk_up h path :
  forall t a c, reprUp h t a -> walk a path h = Some (Some c, h) ->
  a <= c /\ (path <> [] -> a < c).
Proof.
  induction path as [|n rest IH]; intros t a c Hr; simpl.
  - intros [= <-]. split; [lia|done].
  - inversion Hr as [? ? ? ? ? Ha|? ? ? ts cs ? ? Ha Hup H2]; subst; simpl;
      unfold bind at 1, read; rewrite Ha; simpl; [done|].
    destruct (find_spec lt h n ts cs H2) as (res & E & Hres).
    unfold bind at 1. rewrite E.
    destruct (List.find _ ts) as [t'|]; [|by subst res].
    destruct Hres as (c1 & -> & Hin & Hr'). intros Hw.
    destruct (IH _ _ _ Hr' Hw) as [Hle _].
    assert (a < c1) by (rewrite Forall_forall in Hup; by apply Hup, list_elem_of_In).
    split; [lia|]. intros _. lia.
Qed.

Lemma find_stable (h h' : heap) n cs res :
  (forall b d, h !! b = Some d -> exists d', h' !! b = Some d' /\ name d' = name d) ->
  find (fun child => String.eqb (name child) n) cs h = Some (res, h) ->
  find (fun child => String.eqb (name child) n) cs h' = Some (res, h').
Proof.
  intros Hn. induction cs as [|c cs IH]; simpl.
  - by intros [= <-].
  - unfold bind, read. destruct (h !! c) as [d|] eqn:Hc; [|done].
    destruct (Hn _ _ Hc) as (d' & -> & ->).
    destruct (String.eqb (name d) n); [by intros [= <-]|]. apply IH.
Qed.

(** An assignment to the [children] of the object the walk ends at (and
    allocations) leave the walk as it was. *)
Lemma walk_stable (h h' : heap) path :
  forall t a c, reprUp h t a -> walk a path h = Some (Some c, h) ->
  (forall b d, b <> c -> h !! b = Some d -> h' !! b = Some d) ->
  (forall d, h !! c = Some d -> exists d', h' !! c = Some d' /\ name d' = name d) ->
  walk a path h' = Some (Some c, h').
Proof.
  intros t a c Hr Hw Hne Hc. revert t a Hr Hw.
  assert (Hn : forall b d, h !! b = Some d ->
                 exists d', h' !! b = Some d' /\ name d' = name d).
  { intros b d Hb. destruct (decide (b = c)) as [->|Hbc]; [by apply Hc|].
    exists d. split; [by apply Hne|done]. }
  induction path as [|n rest IH]; intros t a Hr; simpl.
  - by intros [= <-].
  - intros Hw. pose proof (walk_up h (n :: rest) t a c Hr Hw) as [_ Hlt].
    specialize (Hlt ltac:(done)).
    inversion Hr as [? ? ? ? ? Ha|? ? ? ts cs ? ? Ha Hup H2]; subst;
      simpl in Hw; unfold bind at 1, read in Hw; rewrite Ha in Hw; simpl in Hw;
      [done|].
    assert (Hac : a <> c) by lia.
    unfold bind at 1, read. rewrite (Hne _ _ Hac Ha). simpl.
    destruct (find_spec lt h n ts cs H2) as (res & E & Hres).
    unfold bind at 1 in Hw. rewrite E in Hw.
    unfold bind at 1. rewrite (find_stable h h' n cs res Hn E).
    destruct (List.find _ ts) as [t'|]; [|by subst res].
    destruct Hres as (c1 & -> & Hin & Hr'). by eapply IH.
Qed.

(** *** [updateNodeByPath] *)

Lemma children_records R (h : heap) ts cs :
  Forall2 (reprR R h) ts cs ->
  exists es, Forall2 (fun c e => h !! c = Some e) cs es /\
             idPositions es = map (fun c => (t_id c, t_position c)) ts.
Proof.
  induction 1 as [|t c ts cs Hr _ (es & IH1 & IH2)].
  - by exists [].
  - destruct (reprR_lookup _ _ _ _ Hr) as (d & Hd & Hi & _ & _ & Hp).
    exists (d :: es). split; [by constructor|].
    unfold idPositions in *. simpl. by rewrite IH2, Hi, Hp.
Qed.

Lemma entries_spec (H : heap) cs es :
  Forall2 (fun c e => H !! c = Some e) cs es ->
  exists entries,
    mapM (fun c => e <- read c ;; ret (id e, c)) cs H = Some (entries, H) /\
    mapAgrees H (JsMap.fromEntries String.eqb entries) (idPositions es).
Proof.
  intros H2.
  assert (exists entries,
    mapM (fun c => e <- read c ;; ret (id e, c)) cs H = Some (entries, H) /\
    forall k,
      match JsMap.lastWith String.eqb entries k with
      | None => JsMap.lastWith String.eqb (idPositions es) k = None
      | Some c =>
          exists e, H !! c = Some e /\
            JsMap.lastWith String.eqb (idPositions es) k = Some (position e)
      end) as (entries & E & Hk).
  { induction H2 as [|c e cs es Hc _ (entries & E & Hk)]; simpl.
    - by exists [].
    - exists ((id e, c) :: entries). split.
      + unfold bind, read, ret in *. by rewrite Hc, E.
      + intros k. simpl. specialize (Hk k).
        destruct (JsMap.lastWith String.eqb entries k) as [c'|].
        * destruct Hk as (e' & He' & ->). eauto.
        * rewrite Hk. destruct (String.eqb (id e) k); eauto. }
  exists entries. split; [done|]. intros k.
  rewrite (JsMapFacts.get_fromEntries _ string_eqb_eq). apply Hk.
Qed.

Lemma carried_children existing d : children (carried existing d) = children d.
Proof.
  unfold carried. by destruct (JsMap.lastWith _ _ _) as [[?|]|].
Qed.

Lemma carried_name existing d : name (carried existing d) = name d.
Proof.
  unfold carried. by destruct (JsMap.lastWith _ _ _) as [[?|]|].
Qed.

Lemma carried_id existing d : id (carried existing d) = id d.
Proof.
  unfold carried. by destruct (JsMap.lastWith _ _ _) as [[?|]|].
Qed.

(** [newChildren.map(carryPosition)]: each new child comes out as itself or
    as a fresh copy, and holds what [carried] says. *)
Lemma mapM_carry (H0 : heap) m existing newChildren :
  mapAgrees H0 m existing ->
  Forall (fun nc => is_Some (H0 !! nc)) newChildren ->
  forall ext0, exists kids ext2,
    mapM (carryPosition m) newChildren (H0 ++ ext0)
      = Some (kids, H0 ++ ext0 ++ ext2) /\
    Forall2 (fun kid nc => exists ncd,
               H0 !! nc = Some ncd /\
               (H0 ++ ext0 ++ ext2) !! kid = Some (carried existing ncd) /\
               (kid = nc \/ List.length H0 <= kid)) kids newChildren /\
    Forall (fun d2 => exists nc ncd,
              In nc newChildren /\ H0 !! nc = Some ncd /\
              children d2 = children ncd) ext2.
Proof.
  intros Hm. induction 1 as [|nc rest [ncd Hnc] _ IH]; intros ext0.
  - exists [], []. rewrite app_nil_r. repeat split; constructor.
  - assert (Hstep : exists kid e1,
      carryPosition m nc (H0 ++ ext0) = Some (kid, H0 ++ ext0 ++ e1) /\
      (H0 ++ ext0 ++ e1) !! kid = Some (carried existing ncd) /\
      (kid = nc \/ List.length H0 <= kid) /\
      Forall (fun d2 => children d2 = children ncd) e1).
    { unfold carryPosition, bind at 1, read.
      rewrite (lookup_app_l_Some _ _ _ _ Hnc).
      specialize (Hm (id ncd)). unfold carried.
      destruct (JsMap.get String.eqb m (id ncd)) as [c|].
      - destruct Hm as (e & He & ->). unfold bind, read.
        rewrite (lookup_app_l_Some _ _ _ _ He).
        destruct (position e) as [p|].
        + exists (List.length (H0 ++ ext0)), [setPosition ncd (Some p)].
          unfold alloc. rewrite <- app_assoc. repeat split.
          * rewrite app_assoc. apply lookup_alloc.
          * right. rewrite length_app. lia.
          * by constructor.
        + exists nc, []. unfold ret. rewrite app_nil_r. repeat split.
          * by apply lookup_app_l_Some.
          * by left.
          * constructor.
      - rewrite Hm. exists nc, []. unfold ret. rewrite app_nil_r. repeat split.
        + by apply lookup_app_l_Some.
        + by left.
        + constructor. }
    destruct Hstep as (kid & e1 & E1 & L1 & K1 & F1).
    destruct (IH (ext0 ++ e1)) as (kids & ext2 & E2 & R2 & F2).
    assert (Hassoc : H0 ++ (ext0 ++ e1) ++ ext2 = H0 ++ ext0 ++ e1 ++ ext2)
      by (by rewrite <- !app_assoc).
    exists (kid :: kids), (e1 ++ ext2). repeat split.
    + simpl. unfold bind at 1. rewrite E1. unfold bind at 1.
      rewrite E2. unfold ret. by rewrite Hassoc.
    + constructor.
      * exists ncd. repeat split; [done| |done].
        replace (H0 ++ ext0 ++ e1 ++ ext2) with ((H0 ++ ext0 ++ e1) ++ ext2)
          by (by rewrite <- !app_assoc).
        by apply lookup_app_l_Some.
      * rewrite <- Hassoc. exact R2.
    + apply Forall_app. split.
      * eapply Forall_impl; [exact F1|]. intros d2 Hd2.
        exists nc, ncd. repeat split; [by left|done|done].
      * eapply Forall_impl; [exact F2|]. intros d2 (nc' & ncd' & Hin & ? & ?).
        exists nc', ncd'. repeat split; [by right|done|done].
Qed.

Lemma bind_step {A B} (m : M A) (f : A -> M B) h a h' :
  m h = Some (a, h') -> bind m f h = f a h'.
Proof. intros E. unfold bind. by rewrite E. Qed.

(** The whole of [updateNodeByPath] on a store that holds a tree [t] at
    [root]: the clone is appended to the store; when the path resolves, to
    [c] in the clone, the new children are made by [carryPosition] and
    assigned to [c]. *)
Lemma update_spec fuel (h : heap) root t path newChildren :
  repr h t root -> height t < fuel ->
  Forall (fun nc => is_Some (h !! nc)) newChildren ->
  exists ext,
    cloneDomainTree fuel root h = Some (List.length h, h ++ ext) /\
    reprUp (h ++ ext) t (List.length h) /\
    regionFresh (List.length h) ext /\
    match resolve t path with
    | None =>
        updateNodeByPath fuel root path newChildren h
          = Some (List.length h, h ++ ext)
    | Some t' =>
        exists c d kids ext2,
          walk (List.length h) path (h ++ ext) = Some (Some c, h ++ ext) /\
          List.length h <= c /\
          (h ++ ext) !! c = Some d /\
          reprUp (h ++ ext) t' c /\
          updateNodeByPath fuel root path newChildren h
            = Some (List.length h,
                    <[c := setChildren d (Some kids)]> ((h ++ ext) ++ ext2)) /\
          Forall2 (fun kid nc => exists ncd,
                     h !! nc = Some ncd /\
                     ((h ++ ext) ++ ext2) !! kid
                       = Some (carried (treeIdPositions t') ncd) /\
                     (kid = nc \/ List.length (h ++ ext) <= kid))
                  kids newChildren /\
          Forall (fun d2 => exists nc ncd,
                    In nc newChildren /\ h !! nc = Some ncd /\
                    children d2 = children ncd) ext2
    end.
Proof.
  intros Hr Hf Hnew.
  destruct (clone_spec t fuel h root Hr Hf) as (ext & E & Rup & F).
  exists ext. split; [done|]. split; [done|]. split; [done|].
  destruct (walk_spec lt (h ++ ext) path t (List.length h) Rup)
    as (res & Ew & Hres).
  unfold updateNodeByPath.
  erewrite bind_step; [|exact E]. erewrite bind_step; [|exact Ew].
  destruct (resolve t path) as [t'|]; [|by subst res].
  destruct Hres as (c & -> & Rc).
  destruct (reprR_lookup _ _ _ _ Rc) as (d & Hd & _).
  assert (exists entries,
    match children d with
    | Some cs => mapM (fun c0 => e <- read c0 ;; ret (id e, c0)) cs
    | None => ret []
    end (h ++ ext) = Some (entries, h ++ ext) /\
    mapAgrees (h ++ ext) (JsMap.fromEntries String.eqb entries)
      (treeIdPositions t')) as (entries & Ee & Hagree).
  { inversion Rc as [? ? ? ? ? Hc|? ? ? ts cs ? ? Hc _ H2]; subst;
      rewrite Hd in Hc; injection Hc as ->; simpl.
    - exists []. split; [done|]. by intros k.
    - destruct (children_records _ _ _ _ H2) as (es & Hes & Hip).
      destruct (entries_spec _ _ _ Hes) as (entries & Ee & Ha).
      exists entries. split; [done|].
      unfold treeIdPositions. simpl. by rewrite <- Hip. }
  assert (Hnew0 : Forall (fun nc => is_Some ((h ++ ext) !! nc)) newChildren).
  { eapply Forall_impl; [exact Hnew|]. intros nc [ncd Hnc].
    exists ncd. by apply lookup_app_l_Some. }
  destruct (mapM_carry (h ++ ext) _ _ newChildren Hagree Hnew0 [])
    as (kids & ext2 & Ek & Rk & Fk).
  rewrite app_nil_r in Ek. simpl in Ek, Rk.
  pose proof (walk_up _ _ _ _ _ Rup Ew) as [Hle _].
  exists c, d, kids, ext2.
  split; [done|]. split; [done|]. split; [done|]. split; [done|].
  assert (Hkids : Forall2 (fun kid nc => exists ncd,
                     h !! nc = Some ncd /\
                     ((h ++ ext) ++ ext2) !! kid
                       = Some (carried (treeIdPositions t') ncd) /\
                     (kid = nc \/ List.length (h ++ ext) <= kid))
                  kids newChildren).
  { eapply (Forall2_Forall_impl _ _ (fun nc => is_Some (h !! nc)));
      [|exact Hnew|exact Rk].
    apply Forall_forall. intros kid _ nc [x Hx] (ncd & Hncd & Hkid & Hor).
    exists ncd. rewrite (lookup_app_l_Some _ _ _ _ Hx) in Hncd.
    by injection Hncd as <-. }
  assert (Hext2 : Forall (fun d2 => exists nc ncd,
                    In nc newChildren /\ h !! nc = Some ncd /\
                    children d2 = children ncd) ext2).
  { eapply Forall_impl; [exact Fk|]. intros d2 (nc & ncd & Hin & Hncd & Hch).
    exists nc, ncd. split; [done|]. split; [|done].
    rewrite Forall_forall in Hnew.
    destruct (Hnew nc) as [x Hx]; [by apply list_elem_of_In|].
    rewrite (lookup_app_l_Some _ _ _ _ Hx) in Hncd. by injection Hncd as <-. }
  split; [|by split].
  erewrite bind_step; [|unfold read; by rewrite Hd].
  erewrite bind_step; [|exact Ee].
  erewrite bind_step; [|exact Ek].
  unfold bind, modify, ret.
  by rewrite (lookup_app_l_Some _ _ _ _ Hd).
Qed.

(** *** What the returned tree shares with the store it was given *)

Lemma reach_snoc (h : heap) a b d cs c :
  reach h a b -> h !! b = Some d -> children d = Some cs -> In c cs ->
  reach h a c.
Proof.
  induction 1 as [a|a d' cs' c' b Ha Hcs Hin _ IH]; intros Hb Hch Hc.
  - eapply reach_step; eauto. constructor.
  - eapply reach_step; eauto.
Qed.

Lemma reach_closed (h' : heap) (S : ref -> Prop) :
  (forall a d cs c, S a -> h' !! a = Some d -> children d = Some cs ->
                    In c cs -> S c) ->
  forall a b, reach h' a b -> S a -> S b.
Proof.
  intros Hcl a b. induction 1 as [a|a d cs c b Ha Hcs Hin _ IH]; [done|].
  intros Sa. apply IH. by eapply Hcl.
Qed.

Lemma Forall2_In_l {A B} (P : A -> B -> Prop) l k x :
  Forall2 P l k -> In x l -> exists y, In y k /\ P x y.
Proof.
  induction 1 as [|a b l k Hab _ IH]; simpl; [done|].
  intros [<-|Hin].
  - exists b. auto.
  - destruct (IH Hin) as (y & ? & ?). exists y. auto.
Qed.

(** After the assignment of [updateNodeByPath], the objects that are new or
    below one of [newChildren] only refer to such objects. *)
Lemma update_closure (h ext ext2 : heap) c0 d0 kids newChildren :
  regionFresh (List.length h) ext ->
  List.length h <= c0 ->
  Forall2 (fun kid nc => kid = nc \/ List.length (h ++ ext) <= kid)
          kids newChildren ->
  Forall (fun d2 => exists nc ncd,
            In nc newChildren /\ h !! nc = Some ncd /\
            children d2 = children ncd) ext2 ->
  forall a d cs c,
    (List.length h <= a \/ exists nc, In nc newChildren /\ reach h nc a) ->
    <[c0 := setChildren d0 (Some kids)]> ((h ++ ext) ++ ext2) !! a = Some d ->
    children d = Some cs -> In c cs ->
    List.length h <= c \/ exists nc, In nc newChildren /\ reach h nc c.
Proof.
  intros Hext Hc0 Hkids Hext2 a d cs c Sa Ha Hcs Hin.
  apply list_lookup_insert_Some in Ha as [(<- & <- & _)|[Hne Ha]].
  - simpl in Hcs. injection Hcs as <-.
    destruct (Forall2_In_l _ _ _ _ Hkids Hin) as (nc & Hnc & [->|Hfresh]).
    + right. exists nc. split; [done|constructor].
    + left. rewrite length_app in Hfresh. lia.
  - apply lookup_app_Some in Ha as [Ha|[_ Ha]].
    + apply lookup_app_Some in Ha as [Ha|[_ Ha]].
      * destruct Sa as [Hfresh|(nc & Hnc & Hr)].
        -- apply lookup_lt_Some in Ha. lia.
        -- right. exists nc. split; [done|]. by eapply reach_snoc.
      * left. apply list_elem_of_lookup_2 in Ha.
        unfold regionFresh in Hext. rewrite Forall_forall in Hext.
        specialize (Hext _ Ha _ Hcs). rewrite Forall_forall in Hext.
        by apply Hext, list_elem_of_In.
    + apply list_elem_of_lookup_2 in Ha. rewrite Forall_forall in Hext2.
      destruct (Hext2 _ Ha) as (nc & ncd & Hnc & Hncd & Hch).
      right. exists nc. split; [done|].
      eapply reach_step; [exact Hncd| |exact Hin|constructor]. congruence.
Qed.

(** *** The position a new child comes out with *)

Lemma lastWith_none (es : list Domain) k :
  (forall e, In e es -> id e <> k) ->
  JsMap.lastWith String.eqb (idPositions es) k = None.
Proof.
  induction es as [|e es IH]; simpl; [done|]. intros Hne.
  rewrite IH by (intros e' He'; apply Hne; by right).
  destruct (String.eqb (id e) k) eqn:E; [|done].
  apply String.eqb_eq in E. exfalso. eapply Hne; [by left|done].
Qed.

Lemma lastWith_unique (es : list Domain) e :
  NoDup (map id es) -> In e es ->
  JsMap.lastWith String.eqb (idPositions es) (id e) = Some (position e).
Proof.
  induction es as [|e0 es IH]; simpl; [done|].
  intros Hnd [->|Hin]; apply NoDup_cons in Hnd as [Hnotin Hnd].
  - rewrite lastWith_none.
    + by rewrite String.eqb_refl.
    + intros e' He' Heq. apply Hnotin. rewrite <- Heq.
      apply list_elem_of_In, in_map, He'.
  - by rewrite IH.
Qed.

Lemma carried_match (es : list Domain) e ncd p :
  NoDup (map id es) -> In e es -> id e = id ncd -> position e = Some p ->
  carried (idPositions es) ncd = setPosition ncd (Some p).
Proof.
  intros Hnd Hin Hid Hp. unfold carried.
  by rewrite <- Hid, (lastWith_unique es e Hnd Hin), Hp.
Qed.

Lemma carried_nomatch (es : list Domain) ncd :
  (forall e, In e es -> id e <> id ncd) -> carried (idPositions es) ncd = ncd.
Proof. intros Hne. unfold carried. by rewrite lastWith_none. Qed.

Lemma lookups_fun (h : heap) cs es es' :
  Forall2 (fun c e => h !! c = Some e) cs es ->
  Forall2 (fun c e => h !! c = Some e) cs es' -> es = es'.
Proof.
  intros H. revert es'. induction H as [|c e cs es Hc _ IH]; intros es' H';
    inversion H'; subst; [done|].
  f_equal; [congruence|by apply IH].
Qed.

(** The node the code finds on the path, and its children, seen as values. *)
Lemma target_children (h : heap) root t path target td es :
  repr h t root ->
  findNodeByPath root path h = Some (Some target, h) ->
  h !! target = Some td ->
  Forall2 (fun c e => h !! c = Some e) (default [] (children td)) es ->
  exists t', resolve t path = Some t' /\ repr h t' target /\
             idPositions es = treeIdPositions t'.
Proof.
  intros Hr Hfind Htd Hes. rewrite findNodeByPath_walk in Hfind.
  destruct (walk_spec _ h path t root Hr) as (res & Ew & Hres).
  rewrite Hfind in Ew. injection Ew as <-.
  destruct (resolve t path) as [t'|]; [|done].
  destruct Hres as (c & [= <-] & Rc). exists t'. split; [done|]. split; [done|].
  inversion Rc as [? ? ? ? ? Hc|? ? ? ts cs ? ? Hc _ H2]; subst;
    rewrite Htd in Hc; injection Hc as ->; simpl in Hes.
  - by inversion Hes.
  - destruct (children_records _ _ _ _ H2) as (es' & Hes' & Hip).
    by rewrite (lookups_fun _ _ _ _ Hes Hes').
Qed.

(** When the path resolves (to the subtree [t']): the node that the path
    leads to in the returned tree holds, for each new child, what
    [carried] says. *)
Lemma update_result fuel (h : heap) root t path newChildren t' :
  repr h t root -> height t < fuel ->
  Forall (fun nc => is_Some (h !! nc)) newChildren ->
  resolve t path = Some t' ->
  exists r h' c cd kids,
    updateNodeByPath fuel root path newChildren h = Some (r, h') /\
    findNodeByPath r path h' = Some (Some c, h') /\
    h' !! c = Some cd /\ children cd = Some kids /\
    id cd = t_id t' /\ name cd = t_name t' /\
    Forall2 (fun kid nc => exists ncd,
               h !! nc = Some ncd /\
               h' !! kid = Some (carried (treeIdPositions t') ncd))
            kids newChildren.
Proof.
  intros Hr Hf Hnew Hres.
  destruct (update_spec fuel h root t path newChildren Hr Hf Hnew)
    as (ext & _ & Rup & _ & Hupd).
  rewrite Hres in Hupd.
  destruct Hupd as (c & d & kids & ext2 & Ew & Hle & Hd & Rc & E & Hkids & _).
  pose proof (lookup_lt_Some _ _ _ Hd) as Hlt.
  assert (Hc' : c < List.length ((h ++ ext) ++ ext2))
    by (rewrite (length_app (h ++ ext)); lia).
  destruct (reprR_lookup _ _ _ _ Rc) as (d' & Hd' & Hid & Hname & _).
  rewrite Hd in Hd'. injection Hd' as <-.
  eexists _, _, c, (setChildren d (Some kids)), kids.
  split; [exact E|]. split; [|split; [|split; [done|split; [done|split; [done|]]]]].
  - rewrite findNodeByPath_walk.
    eapply (walk_stable (h ++ ext)); [exact Rup|exact Ew| |].
    + intros b db Hb Hdb. rewrite list_lookup_insert_ne by done.
      by apply lookup_app_l_Some.
    + intros d0 Hd0. rewrite Hd in Hd0. injection Hd0 as <-.
      eexists. split; [by apply list_lookup_insert_eq|done].
  - by apply list_lookup_insert_eq.
  - eapply Forall2_impl; [exact Hkids|].
    intros kid nc (ncd & Hncd & Hkid & Hor). exists ncd. split; [done|].
    rewrite list_lookup_insert_ne; [done|].
    apply lookup_lt_Some in Hncd. destruct Hor as [->|Hfresh]; lia.
Qed.

(** *** The claims on the tree store *)

(** C1 (as amended).  [updateNodeByPath] writes to no object that the store
    held before the call: the store after the call is the store before it,
    followed by newly allocated objects, so the input root still holds the
    same tree.  The returned root is new, and an object of the store before
    the call lies below the returned root only if it lies below (or is) one
    of [newChildren]: the returned tree shares objects with the input
    exactly where the caller hands objects of the input in as new
    children. *)
Theorem updateNodeByPath_frame fuel (h : heap) root t path newChildren :
  repr h t root -> height t < fuel ->
  Forall (fun nc => is_Some (h !! nc)) newChildren ->
  exists r ext',
    updateNodeByPath fuel root path newChildren h = Some (r, h ++ ext') /\
    repr (h ++ ext') t root /\
    r = List.length h /\
    forall b, reach (h ++ ext') r b -> b < List.length h ->
              exists nc, In nc newChildren /\ reach h nc b.
Proof.
  intros Hr Hf Hnew.
  destruct (update_spec fuel h root t path newChildren Hr Hf Hnew)
    as (ext & _ & Rup & Freg & Hupd).
  destruct (resolve t path) as [t'|].
  - destruct Hupd as (c & d & kids & ext2 & Ew & Hle & Hd & Rc & E & Hkids & Hext2).
    exists (List.length h),
           (<[c - List.length h := setChildren d (Some kids)]> (ext ++ ext2)).
    assert (Heq : h ++ <[c - List.length h := setChildren d (Some kids)]> (ext ++ ext2)
                  = <[c := setChildren d (Some kids)]> ((h ++ ext) ++ ext2)).
    { rewrite <- app_assoc. by rewrite (insert_app_r_alt h) by done. }
    split; [by rewrite Heq|]. split; [by apply repr_app|]. split; [done|].
    intros b Hreach Hb. rewrite Heq in Hreach.
    assert (Hkids' : Forall2 (fun kid nc => kid = nc \/ List.length (h ++ ext) <= kid)
                       kids newChildren).
    { eapply Forall2_impl; [exact Hkids|]. by intros kid nc (? & _ & _ & ?). }
    destruct (reach_closed _ _
                (update_closure h ext ext2 c d kids newChildren
                   Freg Hle Hkids' Hext2) _ _ Hreach) as [Hfresh|Hold].
    + by left.
    + lia.
    + done.
  - exists (List.length h), ext.
    split; [done|]. split; [by apply repr_app|]. split; [done|].
    intros b Hreach Hb. exfalso.
    assert (Hfresh : List.length h <= b); [|lia].
    eapply (reach_closed (h ++ ext) (fun a => List.length h <= a));
      [|exact Hreach|done].
    intros a d cs c Ha Hda Hcs Hin.
    apply lookup_app_Some in Hda as [Hda|[_ Hda]].
    + apply lookup_lt_Some in Hda. lia.
    + apply list_elem_of_lookup_2 in Hda.
      unfold regionFresh in Freg. rewrite Forall_forall in Freg.
      specialize (Freg _ Hda _ Hcs). rewrite Forall_forall in Freg.
      by apply Freg, list_elem_of_In.
Qed.

(** C7.  When the path does not resolve in the input tree ([findNodeByPath]
    answers [null]), [updateNodeByPath] returns what [cloneDomainTree]
    alone returns: the clone of the root, in a store where nothing but the
    clone was added, and the returned root holds the same tree as the
    input root: no node has its children replaced. *)
Theorem updateNodeByPath_unresolved fuel (h : heap) root t path newChildren :
  repr h t root -> height t < fuel ->
  findNodeByPath root path h = Some (None, h) ->
  exists r h',
    updateNodeByPath fuel root path newChildren h = Some (r, h') /\
    cloneDomainTree fuel root h = Some (r, h') /\
    repr h' t r /\ repr h' t root.
Proof.
  intros Hr Hf Hfind. rewrite findNodeByPath_walk in Hfind.
  destruct (walk_spec _ h path t root Hr) as (res & Ew & Hres).
  rewrite Hfind in Ew. injection Ew as <-.
  destruct (resolve t path) as [t'|] eqn:Hnone;
    [by destruct Hres as (? & ? & _)|].
  destruct (clone_spec t fuel h root Hr Hf) as (ext & E & Rup & _).
  destruct (walk_spec lt (h ++ ext) path t (List.length h) Rup)
    as (res & Ew & Hres').
  rewrite Hnone in Hres'. subst res.
  exists (List.length h), (h ++ ext).
  split; [|split; [done|split]].
  - unfold updateNodeByPath.
    erewrite bind_step; [|exact E]. by erewrite bind_step; [|exact Ew].
  - eapply reprR_weaken; [|exact Rup]. done.
  - by apply repr_app.
Qed.

(** C4.  When the path resolves in the input tree, to the node [target] with
    the child objects [es], the node that the same path leads to in the
    returned tree has one child per new child, in order, and the child made
    from the new child [ncd] is [carried (idPositions es) ncd]: with
    sibling ids that are unique, a new child whose id is that of an existing
    child [e] with a cached position [p] comes out as itself with the
    position [p], and a new child whose id is that of no existing child
    comes out as it is, with its own position or none. *)
Theorem updateNodeByPath_carries_positions
    fuel (h : heap) root t path newChildren target td es :
  repr h t root -> height t < fuel ->
  Forall (fun nc => is_Some (h !! nc)) newChildren ->
  findNodeByPath root path h = Some (Some target, h) ->
  h !! target = Some td ->
  Forall2 (fun c e => h !! c = Some e) (default [] (children td)) es ->
  exists r h' c cd kids,
    updateNodeByPath fuel root path newChildren h = Some (r, h') /\
    findNodeByPath r path h' = Some (Some c, h') /\
    h' !! c = Some cd /\ children cd = Some kids /\
    Forall2 (fun kid nc => exists ncd kd,
               h !! nc = Some ncd /\ h' !! kid = Some kd /\
               kd = carried (idPositions es) ncd /\
               (forall e p, NoDup (map id es) -> In e es -> id e = id ncd ->
                            position e = Some p ->
                            kd = setPosition ncd (Some p)) /\
               ((forall e, In e es -> id e <> id ncd) -> kd = ncd))
            kids newChildren.
Proof.
  intros Hr Hf Hnew Hfind Htd Hes.
  destruct (target_children h root t path target td es Hr Hfind Htd Hes)
    as (t' & Hres & _ & Hip).
  destruct (update_result fuel h root t path newChildren t' Hr Hf Hnew Hres)
    as (r & h' & c & cd & kids & E & Hw & Hc & Hch & _ & _ & Hkids).
  exists r, h', c, cd, kids. repeat (split; [done|]).
  eapply Forall2_impl; [exact Hkids|].
  intros kid nc (ncd & Hncd & Hkid). rewrite <- Hip in Hkid.
  exists ncd, (carried (idPositions es) ncd).
  repeat (split; [done|]). split.
  - intros e p Hnd Hin Hid Hp. by eapply carried_match.
  - apply carried_nomatch.
Qed.

(** *** [handleLoadMore] *)

Lemma mapM_read (X : Type) (g : Domain -> X) (h : heap) cs es :
  Forall2 (fun c e => h !! c = Some e) cs es ->
  mapM (fun c => e <- read c ;; ret (g e)) cs h = Some (map g es, h).
Proof.
  induction 1 as [|c e cs es Hc _ IH]; simpl; [done|].
  unfold bind, read, ret in *. by rewrite Hc, IH.
Qed.

Lemma mapM_alloc (names : list string) :
  forall h : heap,
    mapM (fun n => alloc {| id := n; name := n; children := None;
                            source := Some "ai"; position := None |}) names h
    = Some (seq (List.length h) (List.length names), h ++ map newDomain names).
Proof.
  induction names as [|n names IH]; intros h; simpl.
  - by rewrite app_nil_r.
  - unfold bind at 1, alloc at 1. unfold bind at 1. rewrite IH.
    unfold ret. rewrite length_app, <- app_assoc. simpl.
    by rewrite Nat.add_1_r.
Qed.

Lemma lookups_alloc (h : heap) ds :
  Forall2 (fun c e => (h ++ ds) !! c = Some e)
          (seq (List.length h) (List.length ds)) ds.
Proof.
  revert h. induction ds as [|d ds IH]; intros h; simpl; [constructor|].
  constructor; [apply lookup_alloc|].
  specialize (IH (h ++ [d])). rewrite length_app, <- app_assoc in IH.
  simpl in IH. by rewrite Nat.add_1_r in IH.
Qed.

Lemma kids_records {X} (h1 h' : heap) (f : Domain -> X) (P : ref -> X -> Prop)
    kids ncs ncds :
  Forall2 (fun kid nc => exists ncd, h1 !! nc = Some ncd /\ P kid (f ncd))
          kids ncs ->
  Forall2 (fun nc ncd => h1 !! nc = Some ncd) ncs ncds ->
  Forall2 P kids (map f ncds).
Proof.
  intros H. revert ncds.
  induction H as [|kid nc kids ncs (ncd & Hncd & HP) _ IH]; intros ncds H2;
    inversion H2; subst; simpl; constructor.
  - congruence.
  - by apply IH.
Qed.

Lemma carried_source existing d : source (carried existing d) = source d.
Proof.
  unfold carried. by destruct (JsMap.lastWith _ _ _) as [[?|]|].
Qed.

Lemma carried_self (es : list Domain) e :
  NoDup (map id es) -> In e es -> carried (idPositions es) e = e.
Proof.
  intros Hnd Hin. unfold carried. rewrite (lastWith_unique es e Hnd Hin).
  destruct e as [i n ch s [p|]]; reflexivity.
Qed.

Lemma kept_spec (es l : list Domain) :
  (forall e, In e l -> In e es) ->
  Forall2 (fun e k => id k = id e /\ name k = name e /\
                      children k = children e /\ source k = source e /\
                      (NoDup (map id es) -> k = e))
          l (map (carried (idPositions es)) l).
Proof.
  induction l as [|e l IH]; intros Hall; simpl; constructor.
  - rewrite carried_id, carried_name, carried_children, carried_source.
    repeat (split; [done|]). intros Hnd. apply carried_self; [done|].
    apply Hall. by left.
  - apply IH. intros e' He'. apply Hall. by right.
Qed.

(** [cloneDomainTree] returns on every tree the store holds, given more
    fuel than the tree is high: the clone is a new object, holds the same
    tree value, and the store is only extended. *)
Lemma cloneDomainTree_total fuel (h : heap) t a :
  repr h t a -> height t < fuel ->
  exists ext,
    cloneDomainTree fuel a h = Some (List.length h, h ++ ext) /\
    repr (h ++ ext) t (List.length h) /\
    repr (h ++ ext) t a.
Proof.
  intros Hr Hf.
  destruct (clone_spec t fuel h a Hr Hf) as (ext & E & Hup & _).
  exists ext. split; [exact E|]. split.
  - eapply reprR_weaken; [|exact Hup]. done.
  - by apply repr_app.
Qed.

(** With no candidate name, and on a path that does not resolve,
    [handleLoadMore] returns without setting the tree, and the store is as
    it was. *)
Lemma handleLoadMore_no_names toLowerCase fuel domainTree currentPath (h : heap) :
  handleLoadMore toLowerCase fuel domainTree currentPath [] h = Some (None, h).
Proof. reflexivity. Qed.

Lemma handleLoadMore_unresolved
    toLowerCase fuel domainTree currentPath newNames (h : heap) :
  findNodeByPath domainTree currentPath h = Some (None, h) ->
  handleLoadMore toLowerCase fuel domainTree currentPath newNames h
  = Some (None, h).
Proof.
  intros Hfind. unfold handleLoadMore.
  destruct (0 <? List.length newNames)%nat; [|done].
  erewrite bind_step; [|exact Hfind]. done.
Qed.

(** C8.  On a non-empty list of candidate names and a path that resolves,
    to a node with the child objects [es], [handleLoadMore] hands to
    [setDomainTree] a tree in which the node on that path has for children,
    in order: one child for each of [es], with its id, name, children and
    source (and the very same object value when sibling ids are unique),
    followed by one node for each candidate of [uniqueNames toLowerCase es
    newNames], that is, for each candidate whose lower-cased name is the
    lower-cased name of no existing child, in the order of the candidates,
    with that name as id and name and with unresolved ([null]) children. *)
Theorem handleLoadMore_appends_unique
    toLowerCase fuel (h : heap) domainTree t currentPath newNames parent pd es :
  repr h t domainTree -> height t < fuel ->
  newNames <> [] ->
  findNodeByPath domainTree currentPath h = Some (Some parent, h) ->
  h !! parent = Some pd ->
  Forall2 (fun c e => h !! c = Some e) (default [] (children pd)) es ->
  exists r h' c cd kids kept added,
    handleLoadMore toLowerCase fuel domainTree currentPath newNames h
      = Some (Some r, h') /\
    findNodeByPath r currentPath h' = Some (Some c, h') /\
    h' !! c = Some cd /\ children cd = Some kids /\
    Forall2 (fun kid kd => h' !! kid = Some kd) kids (kept ++ added) /\
    Forall2 (fun e k => id k = id e /\ name k = name e /\
                        children k = children e /\ source k = source e /\
                        (NoDup (map id es) -> k = e)) es kept /\
    Forall2 (fun n k => id k = n /\ name k = n /\ children k = None /\
                        source k = Some "ai")
            (uniqueNames toLowerCase es newNames) added.
Proof.
  intros Hr Hf Hne Hfind Htd Hes.
  destruct (target_children h domainTree t currentPath parent pd es
              Hr Hfind Htd Hes) as (t' & Hres & _ & Hip).
  set (U := uniqueNames toLowerCase es newNames).
  set (h1 := h ++ map newDomain U).
  set (newRefs := seq (List.length h) (List.length (map newDomain U))).
  assert (Hlook : Forall2 (fun nc ncd => h1 !! nc = Some ncd)
                    (default [] (children pd) ++ newRefs)
                    (es ++ map newDomain U)).
  { apply Forall2_app.
    - eapply Forall2_impl; [exact Hes|]. intros c e Hc.
      by apply lookup_app_l_Some.
    - apply lookups_alloc. }
  assert (Hnew : Forall (fun nc => is_Some (h1 !! nc))
                   (default [] (children pd) ++ newRefs)).
  { clear -Hlook. induction Hlook; constructor; eauto. }
  destruct (update_result fuel h1 domainTree t currentPath _ t'
              (repr_app _ _ _ _ _ Hr) Hf Hnew Hres)
    as (r & h' & c & cd & kids & E & Hw & Hc & Hch & _ & _ & Hkids).
  exists r, h', c, cd, kids,
    (map (carried (idPositions es)) es),
    (map (carried (idPositions es)) (map newDomain U)).
  split; [|split; [done|split; [done|split; [done|split; [|split]]]]].
  - unfold handleLoadMore.
    destruct newNames as [|n0 names]; [done|].
    change (0 <? List.length (n0 :: names))%nat with true. cbv iota.
    erewrite bind_step; [|exact Hfind]. cbv beta iota.
    erewrite bind_step; [|unfold read; by rewrite Htd].
    erewrite bind_step; [|by apply mapM_read].
    erewrite bind_step; [|apply mapM_alloc].
    unfold newRefs in E. rewrite length_map in E.
    erewrite bind_step; [|exact E]. done.
  - rewrite <- map_app. rewrite <- Hip in Hkids.
    eapply (kids_records h1 h' _ (fun kid kd => h' !! kid = Some kd));
      [exact Hkids|exact Hlook].
  - by apply kept_spec.
  - clear. induction U as [|n U IH]; simpl; constructor; [|done].
    by rewrite carried_id, carried_name, carried_children, carried_source.
Qed.

(** *** The claims at concrete stores *)

Lemma sampleStore_repr : repr sampleStore sampleTree 0.
Proof.
  apply (reprR_inner _ _ 0 _ _ _ [1; 2]); [reflexivity|by repeat constructor|].
  repeat constructor.
Defined.

Lemma sampleTree_height : height sampleTree < 2.
Proof. apply Nat.lt_succ_diag_r. Defined.

Lemma sampleStore_live (ncs : list ref) :
  forallb (fun nc => Nat.ltb nc 6) ncs = true ->
  Forall (fun nc => is_Some (sampleStore !! nc)) ncs.
Proof.
  intros H. apply Forall_forall. intros nc Hin.
  apply lookup_lt_is_Some. apply list_elem_of_In in Hin.
  rewrite forallb_forall in H. apply Nat.ltb_lt. by apply H.
Defined.

(** Replacing the children [A(10,10), B] of the root by the new [A, B, C]:
    the root of the returned tree is object 6; its children are a copy of
    the new A at the cached position (10,10) (object 9), the new B and the
    new C. *)
Example updateNodeByPath_sample :
  updateNodeByPath 2 0 [] [3; 4; 5] sampleStore
  = Some (6, sampleStore ++
             [ mkDomain "root" "SparkSphere" (Some [9; 4; 5]) None None;
               mkDomain "A" "A" None (Some "ai") (Some (mkPosition 10 10));
               mkDomain "B" "B" None (Some "ai") None;
               mkDomain "A" "A" None (Some "ai") (Some (mkPosition 10 10)) ]).
Proof. vm_compute. reflexivity. Qed.

Lemma updateNodeByPath_frame_witness :
  exists r ext',
    updateNodeByPath 2 0 [] [3; 4; 5] sampleStore
      = Some (r, sampleStore ++ ext') /\
    repr (sampleStore ++ ext') sampleTree 0 /\
    r = List.length sampleStore /\
    forall b, reach (sampleStore ++ ext') r b -> b < List.length sampleStore ->
              exists nc, In nc [3; 4; 5] /\ reach sampleStore nc b.
Proof.
  apply (updateNodeByPath_frame 2 sampleStore 0 sampleTree [] [3; 4; 5]).
  - exact sampleStore_repr.
  - exact sampleTree_height.
  - by apply sampleStore_live.
Defined.

(** C1 as stated fails: when the new children are the objects of the
    existing children, as [handleLoadMore] passes them, the existing child B
    (object 2, which has no cached position) is itself a child of the
    returned root (object 6): the returned tree shares it with the input
    tree. *)
Lemma updateNodeByPath_shares_newChildren :
  exists h',
    updateNodeByPath 2 0 [] [1; 2] sampleStore = Some (6, h') /\
    h' !! 6 = Some (mkDomain "root" "SparkSphere" (Some [9; 2]) None None) /\
    reach sampleStore 0 2 /\ reach h' 6 2.
Proof.
  eexists. split; [vm_compute; reflexivity|]. split; [reflexivity|]. split.
  - eapply reach_step; [reflexivity|reflexivity|right; by left|constructor].
  - eapply reach_step; [reflexivity|reflexivity|right; by left|constructor].
Qed.

Lemma updateNodeByPath_unresolved_witness :
  exists r h',
    updateNodeByPath 2 0 ["Z"] [3; 4; 5] sampleStore = Some (r, h') /\
    cloneDomainTree 2 0 sampleStore = Some (r, h') /\
    repr h' sampleTree r /\ repr h' sampleTree 0.
Proof.
  apply (updateNodeByPath_unresolved 2 sampleStore 0 sampleTree ["Z"] [3; 4; 5]).
  - exact sampleStore_repr.
  - exact sampleTree_height.
  - reflexivity.
Defined.

Lemma updateNodeByPath_carries_positions_witness :
  exists r h' c cd kids,
    updateNodeByPath 2 0 [] [3; 4; 5] sampleStore = Some (r, h') /\
    findNodeByPath r [] h' = Some (Some c, h') /\
    h' !! c = Some cd /\ children cd = Some kids /\
    Forall2 (fun kid nc => exists ncd kd,
               sampleStore !! nc = Some ncd /\ h' !! kid = Some kd /\
               kd = carried
                      (idPositions
                         [ mkDomain "A" "A" None (Some "ai")
                             (Some (mkPosition 10 10));
                           mkDomain "B" "B" None (Some "ai") None ]) ncd /\
               (forall e p,
                  NoDup (map id
                    [ mkDomain "A" "A" None (Some "ai")
                        (Some (mkPosition 10 10));
                      mkDomain "B" "B" None (Some "ai") None ]) ->
                  In e [ mkDomain "A" "A" None (Some "ai")
                           (Some (mkPosition 10 10));
                         mkDomain "B" "B" None (Some "ai") None ] ->
                  id e = id ncd -> position e = Some p ->
                  kd = setPosition ncd (Some p)) /\
               ((forall e,
                   In e [ mkDomain "A" "A" None (Some "ai")
                            (Some (mkPosition 10 10));
                          mkDomain "B" "B" None (Some "ai") None ] ->
                   id e <> id ncd) -> kd = ncd))
            kids [3; 4; 5].
Proof.
  apply (updateNodeByPath_carries_positions 2 sampleStore 0 sampleTree []
           [3; 4; 5] 0
           (mkDomain "root" "SparkSphere" (Some [1; 2]) None None)).
  - exact sampleStore_repr.
  - exact sampleTree_height.
  - by apply sampleStore_live.
  - reflexivity.
  - reflexivity.
  - repeat constructor.
Defined.

Lemma artStore_repr : repr artStore artTree 0.
Proof.
  apply (reprR_inner _ _ 0 _ _ _ [1]); [reflexivity|by repeat constructor|].
  repeat constructor.
Defined.

(** Loading the candidates art and Music under the root: art is dropped,
    for Music a node is made (object 2), and the root of the new tree
    (object 3) has the children Art and Music. *)
Example handleLoadMore_art_music :
  uniqueNames toLowerAscii [mkDomain "Art" "Art" None (Some "ai") None]
    ["art"; "Music"] = ["Music"] /\
  handleLoadMore toLowerAscii 2 0 [] ["art"; "Music"] artStore
  = Some (Some 3,
          artStore ++
          [ mkDomain "Music" "Music" None (Some "ai") None;
            mkDomain "root" "SparkSphere" (Some [1; 2]) None None;
            mkDomain "Art" "Art" None (Some "ai") None ]).
Proof. split; vm_compute; reflexivity. Qed.

Lemma handleLoadMore_appends_unique_witness :
  exists r h' c cd kids kept added,
    handleLoadMore toLowerAscii 2 0 [] ["art"; "Music"] artStore
      = Some (Some r, h') /\
    findNodeByPath r [] h' = Some (Some c, h') /\
    h' !! c = Some cd /\ children cd = Some kids /\
    Forall2 (fun kid kd => h' !! kid = Some kd) kids (kept ++ added) /\
    Forall2 (fun e k => id k = id e /\ name k = name e /\
                        children k = children e /\ source k = source e /\
                        (NoDup (map id [mkDomain "Art" "Art" None (Some "ai") None])
                         -> k = e))
            [mkDomain "Art" "Art" None (Some "ai") None] kept /\
    Forall2 (fun n k => id k = n /\ name k = n /\ children k = None /\
                        source k = Some "ai")
            (uniqueNames toLowerAscii
               [mkDomain "Art" "Art" None (Some "ai") None] ["art"; "Music"])
            added.
Proof.
  apply (handleLoadMore_appends_unique toLowerAscii 2 artStore 0 artTree []
           ["art"; "Music"] 0
           (mkDomain "root" "SparkSphere" (Some [1]) None None)).
  - exact artStore_repr.
  - apply Nat.lt_succ_diag_r.
  - discriminate.
  - reflexivity.
  - reflexivity.
  - repeat constructor.
Defined.

(** *** The tree as a value, through the handlers of the view *)

Lemma chain_le {A} (P : A -> nat -> nat -> Prop) l cs lo hi :
  Forall (fun a => forall lo hi, P a lo hi -> lo < hi) l ->
  chain P l cs lo hi -> lo <= hi.
Proof.
  intros HF Hc. induction Hc as [|a l cs lo mid hi Ha _ IH]; [done|].
  inversion HF as [|? ? H1 H2]; subst. specialize (H1 _ _ Ha).
  specialize (IH H2). lia.
Qed.

Lemma reprI_lt h t : forall lo hi, reprI h t lo hi -> lo < hi.
Proof.
  induction t as [i n s p|i n ts s p IH] using Tree_ind'; intros lo hi Hr;
    inversion Hr as [|? ? ? ? ? cs ? ? Ha Hc]; subst; [lia|].
  pose proof (chain_le _ _ _ _ _ IH Hc). lia.
Qed.

Lemma chain_reprI_le h ts cs lo hi : chain (reprI h) ts cs lo hi -> lo <= hi.
Proof.
  apply chain_le. apply Forall_forall. intros t _. apply reprI_lt.
Qed.

(** From one property of the elements of a chain to another, inside the
    bounds of the chain. *)
Lemma chain_impl {A} (P Q : A -> nat -> nat -> Prop) l :
  Forall (fun a => forall lo hi, P a lo hi -> lo < hi) l ->
  forall cs lo hi, chain P l cs lo hi ->
  Forall (fun a => forall lo' hi', lo <= lo' -> hi' <= hi ->
                                    P a lo' hi' -> Q a lo' hi') l ->
  chain Q l cs lo hi.
Proof.
  intros Hlt cs lo hi Hc. induction Hc as [|a l cs lo mid hi Ha Hc IH];
    intros HPQ; [constructor|].
  inversion Hlt as [|? ? Hlt1 Hlt2]; subst.
  inversion HPQ as [|? ? H1 H2]; subst.
  pose proof (Hlt1 _ _ Ha). pose proof (chain_le _ _ _ _ _ Hlt2 Hc).
  apply chain_cons with mid.
  - apply H1; [lia|lia|done].
  - apply IH; [done|]. eapply Forall_impl; [exact H2|]. simpl.
    intros t Ht lo' hi' ? ?. apply Ht; lia.
Qed.

Lemma Forall_reprI_lt h (ts : list Tree) :
  Forall (fun t => forall lo hi, reprI h t lo hi -> lo < hi) ts.
Proof. apply Forall_forall. intros t _. apply reprI_lt. Qed.

(** A store that agrees with [h] between [lo] and [hi] holds the tree
    there as well. *)
Lemma reprI_frame (h h' : heap) t :
  forall lo hi, reprI h t lo hi ->
  (forall b d, lo <= b < hi -> h !! b = Some d -> h' !! b = Some d) ->
  reprI h' t lo hi.
Proof.
  induction t as [i n s p|i n ts s p IH] using Tree_ind'; intros lo hi Hr Hag;
    inversion Hr as [|? ? ? ? ? cs ? ? Ha Hc]; subst.
  - constructor. apply Hag; [lia|done].
  - pose proof (chain_reprI_le _ _ _ _ _ Hc) as Hle.
    econstructor; [apply Hag; [lia|done]|].
    eapply chain_impl; [apply Forall_reprI_lt|exact Hc|].
    eapply Forall_impl; [exact IH|]. simpl.
    intros t Ht lo' hi' ? ? Hr'. apply Ht; [done|].
    intros b d Hb. apply Hag. lia.
Qed.

(** The interval layout is a representation. *)
Lemma chain_Forall2 {A} (P : A -> nat -> nat -> Prop) (Q : A -> nat -> Prop) l :
  forall cs lo hi, chain P l cs lo hi ->
  Forall (fun a => forall lo' hi', P a lo' hi' -> Q a lo') l ->
  Forall2 Q l cs.
Proof.
  intros cs lo hi Hc. induction Hc as [|a l cs lo mid hi Ha Hc IH];
    intros HPQ; [constructor|].
  inversion HPQ as [|? ? H1 H2]; subst. constructor; [by eapply H1|by apply IH].
Qed.

Lemma reprI_repr h t : forall lo hi, reprI h t lo hi -> repr h t lo.
Proof.
  induction t as [i n s p|i n ts s p IH] using Tree_ind'; intros lo hi Hr;
    inversion Hr as [|? ? ? ? ? cs ? ? Ha Hc]; subst.
  - by constructor.
  - econstructor; [done| |].
    + apply Forall_forall. done.
    + eapply chain_Forall2; [exact Hc|exact IH].
Qed.

Lemma mapM_clone_layout f h0 ts :
  Forall cloneLayout ts ->
  forall cs, Forall2 (repr h0) ts cs -> Forall (fun t => height t < f) ts ->
  forall ext0, exists cs' ext,
    mapM (cloneDomainTree f) cs (h0 ++ ext0) = Some (cs', h0 ++ ext0 ++ ext) /\
    chain (reprI (h0 ++ ext0 ++ ext)) ts cs'
      (List.length (h0 ++ ext0)) (List.length (h0 ++ ext0 ++ ext)).
Proof.
  induction 1 as [|t ts Ht _ IH]; intros cs H2 Hh ext0;
    inversion H2 as [|? c ? cs0 Hc H2']; subst.
  - exists [], []. rewrite app_nil_r. split; [done|constructor].
  - inversion Hh as [|? ? Hht Hhts]; subst.
    destruct (Ht f (h0 ++ ext0) c) as (ext1 & E1 & R1);
      [by apply repr_app | done |].
    destruct (IH cs0 H2' Hhts (ext0 ++ ext1)) as (cs' & ext2 & E2 & R2).
    exists (List.length (h0 ++ ext0) :: cs'), (ext1 ++ ext2).
    assert (Hassoc : h0 ++ ext0 ++ ext1 ++ ext2 = h0 ++ (ext0 ++ ext1) ++ ext2)
      by (by rewrite <- !app_assoc).
    split.
    + simpl. unfold bind at 1. rewrite E1.
      rewrite <- app_assoc. unfold bind at 1. rewrite E2.
      unfold ret. by rewrite Hassoc.
    + rewrite Hassoc.
      apply chain_cons with (List.length (h0 ++ ext0 ++ ext1)); [|done].
      replace (List.length (h0 ++ ext0 ++ ext1))
        with (List.length ((h0 ++ ext0) ++ ext1)) by (by rewrite <- app_assoc).
      eapply reprI_frame; [exact R1|].
      intros b d _ Hb.
      replace (h0 ++ (ext0 ++ ext1) ++ ext2)
        with (((h0 ++ ext0) ++ ext1) ++ ext2) by (by rewrite <- !app_assoc).
      by apply lookup_app_l_Some.
Qed.

Lemma clone_layout t : cloneLayout t.
Proof.
  induction t as [i n s p|i n ts s p IH] using Tree_ind';
    intros fuel h a Hr Hf; (destruct fuel as [|f]; [lia|]);
    inversion Hr as [? ? ? ? ? Ha|? ? ? ? cs ? ? Ha _ H2]; subst.
  - exists [mkDomain i n None s p]. split.
    + simpl. unfold bind at 1, read. rewrite Ha. unfold bind at 1, alloc.
      simpl. destruct p as [p|]; unfold bind, modify, ret; simpl.
      * rewrite lookup_alloc, insert_alloc. unfold setPosition. simpl.
        by rewrite position_copy.
      * done.
    + rewrite length_app. simpl. rewrite Nat.add_1_r.
      constructor. apply lookup_alloc.
  - pose proof (height_children _ _ _ _ _ _ Hf) as Hh.
    set (d1 := mkDomain i n None s p).
    destruct (mapM_clone_layout f h ts IH cs H2 Hh [d1]) as (cs' & ext & E & R).
    exists (mkDomain i n (Some cs') s p :: ext).
    assert (Hpos : (_ <- match p with
                 | Some p0 => modify (List.length h)
                     (fun n0 => setPosition n0 (Some (mkPosition (x p0) (y p0))))
                 | None => ret tt
                 end ;; ret tt) (h ++ [mkDomain i n None s None])
               = Some (tt, h ++ [d1])).
    { destruct p as [p|]; unfold bind, modify, ret; simpl; [|done].
      rewrite lookup_alloc, insert_alloc. unfold setPosition. simpl.
      by rewrite position_copy. }
    split.
    + simpl. unfold bind at 1, read. rewrite Ha. unfold bind at 1, alloc.
      simpl. unfold bind at 1. unfold bind at 1 in Hpos.
      destruct (match p with
                | Some p0 => modify (List.length h)
                    (fun n0 => setPosition n0 (Some (mkPosition (x p0) (y p0))))
                | None => ret tt
                end (h ++ [mkDomain i n None s None])) as [[[] h1]|];
        [|discriminate].
      unfold ret in Hpos. injection Hpos as ->.
      unfold bind at 1. unfold bind at 1. rewrite E. simpl in *.
      unfold modify, ret. rewrite lookup_alloc, insert_alloc. done.
    + econstructor; [apply lookup_alloc|].
      rewrite length_app in R. simpl in R. rewrite Nat.add_1_r in R.
      replace (List.length (h ++ mkDomain i n (Some cs') s p :: ext))
        with (List.length (h ++ d1 :: ext))
        by (rewrite !length_app; done).
      eapply chain_impl; [apply Forall_reprI_lt|exact R|].
      apply Forall_forall. intros t _ lo' hi' Hlo _ Hr'.
      eapply reprI_frame; [exact Hr'|].
      intros b d Hb. rewrite !lookup_app_r by lia.
      replace (b - List.length h) with (S (b - S (List.length h))) by lia.
      done.
Qed.

Lemma chain_Forall2_within {A} (P : A -> nat -> nat -> Prop)
    (Q : A -> nat -> Prop) l cs lo hi :
  Forall (fun a => forall lo hi, P a lo hi -> lo < hi) l ->
  chain P l cs lo hi ->
  Forall (fun a => forall lo' hi', lo <= lo' -> hi' <= hi ->
                                    P a lo' hi' -> Q a lo') l ->
  Forall2 Q l cs.
Proof.
  intros Hlt Hc HPQ.
  eapply (chain_Forall2 (fun a lo' _ => Q a lo')); [|by apply Forall_forall].
  eapply chain_impl; [exact Hlt|exact Hc|exact HPQ].
Qed.

Lemma reprI_lookup h t lo hi :
  reprI h t lo hi ->
  exists d, h !! lo = Some d /\ id d = t_id t /\ name d = t_name t /\
            source d = t_source t /\ position d = t_position t.
Proof. intros Hr. eapply reprR_lookup. eapply reprI_repr. exact Hr. Qed.

(** [find] on the children of a freshly cloned node: it answers with the
    interval of the first child of that name, and a store that differs
    from [h] inside this interval only holds the other children as [h]
    does. *)
Lemma find_chain (h : heap) n ts cs lo hi :
  chain (reprI h) ts cs lo hi ->
  match List.find (fun t => String.eqb (t_name t) n) ts with
  | None => find (fun child => String.eqb (name child) n) cs h = Some (None, h)
  | Some tj =>
      exists c hc,
        find (fun child => String.eqb (name child) n) cs h = Some (Some c, h) /\
        lo <= c /\ hc <= hi /\ reprI h tj c hc /\
        forall (h2 : heap) g,
          (forall b d, lo <= b < hi -> ~ (c <= b < hc) ->
                       h !! b = Some d -> h2 !! b = Some d) ->
          repr h2 (g tj) c ->
          Forall2 (repr h2)
            (updateFirst (fun t => String.eqb (t_name t) n) g ts) cs
  end.
Proof.
  induction 1 as [|t ts cs lo mid hi Ht Hc IH]; [done|].
  pose proof (reprI_lt _ _ _ _ Ht) as Hlt.
  pose proof (chain_reprI_le _ _ _ _ _ Hc) as Hle.
  destruct (reprI_lookup _ _ _ _ Ht) as (d & Hd & _ & Hn & _).
  assert (Hfind : find (fun child => String.eqb (name child) n) (lo :: cs) h
                  = if String.eqb (t_name t) n then Some (Some lo, h)
                    else find (fun child => String.eqb (name child) n) cs h).
  { simpl. unfold bind, read. rewrite Hd, Hn.
    by destruct (String.eqb (t_name t) n). }
  rewrite Hfind. clear Hfind. simpl.
  destruct (String.eqb (t_name t) n) eqn:E.
  - exists lo, mid. repeat split; [lia|lia|done|].
    intros h2 g Hag Hg. constructor; [done|].
    eapply chain_Forall2_within; [apply Forall_reprI_lt|exact Hc|].
    apply Forall_forall. intros t' _. intros lo' hi' Hlo' Hhi' Hr'.
    eapply reprI_repr. eapply reprI_frame; [exact Hr'|].
    intros b d' Hb. apply Hag; lia.
  - destruct (List.find (fun t0 => String.eqb (t_name t0) n) ts) as [tj|].
    + destruct IH as (c & hc & Ef & Hlo & Hhi & Hrj & Hcl).
      exists c, hc. repeat split; [done|lia|lia|done|].
      intros h2 g Hag Hg. constructor.
      * eapply reprI_repr. eapply reprI_frame; [exact Ht|].
        intros b d' Hb. apply Hag; lia.
      * apply Hcl; [|done]. intros b d' Hb. apply Hag. lia.
    + exact IH.
Qed.

(** The walk in a freshly cloned tree, and an assignment to the node it
    ends at: a store that differs from [h] at that node only holds, at the
    root, the tree with the subtree of the node replaced. *)
Lemma update_at (h : heap) path :
  forall t lo hi t', reprI h t lo hi -> resolve t path = Some t' ->
  exists c hc,
    walk lo path h = Some (Some c, h) /\ lo <= c /\ hc <= hi /\
    reprI h t' c hc /\
    forall (h2 : heap) g,
      (forall b d, lo <= b < hi -> b <> c -> h !! b = Some d -> h2 !! b = Some d) ->
      repr h2 (g t') c ->
      repr h2 (replaceAt path g t) lo.
Proof.
  induction path as [|n rest IH]; intros t lo hi t' Hr Hres.
  - injection Hres as <-. pose proof (reprI_lt _ _ _ _ Hr).
    exists lo, hi. repeat split; [lia|lia|done|]. intros h2 g _ Hg. exact Hg.
  - destruct t as [i nm [ts|] s p]; [|discriminate].
    inversion Hr as [|? ? ? ? ? cs ? ? Ha Hc]; subst.
    simpl in Hres.
    pose proof (find_chain h n ts cs (S lo) hi Hc) as Hf.
    destruct (List.find (fun c => String.eqb (t_name c) n) ts) as [tj|];
      [|discriminate].
    destruct Hf as (cj & hj & Ef & Hlo & Hhi & Hrj & Hcl).
    destruct (IH tj cj hj t' Hrj Hres) as (c & hc & Ew & Hlo' & Hhi' & Hrc & Hcl').
    pose proof (reprI_lt _ _ _ _ Hrc).
    exists c, hc. repeat split; [|lia|lia|done|].
    + simpl. unfold bind at 1, read. rewrite Ha. simpl.
      unfold bind at 1. rewrite Ef. exact Ew.
    + intros h2 g Hag Hg. simpl.
      apply (reprR_inner _ _ lo _ _ _ cs).
      * apply Hag; [|lia|done]. pose proof (chain_reprI_le _ _ _ _ _ Hc). lia.
      * by apply Forall_forall.
      * apply Hcl.
        -- intros b d Hb Hn. apply Hag; lia.
        -- apply Hcl'; [|done]. intros b d Hb Hn. apply Hag; lia.
Qed.

Lemma repr_agree (h h' : heap) t a :
  (forall b d, h !! b = Some d -> h' !! b = Some d) ->
  repr h t a -> repr h' t a.
Proof.
  intros Hag. apply (reprR_frame _ (fun _ => True)); [done| |done].
  intros b d _. apply Hag.
Qed.

(** The value of a kid that [carryPosition] answers with. *)
Lemma carried_repr (h h' : heap) existing kt nc ncd kid :
  repr h kt nc -> h !! nc = Some ncd ->
  (forall b d, h !! b = Some d -> h' !! b = Some d) ->
  h' !! kid = Some (carried existing ncd) ->
  repr h' (carriedTree existing kt) kid.
Proof.
  intros Hr Hnc Hag Hkid.
  unfold carried in Hkid. unfold carriedTree.
  inversion Hr as [? i n s p Ha|? i n ts cs s p Ha HF H2]; subst;
    rewrite Hnc in Ha; injection Ha as ->; simpl in *;
    destruct (JsMap.lastWith String.eqb existing i) as [[q|]|].
  1-3: constructor; exact Hkid.
  all: apply (reprR_inner _ _ kid _ _ _ cs);
    [exact Hkid|by apply Forall_forall|];
    eapply Forall2_impl; [exact H2|]; intros t c Htc; by eapply repr_agree.
Qed.

Lemma updateFirst_id {A} (pred : A -> bool) (f : A -> A) l :
  (forall a, List.find pred l = Some a -> f a = a) ->
  updateFirst pred f l = l.
Proof.
  induction l as [|a l IH]; simpl; [done|]. intros H.
  destruct (pred a); [by rewrite H|]. by rewrite IH.
Qed.

(** A path that leads nowhere leaves the tree as it is. *)
Lemma replaceAt_unresolved path f :
  forall t, resolve t path = None -> replaceAt path f t = t.
Proof.
  induction path as [|n rest IH]; intros t Hres; [discriminate|].
  destruct t as [i nm [ts|] s p]; [|done]. simpl in *. f_equal. f_equal.
  apply updateFirst_id. intros a Ha. rewrite Ha in Hres. by apply IH.
Qed.

(** What [updateNodeByPath] returns, as a tree value: the input with the
    children of the node on the path replaced by the new children, each
    with the position carried over to it; the objects of the store before
    the call are as they were. *)
Lemma update_value fuel (h : heap) root t path newChildren kts :
  repr h t root -> height t < fuel ->
  Forall2 (repr h) kts newChildren ->
  exists r h',
    updateNodeByPath fuel root path newChildren h = Some (r, h') /\
    repr h' (replaceAt path (mergeChildren kts) t) r /\
    (forall b d, h !! b = Some d -> h' !! b = Some d).
Proof.
  intros Hr Hf Hk.
  assert (Hlive : Forall (fun nc => is_Some (h !! nc)) newChildren).
  { clear -Hk. induction Hk as [|kt nc kts ncs Hkt _ IH]; constructor; [|done].
    destruct (reprR_lookup _ _ _ _ Hkt) as (d & Hd & _). by exists d. }
  destruct (update_spec fuel h root t path newChildren Hr Hf Hlive)
    as (ext & Ec & Hup0 & _ & Hup).
  destruct (resolve t path) as [t'|] eqn:Hres.
  2:{ exists (List.length h), (h ++ ext). split; [exact Hup|]. split.
      - rewrite replaceAt_unresolved by done.
        eapply reprR_weaken; [|exact Hup0]. done.
      - intros b d Hb. by apply lookup_app_l_Some. }
  destruct Hup as (c & d & kids & ext2 & Ew & Hlc & Hd & _ & Eu & Hkids & _).
  destruct (clone_layout t fuel h root Hr Hf) as (ext' & Ec' & HI).
  rewrite Ec in Ec'. injection Ec' as Hext. apply app_inv_head in Hext.
  subst ext'.
  destruct (update_at (h ++ ext) path t _ _ t' HI Hres)
    as (c' & hc & Ew' & _ & Hhc & Hrc & Hcl).
  rewrite Ew in Ew'. injection Ew' as <-.
  pose proof (reprI_lt _ _ _ _ Hrc) as Hclt.
  set (H' := <[c := setChildren d (Some kids)]> ((h ++ ext) ++ ext2)).
  assert (Hold : forall b d0, h !! b = Some d0 -> H' !! b = Some d0).
  { intros b d0 Hb. unfold H'.
    pose proof (lookup_lt_Some _ _ _ Hb).
    rewrite list_lookup_insert_ne by lia.
    rewrite <- app_assoc. by apply lookup_app_l_Some. }
  exists (List.length h), H'. split; [exact Eu|]. split; [|exact Hold].
  apply Hcl.
  - intros b d0 Hb Hn Hb'. unfold H'.
    rewrite list_lookup_insert_ne by done. by apply lookup_app_l_Some.
  - destruct (reprI_lookup _ _ _ _ Hrc) as (d' & Hd' & Hid & Hnm & Hso & Hpo).
    rewrite Hd in Hd'. injection Hd' as <-.
    unfold mergeChildren, withChildren.
    apply (reprR_inner _ _ c _ _ _ kids).
    + unfold H'. rewrite list_lookup_insert_eq.
      * unfold setChildren. by rewrite Hid, Hnm, Hso, Hpo.
      * rewrite length_app. lia.
    + by apply Forall_forall.
    + assert (Hkids' : Forall2 (fun kid nc => exists ncd,
                  h !! nc = Some ncd /\
                  H' !! kid = Some (carried (treeIdPositions t') ncd))
                kids newChildren).
      { eapply Forall2_impl; [exact Hkids|]. simpl.
        intros kid nc (ncd & Hnc & Hkd & Hwhere). exists ncd. split; [done|].
        unfold H'. pose proof (lookup_lt_Some _ _ _ Hnc).
        rewrite list_lookup_insert_ne; [done|].
        destruct Hwhere as [->|Hge]; lia. }
      clearbody H'. clear -Hkids' Hk Hold.
      revert kts Hk. induction Hkids' as [|kid nc kids ncs Hkid _ IH];
        intros kts Hk; inversion Hk as [|kt ? kts' ? Hkt Hk']; subst;
        simpl; constructor; [|by apply IH].
      destruct Hkid as (ncd & Hnc & Hkd).
      eapply carried_repr; [exact Hkt|exact Hnc|exact Hold|exact Hkd].
Qed.

(** *** Pure facts on tree values *)

Lemma updateFirst_ext {A} (pred : A -> bool) (f g : A -> A) l :
  (forall a, List.find pred l = Some a -> f a = g a) ->
  updateFirst pred f l = updateFirst pred g l.
Proof.
  induction l as [|a l IH]; simpl; [done|]. intros H.
  destruct (pred a); [by rewrite H|]. by rewrite IH.
Qed.

Lemma replaceAt_ext path f g :
  forall t t', resolve t path = Some t' -> f t' = g t' ->
  replaceAt path f t = replaceAt path g t.
Proof.
  induction path as [|n rest IH]; intros t t' Hres Hfg.
  - by injection Hres as ->.
  - destruct t as [i nm [ts|] s p]; [|done]. simpl in *. f_equal. f_equal.
    apply updateFirst_ext. intros a Ha. rewrite Ha in Hres. by eapply IH.
Qed.

Lemma t_name_replaceAt path f :
  (forall t, t_name (f t) = t_name t) ->
  forall t, t_name (replaceAt path f t) = t_name t.
Proof.
  intros Hf t. destruct path as [|n rest]; [apply Hf|].
  by destruct t as [i nm [ts|] s p].
Qed.

Lemma find_updateFirst {A} (pred : A -> bool) (f : A -> A) l :
  (forall a, pred (f a) = pred a) ->
  List.find pred (updateFirst pred f l) = option_map f (List.find pred l).
Proof.
  intros Hf. induction l as [|a l IH]; simpl; [done|].
  destruct (pred a) eqn:E; simpl.
  - by rewrite Hf, E.
  - by rewrite E.
Qed.

(** The path that was updated leads to the updated node. *)
Lemma resolve_replaceAt path f :
  (forall t, t_name (f t) = t_name t) ->
  forall t t', resolve t path = Some t' ->
  resolve (replaceAt path f t) path = Some (f t').
Proof.
  intros Hf. induction path as [|n rest IH]; intros t t' Hres.
  - by injection Hres as ->.
  - destruct t as [i nm [ts|] s p]; [|discriminate]. simpl in *.
    rewrite (find_updateFirst (fun c => String.eqb (t_name c) n)).
    + destruct (List.find (fun c => String.eqb (t_name c) n) ts) as [tj|];
        [|discriminate]. simpl. by apply IH.
    + intros a. by rewrite t_name_replaceAt.
Qed.

Lemma t_name_mergeChildren kts t : t_name (mergeChildren kts t) = t_name t.
Proof. done. Qed.

Lemma carriedTree_name existing kt : t_name (carriedTree existing kt) = t_name kt.
Proof.
  unfold carriedTree.
  by destruct (JsMap.lastWith String.eqb existing (t_id kt)) as [[?|]|].
Qed.

Lemma carriedTree_nil kt : carriedTree [] kt = kt.
Proof. done. Qed.

Lemma mergeChildren_unresolved kts t :
  t_children t = None -> mergeChildren kts t = withChildren kts t.
Proof.
  intros Hc. unfold mergeChildren, treeIdPositions. rewrite Hc. simpl.
  f_equal. induction kts as [|kt kts IH]; simpl; [done|]. by rewrite IH.
Qed.

(** *** [findNodeByPath] *)

Lemma bind_assoc {A B C} (m : M A) (f : A -> M B) (g : B -> M C) h :
  bind (bind m f) g h = bind m (fun a => bind (f a) g) h.
Proof. unfold bind. by destruct (m h) as [[a h']|]. Qed.

Lemma walk_app p q : forall a (h : heap),
  walk a (p ++ q) h
  = (r <- walk a p ;;
     match r with
     | Some c => walk c q
     | None => ret None
     end) h.
Proof.
  induction p as [|n p IH]; intros a h; [done|].
  simpl. unfold bind. destruct (read a h) as [[d h1]|]; [|done].
  destruct (match children d with
            | Some cs => find (fun child => String.eqb (name child) n) cs
            | None => ret None
            end h1) as [[[c|] h2]|]; [|done|done].
  rewrite IH. done.
Qed.


(** *** The steps the handlers share *)

Lemma resolve_find (h : heap) t root path t' :
  repr h t root -> resolve t path = Some t' ->
  exists c, findNodeByPath root path h = Some (Some c, h) /\ repr h t' c.
Proof.
  intros Hr Hres. rewrite findNodeByPath_walk.
  destruct (walk_spec _ h path t root Hr) as (res & Ew & Hm).
  rewrite Hres in Hm. destruct Hm as (c & -> & Hc). by exists c.
Qed.

Lemma resolve_none (h : heap) t root path :
  repr h t root -> resolve t path = None ->
  findNodeByPath root path h = Some (None, h).
Proof.
  intros Hr Hres. rewrite findNodeByPath_walk.
  destruct (walk_spec _ h path t root Hr) as (res & Ew & Hm).
  rewrite Hres in Hm. by subst.
Qed.

(** The object of a node and the objects of its children. *)
Lemma repr_children (h : heap) t c :
  repr h t c ->
  exists d es,
    h !! c = Some d /\ id d = t_id t /\ name d = t_name t /\
    source d = t_source t /\ position d = t_position t /\
    (children d = None <-> t_children t = None) /\
    Forall2 (repr h) (childrenOf t) (default [] (children d)) /\
    Forall2 (fun c e => h !! c = Some e) (default [] (children d)) es /\
    map name es = map t_name (childrenOf t).
Proof.
  intros Hr.
  assert (Hes : forall ts cs, Forall2 (repr h) ts cs ->
            exists es, Forall2 (fun c e => h !! c = Some e) cs es /\
                       map name es = map t_name ts).
  { intros ts cs H2. induction H2 as [|t0 c0 ts cs Ht _ (es & IH1 & IH2)].
    - by exists [].
    - destruct (reprR_lookup _ _ _ _ Ht) as (d0 & Hd0 & _ & Hn0 & _).
      exists (d0 :: es). split; [by constructor|]. simpl. by rewrite Hn0, IH2. }
  inversion Hr as [? i n s p Ha|? i n ts cs s p Ha _ H2]; subst.
  - exists (mkDomain i n None s p), []. simpl. repeat split; try done; constructor.
  - destruct (Hes ts cs H2) as (es & He1 & He2).
    exists (mkDomain i n (Some cs) s p), es. simpl. repeat split; done.
Qed.

Lemma find_by_name R (h : heap) (g : string -> bool) ts cs :
  Forall2 (reprR R h) ts cs ->
  exists res,
    find (fun child => g (name child)) cs h = Some (res, h) /\
    (res = None <-> List.find (fun t => g (t_name t)) ts = None).
Proof.
  induction 1 as [|t c ts cs Ht _ (res & IH1 & IH2)].
  - by exists None.
  - destruct (reprR_lookup _ _ _ _ Ht) as (d & Hd & _ & Hn & _).
    simpl. unfold bind, read. rewrite Hd, Hn.
    destruct (g (t_name t)).
    + exists (Some c). split; [done|]. split; discriminate.
    + exists res. done.
Qed.

Lemma leaves_repr (h : heap) names :
  Forall2 (repr (h ++ map newDomain names)) (map leaf names)
    (seq (List.length h) (List.length names)).
Proof.
  pose proof (lookups_alloc h (map newDomain names)) as H.
  rewrite length_map in H.
  apply Forall2_fmap_l. apply Forall2_fmap_r in H. apply Forall2_flip.
  eapply Forall2_impl; [exact H|]. simpl. intros c n Hc.
  by constructor.
Qed.

Lemma mapM_allocDomain (names : list string) (h : heap) :
  mapM allocDomain names h
  = Some (seq (List.length h) (List.length names), h ++ map newDomain names).
Proof. apply mapM_alloc. Qed.

(** What [handleLoadMore] hands to [setDomainTree], as a tree value. *)
Lemma handleLoadMore_value toLowerCase fuel (h : heap) domainTree t path
    newNames t' :
  repr h t domainTree -> height t < fuel -> newNames <> [] ->
  resolve t path = Some t' ->
  exists r h',
    handleLoadMore toLowerCase fuel domainTree path newNames h
      = Some (Some r, h') /\
    repr h' (replaceAt path (loadedMore toLowerCase newNames) t) r /\
    (forall b d, h !! b = Some d -> h' !! b = Some d).
Proof.
  intros Hr Hf Hne Hres.
  destruct (resolve_find h t domainTree path t' Hr Hres) as (parent & Efind & Hp).
  destruct (repr_children h t' parent Hp)
    as (pd & es & Hpd & _ & _ & _ & _ & _ & Hkids & Hes & Hnames).
  set (U := freshNames toLowerCase (map t_name (childrenOf t')) newNames).
  set (h1 := h ++ map newDomain U).
  destruct (update_value fuel h1 domainTree t path
              (default [] (children pd) ++ seq (List.length h) (List.length U))
              (childrenOf t' ++ map leaf U))
    as (r & h' & Eu & Hrepr & Hold).
  { by apply repr_app. }
  { done. }
  { apply Forall2_app; [|apply leaves_repr].
    eapply Forall2_impl; [exact Hkids|]. intros kt c Hc. by apply repr_app. }
  exists r, h'. split; [|split].
  - unfold handleLoadMore.
    destruct newNames as [|n0 names]; [done|].
    change (0 <? List.length (n0 :: names))%nat with true. cbv iota.
    erewrite bind_step; [|exact Efind]. cbv beta iota.
    erewrite bind_step; [|unfold read; by rewrite Hpd].
    erewrite bind_step; [|by apply mapM_read].
    rewrite <- (map_map name toLowerCase), Hnames.
    erewrite bind_step; [|apply mapM_alloc].
    erewrite bind_step; [|exact Eu]. done.
  - erewrite replaceAt_ext; [exact Hrepr|exact Hres|done].
  - intros b d Hb. apply Hold. by apply lookup_app_l_Some.
Qed.

(** *** Heights *)

Lemma height_le i n ts s p k :
  height (TNode i n (Some ts) s p) <= S k <-> Forall (fun t => height t <= k) ts.
Proof.
  simpl. rewrite <- Nat.succ_le_mono.
  induction ts as [|t ts IH].
  - split; [constructor|lia].
  - rewrite Forall_cons. rewrite <- IH. lia.
Qed.

Lemma height_inner i n ts s p :
  exists k, height (TNode i n (Some ts) s p) = S k.
Proof. simpl. eauto. Qed.

Lemma height_same_children a b :
  t_children a = t_children b -> height a = height b.
Proof.
  destruct a as [? ? ca ? ?], b as [? ? cb ? ?]. simpl. intros ->. done.
Qed.

Lemma height_carriedTree existing kt :
  height (carriedTree existing kt) = height kt.
Proof.
  apply height_same_children. unfold carriedTree.
  by destruct (JsMap.lastWith String.eqb existing (t_id kt)) as [[?|]|].
Qed.

Lemma children_height t :
  Forall (fun c => S (height c) <= height t) (childrenOf t).
Proof.
  destruct t as [i n [ts|] s p]; [|constructor]. unfold childrenOf. simpl t_children.
  simpl default. destruct (height_inner i n ts s p) as (k & Hk).
  pose proof (proj1 (height_le i n ts s p k)) as H. rewrite Hk in *.
  eapply Forall_impl; [apply H; lia|]. simpl. intros. lia.
Qed.

(** Children that are children of [t'] already, and leaves, make [t'] at
    most one higher. *)
Lemma height_mergeChildren names t' :
  height (mergeChildren (childrenOf t' ++ map leaf names) t') <= S (height t').
Proof.
  unfold mergeChildren, withChildren. apply height_le.
  apply Forall_forall. intros c Hc. apply list_elem_of_In in Hc.
  apply in_map_iff in Hc as (kt & <- & Hkt).
  rewrite height_carriedTree. apply in_app_or in Hkt as [Hkt|Hkt].
  - pose proof (children_height t') as H. rewrite Forall_forall in H.
    apply list_elem_of_In in Hkt. specialize (H _ Hkt). simpl in H. lia.
  - apply in_map_iff in Hkt as (n & <- & _). simpl. lia.
Qed.

Lemma height_updateFirst {A} (hgt : A -> nat) (pred : A -> bool) (f : A -> A) l k :
  (forall a, hgt (f a) <= S (hgt a)) ->
  Forall (fun a => hgt a <= k) l ->
  Forall (fun a => hgt a <= S k) (updateFirst pred f l).
Proof.
  intros Hf. induction 1 as [|a l Ha Hl IH]; simpl; [constructor|].
  destruct (pred a).
  - constructor; [specialize (Hf a); lia|].
    eapply Forall_impl; [exact Hl|]. simpl. intros. lia.
  - constructor; [lia|done].
Qed.

Lemma height_replaceAt path f :
  (forall t', height (f t') <= S (height t')) ->
  forall t, height (replaceAt path f t) <= S (height t).
Proof.
  intros Hf. induction path as [|n rest IH]; intros t; [apply Hf|].
  destruct t as [i nm [ts|] s p]; [|simpl; lia].
  destruct (height_inner i nm ts s p) as (k & Hk).
  change (replaceAt (n :: rest) f (TNode i nm (Some ts) s p))
    with (TNode i nm
            (Some (updateFirst (fun c => String.eqb (t_name c) n)
                     (replaceAt rest f) ts)) s p).
  rewrite Hk. apply height_le. apply height_updateFirst; [exact IH|].
  apply (proj1 (height_le i nm ts s p k)). lia.
Qed.

(** *** Names after a merge *)

Lemma names_mergeChildren kts t' :
  map t_name (childrenOf (mergeChildren kts t')) = map t_name kts.
Proof.
  unfold mergeChildren, withChildren, childrenOf. simpl.
  rewrite map_map. apply map_ext. intros kt. apply carriedTree_name.
Qed.

Lemma names_leaves names : map t_name (map leaf names) = names.
Proof. rewrite map_map. simpl. apply map_id. Qed.

Lemma names_loadedMore toLowerCase newNames t' :
  map t_name (childrenOf (loadedMore toLowerCase newNames t'))
  = map t_name (childrenOf t')
    ++ freshNames toLowerCase (map t_name (childrenOf t')) newNames.
Proof.
  unfold loadedMore. by rewrite names_mergeChildren, map_app, names_leaves.
Qed.

(** The candidates that were merged are no longer fresh. *)
Lemma freshNames_again toLowerCase existing newNames :
  freshNames toLowerCase
    (existing ++ freshNames toLowerCase existing newNames) newNames = [].
Proof.
  unfold freshNames at 1.
  set (U := freshNames toLowerCase existing newNames).
  assert (H : forall n, In n newNames ->
            existsb (String.eqb (toLowerCase n))
              (map toLowerCase (existing ++ U)) = true).
  { intros n Hn. rewrite map_app, existsb_app.
    destruct (existsb (String.eqb (toLowerCase n)) (map toLowerCase existing))
      eqn:E; [done|]. simpl.
    apply existsb_exists. exists (toLowerCase n). split; [|apply String.eqb_refl].
    apply in_map. unfold U, freshNames. apply filter_In. split; [done|].
    by rewrite E. }
  clearbody U. induction newNames as [|n names IH]; [done|]. simpl.
  rewrite (H n) by (by left). simpl. apply IH. intros n' Hn'. apply H. by right.
Qed.

(** *** What the handlers of the view make of the tree *)

(** [cloneDomainTree] is a deep copy.  On every tree that the store holds,
    with more fuel than the tree is high, it returns a new object; the
    store is only extended, so every object of before is as it was; the
    clone holds the value of the original, and every object of the clone is
    a new one. *)
Theorem cloneDomainTree_deep_copy fuel (h : heap) t a :
  repr h t a -> height t < fuel ->
  exists r ext,
    cloneDomainTree fuel a h = Some (r, h ++ ext) /\
    r = List.length h /\
    repr (h ++ ext) t r /\
    repr (h ++ ext) t a /\
    forall b, reach (h ++ ext) r b -> List.length h <= b.
Proof.
  intros Hr Hf.
  destruct (clone_spec t fuel h a Hr Hf) as (ext & E & Hup & Hfresh).
  exists (List.length h), ext. split; [exact E|]. split; [done|]. split; [|split].
  - eapply reprR_weaken; [|exact Hup]. done.
  - by apply repr_app.
  - intros b Hb.
    apply (reach_closed (h ++ ext) (fun b => List.length h <= b)) in Hb; [done| |done].
    intros a0 d cs c Ha0 Hd Hcs Hc.
    rewrite lookup_app_r in Hd by done.
    unfold regionFresh in Hfresh. rewrite Forall_forall in Hfresh.
    apply list_elem_of_lookup_2 in Hd.
    specialize (Hfresh d Hd cs Hcs). rewrite Forall_forall in Hfresh.
    apply Hfresh. by apply list_elem_of_In.
Qed.

Lemma cloneDomainTree_deep_copy_witness :
  exists r ext,
    cloneDomainTree 2 0 sampleStore = Some (r, sampleStore ++ ext) /\
    r = List.length sampleStore /\
    repr (sampleStore ++ ext) sampleTree r /\
    repr (sampleStore ++ ext) sampleTree 0 /\
    forall b, reach (sampleStore ++ ext) r b -> List.length sampleStore <= b.
Proof.
  apply (cloneDomainTree_deep_copy 2 sampleStore sampleTree 0).
  - exact sampleStore_repr.
  - exact sampleTree_height.
Defined.

(** [findNodeByPath] only reads the store, and it follows the names of the
    path through the first child of each name: it answers [null] exactly
    when the tree has no such path, and otherwise with the object that
    holds the subtree the path leads to. *)
Theorem findNodeByPath_resolves (h : heap) t root path :
  repr h t root ->
  exists res,
    findNodeByPath root path h = Some (res, h) /\
    match resolve t path with
    | None => res = None
    | Some t' => exists c, res = Some c /\ repr h t' c
    end.
Proof.
  intros Hr. rewrite findNodeByPath_walk. by apply walk_spec.
Qed.

Lemma findNodeByPath_resolves_witness :
  exists res,
    findNodeByPath 0 ["B"] sampleStore = Some (res, sampleStore) /\
    match resolve sampleTree ["B"] with
    | None => res = None
    | Some t' => exists c, res = Some c /\ repr sampleStore t' c
    end.
Proof.
  apply (findNodeByPath_resolves sampleStore sampleTree 0 ["B"]).
  exact sampleStore_repr.
Defined.

(** A path in two parts is walked in two parts: [findNodeByPath] on
    [p ++ q] is [findNodeByPath] on [p] followed, from the node found, by
    [findNodeByPath] on [q].  So the node of the path after
    [handleSelectDomain] is looked up among the children of the current
    node, and a path that leads to a node has only prefixes that do. *)
Theorem findNodeByPath_app root p q (h : heap) :
  findNodeByPath root (p ++ q) h
  = (r <- findNodeByPath root p ;;
     match r with
     | Some c => findNodeByPath c q
     | None => ret None
     end) h /\
  (forall c h', findNodeByPath root (p ++ q) h = Some (Some c, h') ->
     exists m h1, findNodeByPath root p h = Some (Some m, h1)).
Proof.
  assert (E : findNodeByPath root (p ++ q) h
              = (r <- findNodeByPath root p ;;
                 match r with
                 | Some c => findNodeByPath c q
                 | None => ret None
                 end) h).
  { rewrite !findNodeByPath_walk, walk_app. unfold bind.
    destruct (walk root p h) as [[[c|] h1]|]; [|done|done].
    by rewrite findNodeByPath_walk. }
  split; [exact E|]. intros c h' Hc. rewrite E in Hc. unfold bind in Hc.
  destruct (findNodeByPath root p h) as [[[m|] h1]|]; [eauto|discriminate..].
Qed.

(** What [updateNodeByPath] returns is the input tree with the children of
    the node that the path leads to replaced by the new children, each with
    the position carried over to it, and with every other node as it was
    (the input tree itself when the path leads nowhere); the objects of the
    store before the call are unchanged. *)
Theorem updateNodeByPath_value fuel (h : heap) root t path newChildren kts :
  repr h t root -> height t < fuel ->
  Forall2 (repr h) kts newChildren ->
  exists r h',
    updateNodeByPath fuel root path newChildren h = Some (r, h') /\
    repr h' (replaceAt path (mergeChildren kts) t) r /\
    (forall b d, h !! b = Some d -> h' !! b = Some d).
Proof. apply update_value. Qed.

Lemma updateNodeByPath_value_witness :
  exists r h',
    updateNodeByPath 2 0 [] [3; 4; 5] sampleStore = Some (r, h') /\
    repr h' (replaceAt [] (mergeChildren [leaf "A"; leaf "B"; leaf "C"])
               sampleTree) r /\
    (forall b d, sampleStore !! b = Some d -> h' !! b = Some d).
Proof.
  apply (updateNodeByPath_value 2 sampleStore 0 sampleTree [] [3; 4; 5]
           [leaf "A"; leaf "B"; leaf "C"]).
  - exact sampleStore_repr.
  - exact sampleTree_height.
  - repeat constructor.
Defined.

(** The children that [updateNodeByPath] gives to the root of the sample
    tree: A with the cached position of the old A, then B and C. *)
Example replaceAt_sample :
  replaceAt [] (mergeChildren [leaf "A"; leaf "B"; leaf "C"]) sampleTree
  = TNode "root" "SparkSphere"
      (Some [ TNode "A" "A" None (Some "ai") (Some (mkPosition 10 10));
              leaf "B"; leaf "C" ])
      None None.
Proof. reflexivity. Qed.

Lemma t_name_withChildren kts t : t_name (withChildren kts t) = t_name t.
Proof. done. Qed.

(** Where the children of the current node are not there yet ([null]),
    [fetchChildrenIfNeeded] hands to [setDomainTree] the tree in which that
    node has one unresolved leaf per generated name, in the order of the
    names and with repeated names kept, and every other node is as it was;
    on the tree it has set, the effect sets nothing again.  Where the
    children are there, or the path leads nowhere, it sets no tree and
    leaves the store as it is. *)
Theorem fetchChildrenIfNeeded_materialises fuel (h : heap) domainTree t path
    aiNames :
  repr h t domainTree -> height t < fuel ->
  match resolve t path with
  | Some t' =>
      match t_children t' with
      | None =>
          exists r h',
            fetchChildrenIfNeeded fuel domainTree path aiNames h
              = Some (Some r, h') /\
            repr h' (replaceAt path (withChildren (map leaf aiNames)) t) r /\
            forall fuel' names',
              fetchChildrenIfNeeded fuel' r path names' h' = Some (None, h')
      | Some _ =>
          fetchChildrenIfNeeded fuel domainTree path aiNames h = Some (None, h)
      end
  | None =>
      fetchChildrenIfNeeded fuel domainTree path aiNames h = Some (None, h)
  end.
Proof.
  intros Hr Hf. destruct (resolve t path) as [t'|] eqn:Hres.
  2:{ unfold fetchChildrenIfNeeded.
      erewrite bind_step; [|by eapply resolve_none]. done. }
  destruct (resolve_find h t domainTree path t' Hr Hres) as (c & Efind & Hc).
  destruct (repr_children h t' c Hc) as (d & es & Hd & _ & _ & _ & _ & Hnull & _).
  destruct (t_children t') as [ts|] eqn:Hch.
  { unfold fetchChildrenIfNeeded.
    erewrite bind_step; [|exact Efind]. cbv beta iota.
    erewrite bind_step; [|unfold read; by rewrite Hd].
    destruct (children d); [done|]. by destruct Hnull as [Hnull _]; specialize (Hnull eq_refl). }
  destruct Hnull as [_ Hnull]. specialize (Hnull eq_refl).
  destruct (update_value fuel (h ++ map newDomain aiNames) domainTree t path
              (seq (List.length h) (List.length aiNames)) (map leaf aiNames))
    as (r & h' & Eu & Hrepr & _);
    [by apply repr_app|done|apply leaves_repr|].
  erewrite (replaceAt_ext _ _ (withChildren (map leaf aiNames))) in Hrepr;
    [|exact Hres|by apply mergeChildren_unresolved].
  exists r, h'. split; [|split; [exact Hrepr|]].
  - unfold fetchChildrenIfNeeded.
    erewrite bind_step; [|exact Efind]. cbv beta iota.
    erewrite bind_step; [|unfold read; by rewrite Hd].
    rewrite Hnull.
    erewrite bind_step; [|apply mapM_allocDomain].
    erewrite bind_step; [|exact Eu]. done.
  - intros fuel' names'.
    pose proof (resolve_replaceAt path (withChildren (map leaf aiNames))
                  (t_name_withChildren _) t t' Hres) as Hres'.
    destruct (resolve_find h' _ r path _ Hrepr Hres') as (c' & Efind' & Hc').
    destruct (repr_children h' _ c' Hc')
      as (d' & es' & Hd' & _ & _ & _ & _ & Hnull' & _).
    unfold fetchChildrenIfNeeded.
    erewrite bind_step; [|exact Efind']. cbv beta iota.
    erewrite bind_step; [|unfold read; by rewrite Hd'].
    destruct (children d'); [done|]. by destruct Hnull' as [Hnull' _]; specialize (Hnull' eq_refl).
Qed.

Lemma fetchChildrenIfNeeded_materialises_witness :
  exists r h',
    fetchChildrenIfNeeded 2 0 ["B"] ["Jazz"; "Jazz"] sampleStore
      = Some (Some r, h') /\
    repr h' (replaceAt ["B"] (withChildren (map leaf ["Jazz"; "Jazz"]))
               sampleTree) r /\
    forall fuel' names',
      fetchChildrenIfNeeded fuel' r ["B"] names' h' = Some (None, h').
Proof.
  apply (fetchChildrenIfNeeded_materialises 2 sampleStore 0 sampleTree ["B"]
           ["Jazz"; "Jazz"]).
  - exact sampleStore_repr.
  - exact sampleTree_height.
Defined.

Lemma find_existsb {A} (pred : A -> bool) l :
  List.find pred l = None <-> existsb pred l = false.
Proof.
  induction l as [|a l IH]; simpl; [done|].
  destruct (pred a); [split; discriminate|done].
Qed.

Lemma height_withTerm term t' : height (withTerm term t') <= S (height t').
Proof. apply (height_mergeChildren [term]). Qed.

Lemma names_withTerm term t' :
  map t_name (childrenOf (withTerm term t')) = map t_name (childrenOf t') ++ [term].
Proof. unfold withTerm. by rewrite names_mergeChildren, map_app. Qed.

(** The steps of [handleContextSearchSubmit] up to the test for a child of
    that name. *)
Lemma contextSearch_steps trim toUpperCase toLowerCase fuel (h : heap) tree t
    path q t' :
  repr h t tree -> isEmpty (trim q) = false -> resolve t path = Some t' ->
  let term := capitalize trim toUpperCase q in
  let h1 := h ++ [newDomain term] in
  exists node d,
    repr h1 t' node /\ h1 !! node = Some d /\
    Forall2 (repr h1) (childrenOf t') (default [] (children d)) /\
    handleContextSearchSubmit trim toUpperCase toLowerCase fuel (Some tree)
      path q h
    = (if existsb (fun c => String.eqb (toLowerCase (t_name c)) (toLowerCase term))
            (childrenOf t')
       then Some (Submitted None, h1)
       else (newTree <- updateNodeByPath fuel tree path
                          (default [] (children d) ++ [List.length h]) ;;
             ret (Submitted (Some newTree))) h1).
Proof.
  intros Hr Hq Hres term h1.
  destruct (resolve_find h t tree path t' Hr Hres) as (node & Efind & Hn).
  assert (Hn1 : repr h1 t' node) by (by apply repr_app).
  destruct (repr_children h1 t' node Hn1)
    as (d & es & Hd & _ & _ & _ & _ & _ & Hkids & _).
  exists node, d. split; [done|]. split; [done|]. split; [done|].
  destruct (find_by_name _ h1
              (fun n => String.eqb (toLowerCase n) (toLowerCase term))
              _ _ Hkids) as (res & Ef & Hres').
  unfold handleContextSearchSubmit. rewrite Hq.
  erewrite bind_step; [|exact Efind]. cbv beta iota.
  erewrite bind_step;
    [|exact (eq_refl : allocDomain term h = Some (List.length h, h1))].
  erewrite bind_step; [|unfold read; by rewrite Hd].
  erewrite bind_step; [|exact Ef].
  rewrite find_existsb in Hres'.
  destruct (existsb _ (childrenOf t')) eqn:E.
  - destruct res; [done|]. destruct Hres' as [Hres' _].
    by specialize (Hres' eq_refl).
  - destruct Hres' as [_ Hres']. by rewrite (Hres' eq_refl).
Qed.

(** [handleContextSearchSubmit] on a query that is not blank and a path
    that leads to a node: where a child of the node has the name of the
    capitalised query up to [toLowerCase], the handler sets no tree;
    otherwise it hands to [setDomainTree] the tree in which that node has
    its children followed by one unresolved leaf named by the capitalised
    query, every other node being as it was, and the objects of the store
    before the call unchanged.  Submitting the same query again on the tree
    that was set sets no tree: the query is added once. *)
Theorem handleContextSearchSubmit_adds_once trim toUpperCase toLowerCase fuel
    (h : heap) tree t path q t' :
  repr h t tree -> height t < fuel -> isEmpty (trim q) = false ->
  resolve t path = Some t' ->
  let term := capitalize trim toUpperCase q in
  if existsb (fun c => String.eqb (toLowerCase (t_name c)) (toLowerCase term))
       (childrenOf t')
  then
    handleContextSearchSubmit trim toUpperCase toLowerCase fuel (Some tree)
      path q h
    = Some (Submitted None, h ++ [newDomain term])
  else
    exists r h',
      handleContextSearchSubmit trim toUpperCase toLowerCase fuel (Some tree)
        path q h
      = Some (Submitted (Some r), h') /\
      repr h' (replaceAt path (withTerm term) t) r /\
      (forall b d, h !! b = Some d -> h' !! b = Some d) /\
      forall fuel',
        handleContextSearchSubmit trim toUpperCase toLowerCase fuel' (Some r)
          path q h'
        = Some (Submitted None, h' ++ [newDomain term]).
Proof.
  intros Hr Hf Hq Hres term.
  destruct (contextSearch_steps trim toUpperCase toLowerCase fuel h tree t
              path q t' Hr Hq Hres) as (node & d & Hn & Hd & Hkids & E).
  fold term in Hd, Hkids, E, Hn. rewrite E. clear E.
  destruct (existsb _ (childrenOf t')) eqn:Edup; [done|].
  destruct (update_value fuel (h ++ [newDomain term]) tree t path
              (default [] (children d) ++ [List.length h])
              (childrenOf t' ++ [leaf term]))
    as (r & h' & Eu & Hrepr & Hold).
  { by apply repr_app. }
  { done. }
  { apply Forall2_app; [done|]. constructor; [|constructor].
    constructor. apply lookup_alloc. }
  erewrite (replaceAt_ext _ _ (withTerm term)) in Hrepr; [|exact Hres|done].
  exists r, h'. split; [|split; [exact Hrepr|split]].
  - unfold bind. by rewrite Eu.
  - intros b d0 Hb. apply Hold. by apply lookup_app_l_Some.
  - intros fuel'.
    assert (Hres' : resolve (replaceAt path (withTerm term) t) path
                    = Some (withTerm term t'))
      by (by apply resolve_replaceAt).
    destruct (contextSearch_steps trim toUpperCase toLowerCase fuel' h' r _
                path q _ Hrepr Hq Hres') as (node' & d' & _ & _ & _ & E').
    fold term in E'. rewrite E'.
    replace (existsb _ (childrenOf (withTerm term t'))) with true; [done|].
    symmetry. apply existsb_exists.
    unfold withTerm, mergeChildren, withChildren, childrenOf. simpl.
    exists (carriedTree (treeIdPositions t') (leaf term)). split.
    + apply in_map. apply in_or_app. right. by left.
    + rewrite carriedTree_name. apply String.eqb_refl.
Qed.

Lemma handleContextSearchSubmit_adds_once_witness :
  exists r h',
    handleContextSearchSubmit trimAscii toUpperAscii toLowerAscii 2 (Some 0)
      [] " music " artStore
    = Some (Submitted (Some r), h') /\
    repr h' (replaceAt [] (withTerm "Music") artTree) r /\
    (forall b d, artStore !! b = Some d -> h' !! b = Some d) /\
    forall fuel',
      handleContextSearchSubmit trimAscii toUpperAscii toLowerAscii fuel'
        (Some r) [] " music " h'
      = Some (Submitted None, h' ++ [newDomain "Music"]).
Proof.
  apply (handleContextSearchSubmit_adds_once trimAscii toUpperAscii
           toLowerAscii 2 artStore 0 artTree [] " music " artTree).
  - exact artStore_repr.
  - apply Nat.lt_succ_diag_r.
  - reflexivity.
  - reflexivity.
Defined.

(** [handleLoadMore] twice with the same candidates: the second call adds
    no child.  After the first call the node on the path has the names of
    its children so far followed by the candidates that were fresh, and
    after the second call it has these very names. *)
Theorem handleLoadMore_twice toLowerCase fuel (h : heap) domainTree t path
    newNames t' :
  repr h t domainTree -> S (height t) < fuel -> newNames <> [] ->
  resolve t path = Some t' ->
  let t1 := replaceAt path (loadedMore toLowerCase newNames) t in
  let t2 := replaceAt path (loadedMore toLowerCase newNames) t1 in
  exists r1 h1 r2 h2 c1 c2,
    handleLoadMore toLowerCase fuel domainTree path newNames h
      = Some (Some r1, h1) /\
    handleLoadMore toLowerCase fuel r1 path newNames h1
      = Some (Some r2, h2) /\
    repr h1 t1 r1 /\ repr h2 t2 r2 /\
    resolve t1 path = Some c1 /\ resolve t2 path = Some c2 /\
    map t_name (childrenOf c1)
    = map t_name (childrenOf t')
      ++ freshNames toLowerCase (map t_name (childrenOf t')) newNames /\
    map t_name (childrenOf c2) = map t_name (childrenOf c1).
Proof.
  intros Hr Hf Hne Hres t1 t2.
  destruct (handleLoadMore_value toLowerCase fuel h domainTree t path newNames
              t' Hr ltac:(lia) Hne Hres) as (r1 & h1 & E1 & Hr1 & _).
  fold t1 in Hr1.
  set (c1 := loadedMore toLowerCase newNames t').
  assert (Hres1 : resolve t1 path = Some c1)
    by (by apply resolve_replaceAt).
  assert (Hh1 : height t1 < fuel).
  { pose proof (height_replaceAt path (loadedMore toLowerCase newNames)
                  (fun t0 => height_mergeChildren _ t0) t). fold t1 in H. lia. }
  destruct (handleLoadMore_value toLowerCase fuel h1 r1 t1 path newNames
              c1 Hr1 Hh1 Hne Hres1) as (r2 & h2 & E2 & Hr2 & _).
  exists r1, h1, r2, h2, c1, (loadedMore toLowerCase newNames c1).
  split; [exact E1|]. split; [exact E2|]. split; [exact Hr1|].
  split; [exact Hr2|]. split; [exact Hres1|].
  split; [by apply resolve_replaceAt|].
  split; [apply names_loadedMore|].
  rewrite (names_loadedMore toLowerCase newNames c1).
  replace (freshNames toLowerCase (map t_name (childrenOf c1)) newNames)
    with (@nil string); [by rewrite app_nil_r|].
  symmetry. unfold c1. rewrite names_loadedMore. apply freshNames_again.
Qed.

Lemma handleLoadMore_twice_witness :
  let t1 := replaceAt [] (loadedMore toLowerAscii ["art"; "Music"]) artTree in
  let t2 := replaceAt [] (loadedMore toLowerAscii ["art"; "Music"]) t1 in
  exists r1 h1 r2 h2 c1 c2,
    handleLoadMore toLowerAscii 3 0 [] ["art"; "Music"] artStore
      = Some (Some r1, h1) /\
    handleLoadMore toLowerAscii 3 r1 [] ["art"; "Music"] h1
      = Some (Some r2, h2) /\
    repr h1 t1 r1 /\ repr h2 t2 r2 /\
    resolve t1 [] = Some c1 /\ resolve t2 [] = Some c2 /\
    map t_name (childrenOf c1)
    = map t_name (childrenOf artTree)
      ++ freshNames toLowerAscii (map t_name (childrenOf artTree))
           ["art"; "Music"] /\
    map t_name (childrenOf c2) = map t_name (childrenOf c1).
Proof.
  apply (handleLoadMore_twice toLowerAscii 3 artStore 0 artTree []
           ["art"; "Music"] artTree).
  - exact artStore_repr.
  - apply Nat.lt_succ_diag_r.
  - discriminate.
  - reflexivity.
Defined.

End TreeStoreFacts.

(** ** The gesture controller *)

Module GestureFacts.
Import Gesture.
Local Open Scope R_scope.

Ltac break_if :=
  match goal with
  | |- context [if ?c then _ else _] => destruct c eqn:?
  end.

#[local] Arguments getDistance : simpl never.
#[local] Arguments Rmin : simpl never.
#[local] Arguments Rmax : simpl never.

Lemma clamp_range v : 0.6 <= Rmin (Rmax v 0.6) 2.5 <= 2.5.
Proof.
  unfold Rmin, Rmax.
  destruct (Rle_dec v 0.6); destruct (Rle_dec _ 2.5); lra.
Qed.

(** *** Zoom *)

Lemma zoom_onPointerDown s e now : zoomLevel (onPointerDown s e now) = zoomLevel s.
Proof. unfold onPointerDown. cbv zeta. repeat break_if; reflexivity. Qed.

Lemma zoom_onPointerUp s e now : zoomLevel (onPointerUp s e now) = zoomLevel s.
Proof. unfold onPointerUp. cbv zeta. repeat break_if; reflexivity. Qed.

Lemma zoom_onPointerMove s e :
  zoomLevel (onPointerMove s e) = zoomLevel s \/
  0.6 <= zoomLevel (onPointerMove s e) <= 2.5.
Proof.
  unfold onPointerMove. cbv zeta.
  repeat break_if; try (left; reflexivity).
  right. simpl. apply clamp_range.
Qed.

Lemma zoom_step s ev :
  0.6 <= zoomLevel s <= 2.5 -> 0.6 <= zoomLevel (step s ev) <= 2.5.
Proof.
  intros Hs. destruct ev as [e now|e|e now|n now| | | |path]; simpl.
  - by rewrite zoom_onPointerDown.
  - destruct (zoom_onPointerMove s e) as [->|H]; done.
  - by rewrite zoom_onPointerUp.
  - unfold handleDomainClickRequest. destruct (honored s now); simpl; lra.
  - unfold Rmin. destruct (Rle_dec _ _); lra.
  - unfold Rmax. destruct (Rle_dec _ _); lra.
  - done.
  - lra.
Qed.

Lemma zoom_run evs : forall s,
  0.6 <= zoomLevel s <= 2.5 -> 0.6 <= zoomLevel (run s evs) <= 2.5.
Proof.
  unfold run. induction evs as [|ev evs IH]; intros s Hs; simpl; [done|].
  apply IH. by apply zoom_step.
Qed.

Lemma getDistance_horizontal a b c :
  a <= b -> getDistance (mkPoint a c) (mkPoint b c) = b - a.
Proof.
  intros Hab. unfold getDistance. cbn [x y].
  replace ((b - a) ^ 2 + (c - c) ^ 2) with ((b - a) * (b - a)) by ring.
  apply sqrt_square. lra.
Qed.

Lemma pinchOut_zoom : zoomLevel (run (initialState []) pinchOut) = 2.5.
Proof.
  unfold run, pinchOut. simpl fold_left.
  unfold onPointerMove, onPointerDown, point, clientPoint. simpl.
  rewrite !getDistance_horizontal by lra.
  destruct (Req_dec_T (10 - 0) 0) as [E|_]; [lra|]. simpl.
  unfold Rmin, Rmax. destruct (Rle_dec _ 0.6); destruct (Rle_dec _ 2.5); lra.
Qed.

(** C10.  From a zoom level within [0.6, 2.5] (it is 1 when the view
    mounts), the zoom level stays within [0.6, 2.5] after every sequence of
    events of the controller; after the zoom-in button it is the minimum of
    the level before plus 0.2 and 2.0, so at most 2.0; after the zoom-out
    button it is at least 0.6; and a pinch takes it to 2.5. *)
Theorem zoom_within_bounds s evs :
  0.6 <= zoomLevel s <= 2.5 ->
  0.6 <= zoomLevel (run s evs) <= 2.5 /\
  zoomLevel (handleZoomIn (run s evs)) = Rmin (zoomLevel (run s evs) + 0.2) 2.0 /\
  zoomLevel (handleZoomIn (run s evs)) <= 2.0 /\
  0.6 <= zoomLevel (handleZoomOut (run s evs)) /\
  zoomLevel (run (initialState []) pinchOut) = 2.5.
Proof.
  intros Hs. split; [by apply zoom_run|]. split; [done|].
  split; [|split; [|apply pinchOut_zoom]]; simpl.
  - apply Rmin_r.
  - apply Rmax_r.
Qed.

Lemma zoom_within_bounds_witness :
  0.6 <= zoomLevel (run (initialState []) [ZoomIn; ZoomOut; ZoomOut]) <= 2.5 /\
  zoomLevel (handleZoomIn (run (initialState []) [ZoomIn; ZoomOut; ZoomOut]))
    = Rmin (zoomLevel (run (initialState []) [ZoomIn; ZoomOut; ZoomOut]) + 0.2) 2.0 /\
  zoomLevel (handleZoomIn (run (initialState []) [ZoomIn; ZoomOut; ZoomOut])) <= 2.0 /\
  0.6 <= zoomLevel (handleZoomOut (run (initialState []) [ZoomIn; ZoomOut; ZoomOut])) /\
  zoomLevel (run (initialState []) pinchOut) = 2.5.
Proof.
  apply (zoom_within_bounds (initialState []) [ZoomIn; ZoomOut; ZoomOut]).
  simpl. lra.
Defined.

(** *** One pointer: tap or drag *)

Lemma onPointerMove_untracked s e :
  JsMap.has Z.eqb (activePointers s) (pointerId e) = false ->
  onPointerMove s e = s.
Proof. intros H. unfold onPointerMove. by rewrite H. Qed.

Lemma down_first s e now :
  activePointers s = [] ->
  onPointerDown s e now
  = {| zoomLevel := zoomLevel s; isPinchEnabled := isPinchEnabled s;
       pan := pan s; currentPath := currentPath s; isDragging := false;
       lastPanPosition := clientPoint e; dragStartPos := clientPoint e;
       startDragTime := now; lastPointerType := pointerType e;
       activePointers := [(pointerId e, clientPoint e)];
       initialPinchDistance := initialPinchDistance s;
       initialZoomLevel := initialZoomLevel s |}.
Proof. intros H. unfold onPointerDown. simpl. rewrite H. reflexivity. Qed.

Lemma move_single s id pointerType' p q :
  activePointers s = [(id, q)] ->
  let s' := onPointerMove s (mkEvent id (x p) (y p) pointerType') in
  activePointers s' = [(id, p)] /\
  dragStartPos s' = dragStartPos s /\
  startDragTime s' = startDragTime s /\
  lastPointerType s' = lastPointerType s /\
  currentPath s' = currentPath s /\
  zoomLevel s' = zoomLevel s /\
  isDragging s' = isDragging s || commits pointerType' (dragStartPos s) p.
Proof.
  intros H. unfold onPointerMove, commits, JsMap.has, clientPoint.
  rewrite H. simpl. rewrite Z.eqb_refl. simpl.
  destruct p as [px py]. simpl.
  destruct (isDragging s) eqn:Hd; simpl.
  - repeat split; reflexivity || (simpl; by rewrite ?Hd).
  - destruct (isMouse pointerType'); simpl; [repeat split; done|].
    destruct (Rgt_dec _ 10); simpl; repeat split; done.
Qed.

Lemma moves_single id pointerType' ps :
  forall s q,
    activePointers s = [(id, q)] ->
    let s' := moves s id pointerType' ps in
    (exists q', activePointers s' = [(id, q')]) /\
    dragStartPos s' = dragStartPos s /\
    startDragTime s' = startDragTime s /\
    lastPointerType s' = lastPointerType s /\
    currentPath s' = currentPath s /\
    zoomLevel s' = zoomLevel s /\
    isDragging s' = isDragging s || existsb (commits pointerType' (dragStartPos s)) ps.
Proof.
  unfold moves. induction ps as [|p ps IH]; intros s q H; simpl.
  - repeat split; eauto. by rewrite orb_false_r.
  - destruct (move_single s id pointerType' p q H)
      as (Ha & Hs & Ht & Hl & Hp & Hz & Hd).
    destruct (IH _ _ Ha) as (Ha' & Hs' & Ht' & Hl' & Hp' & Hz' & Hd').
    repeat split; [done|congruence..|].
    rewrite Hd', Hd, Hs. by rewrite orb_assoc.
Qed.

Lemma up_last s e q now :
  activePointers s = [(pointerId e, q)] ->
  let s' := onPointerUp s e now in
  activePointers s' = [] /\
  startDragTime s' = startDragTime s /\
  lastPointerType s' = lastPointerType s /\
  currentPath s' = currentPath s /\
  isDragging s'
  = if isMouse (pointerType e)
       && (if Rlt_dec (getDistance (dragStartPos s) (clientPoint e)) 5
           then true else false)
    then false else isDragging s.
Proof.
  intros H. unfold onPointerUp. rewrite H. simpl. rewrite Z.eqb_refl. simpl.
  destruct (isMouse (pointerType e)); simpl; [|done].
  by destruct (Rlt_dec _ 5).
Qed.

Lemma click_honored s n now :
  honored s now = true ->
  currentPath (handleDomainClickRequest s n now) = currentPath s ++ [n].
Proof. intros H. unfold handleDomainClickRequest. by rewrite H. Qed.

Lemma click_suppressed s n now :
  honored s now = false -> handleDomainClickRequest s n now = s.
Proof. intros H. unfold handleDomainClickRequest. by rewrite H. Qed.

Lemma existsb_commits_mouse p0 ps :
  ps <> [] -> existsb (commits "mouse" p0) ps = true.
Proof. destruct ps; [done|]. intros _. reflexivity. Qed.

Lemma existsb_commits_touch pointerType' p0 ps :
  isMouse pointerType' = false ->
  (Forall (fun p => getDistance p0 p <= 10) ps ->
   existsb (commits pointerType' p0) ps = false) /\
  (Exists (fun p => getDistance p0 p > 10) ps ->
   existsb (commits pointerType' p0) ps = true).
Proof.
  intros Hm. unfold commits. rewrite Hm. split.
  - induction 1 as [|p ps Hp _ IH]; simpl; [done|].
    rewrite IH. destruct (Rgt_dec _ 10); [lra|done].
  - induction 1 as [p ps Hp|p ps _ IH]; simpl.
    + by destruct (Rgt_dec _ 10).
    + rewrite IH. apply orb_true_r.
Qed.

Lemma isMouse_false pointerType' :
  pointerType' <> "mouse"%string -> isMouse pointerType' = false.
Proof. intros H. unfold isMouse. by apply String.eqb_neq. Qed.

(** C6.  One pointer goes down at [p0] at time [t0] while no pointer is
    active, moves through the points [ps], goes up at [pup], and a
    selection is requested at time [tclick].  For a mouse: when [pup] is
    less than 5 away from [p0] the drag flag is reset and the selection is
    honored (the name is appended to the path); when there was a move and
    [pup] is 5 or more away, the drag flag stays set and the request is
    dropped.  For any other device: the selection is honored when every
    move stayed within 10 of [p0] and at most 150 ms passed from the down
    to the request, and the request is dropped when a move went further
    than 10 or more than 150 ms passed. *)
Theorem tap_or_drag s id pointerType' p0 t0 ps pup tup n tclick :
  activePointers s = [] ->
  let ev p := mkEvent id (x p) (y p) pointerType' in
  let s1 := onPointerDown s (ev p0) t0 in
  let s2 := moves s1 id pointerType' ps in
  let s3 := onPointerUp s2 (ev pup) tup in
  let s4 := handleDomainClickRequest s3 n tclick in
  (pointerType' = "mouse"%string -> getDistance p0 pup < 5 ->
   isDragging s3 = false /\ currentPath s4 = currentPath s ++ [n]) /\
  (pointerType' = "mouse"%string -> ps <> [] -> 5 <= getDistance p0 pup ->
   isDragging s3 = true /\ s4 = s3) /\
  (pointerType' <> "mouse"%string ->
   (Forall (fun p => getDistance p0 p <= 10) ps -> (tclick - t0 <= 150)%Z ->
    isDragging s3 = false /\ currentPath s4 = currentPath s ++ [n]) /\
   (Exists (fun p => getDistance p0 p > 10) ps \/ (150 < tclick - t0)%Z ->
    s4 = s3)).
Proof.
  intros Hs ev s1 s2 s3 s4.
  assert (H1 : s1 = _) by apply (down_first s (ev p0) t0 Hs).
  assert (Hp0 : clientPoint (ev p0) = p0) by (by destruct p0).
  assert (Hpup : clientPoint (ev pup) = pup) by (by destruct pup).
  destruct (moves_single id pointerType' ps s1 p0)
    as ((q' & Ha2) & Hs2 & Ht2 & Hl2 & Hp2 & _ & Hd2).
  { rewrite H1. simpl. by rewrite Hp0. }
  fold s2 in Ha2, Hs2, Ht2, Hl2, Hp2, Hd2.
  destruct (up_last s2 (ev pup) q' tup Ha2) as (_ & Ht3 & Hl3 & Hp3 & Hd3).
  fold s3 in Ht3, Hl3, Hp3, Hd3.
  assert (Hstart : dragStartPos s2 = p0) by (rewrite Hs2, H1; simpl; done).
  assert (Htime : startDragTime s3 = t0) by (rewrite Ht3, Ht2, H1; done).
  assert (Htype : lastPointerType s3 = pointerType') by (rewrite Hl3, Hl2, H1; done).
  assert (Hpath : currentPath s3 = currentPath s) by (rewrite Hp3, Hp2, H1; done).
  assert (Hdrag2 : isDragging s2 = existsb (commits pointerType' p0) ps).
  { rewrite Hd2, H1. simpl. by rewrite Hp0. }
  rewrite Hstart, Hpup, Hdrag2 in Hd3. simpl in Hd3.
  split; [|split].
  - intros -> Hlt. assert (Hd : isDragging s3 = false).
    { rewrite Hd3. simpl. by destruct (Rlt_dec _ 5). }
    split; [done|]. unfold s4. rewrite click_honored; [by rewrite Hpath|].
    unfold honored. by rewrite Hd, Htype.
  - intros -> Hne Hge. assert (Hd : isDragging s3 = true).
    { rewrite Hd3. simpl. destruct (Rlt_dec _ 5); [lra|].
      by apply existsb_commits_mouse. }
    split; [done|]. unfold s4. apply click_suppressed.
    unfold honored. by rewrite Hd.
  - intros Hnm. pose proof (isMouse_false _ Hnm) as Hm.
    destruct (existsb_commits_touch pointerType' p0 ps Hm) as [Hall Hex].
    rewrite Hm in Hd3. simpl in Hd3. split.
    + intros HF Ht. assert (Hd : isDragging s3 = false)
        by (by rewrite Hd3, Hall).
      split; [done|]. unfold s4. rewrite click_honored; [by rewrite Hpath|].
      unfold honored. rewrite Hd, Htype, Hm, Htime. simpl.
      destruct (Z.ltb_spec 150 (tclick - t0)); [lia|done].
    + intros [HE|Ht]; unfold s4; apply click_suppressed; unfold honored.
      * by rewrite Hd3, Hex.
      * destruct (isDragging s3); [done|]. rewrite Htype, Hm, Htime. simpl.
        destruct (Z.ltb_spec 150 (tclick - t0)); [done|lia].
Qed.

Lemma tap_or_drag_witness :
  let s0 := initialState [] in
  let gesture pointerType' p :=
    onPointerUp
      (moves (onPointerDown s0 (mkEvent 1 0 0 pointerType') 1000)
             1 pointerType' [p])
      (mkEvent 1 (x p) (y p) pointerType') 1050 in
  (isDragging (gesture "mouse"%string (mkPoint 3 0)) = false /\
   currentPath (handleDomainClickRequest
                  (gesture "mouse"%string (mkPoint 3 0)) "Art" 1060)
   = [] ++ ["Art"%string]) /\
  (isDragging (gesture "mouse"%string (mkPoint 50 0)) = true /\
   handleDomainClickRequest (gesture "mouse"%string (mkPoint 50 0)) "Art" 1060
   = gesture "mouse"%string (mkPoint 50 0)) /\
  (isDragging (gesture "touch"%string (mkPoint 3 0)) = false /\
   currentPath (handleDomainClickRequest
                  (gesture "touch"%string (mkPoint 3 0)) "Art" 1080)
   = [] ++ ["Art"%string]) /\
  handleDomainClickRequest (gesture "touch"%string (mkPoint 3 0)) "Art" 1300
  = gesture "touch"%string (mkPoint 3 0).
Proof.
  intros s0 gesture. split; [|split; [|split]].
  - destruct (tap_or_drag s0 1 "mouse" (mkPoint 0 0) 1000 [mkPoint 3 0]
                (mkPoint 3 0) 1050 "Art" 1060 eq_refl) as (H & _ & _).
    apply H; [reflexivity|]. rewrite getDistance_horizontal; lra.
  - destruct (tap_or_drag s0 1 "mouse" (mkPoint 0 0) 1000 [mkPoint 50 0]
                (mkPoint 50 0) 1050 "Art" 1060 eq_refl) as (_ & H & _).
    apply H; [reflexivity|discriminate|].
    rewrite getDistance_horizontal; lra.
  - destruct (tap_or_drag s0 1 "touch" (mkPoint 0 0) 1000 [mkPoint 3 0]
                (mkPoint 3 0) 1050 "Art" 1080 eq_refl) as (_ & _ & H).
    apply H; [discriminate| |discriminate].
    constructor; [|constructor]. rewrite getDistance_horizontal; lra.
  - destruct (tap_or_drag s0 1 "touch" (mkPoint 0 0) 1000 [mkPoint 3 0]
                (mkPoint 3 0) 1050 "Art" 1300 eq_refl) as (_ & _ & H).
    apply H; [discriminate|]. right. reflexivity.
Defined.

(** *** An event for a pointer that is not tracked *)

(** C9 fails on [onPointerUp].  One touch pointer is down and no drag is
    committed; an up (or leave) arrives for pointer 2, which never went
    down.  [onPointerMove] ignores such an event, [onPointerUp] does not:
    it sets the drag flag, and the tap that would have been honored is
    dropped. *)
Lemma onPointerUp_untracked_commits_drag :
  let s1 := onPointerDown (initialState []) (mkEvent 1 0 0 "touch") 1000 in
  let s2 := onPointerUp s1 (mkEvent 2 0 0 "touch") 1040 in
  JsMap.has Z.eqb (activePointers s1) 2%Z = false /\
  onPointerMove s1 (mkEvent 2 0 0 "touch") = s1 /\
  isDragging s1 = false /\ isDragging s2 = true /\
  activePointers s2 = activePointers s1 /\
  honored s1 1080 = true /\ honored s2 1080 = false.
Proof. repeat split. Qed.

(** *** Two pointers: pinch *)

Lemma size_set_tracked (m : JsMap.t Z Point) k v :
  JsMap.has Z.eqb m k = true ->
  JsMap.size (JsMap.set Z.eqb m k v) = JsMap.size m.
Proof. apply (JsMapFacts.set_has Z.eqb). Qed.

Lemma size_set_new (m : JsMap.t Z Point) k v :
  JsMap.has Z.eqb m k = false ->
  JsMap.size (JsMap.set Z.eqb m k v) = S (JsMap.size m).
Proof.
  unfold JsMap.has, JsMap.size.
  induction m as [|[k0 v0] m IH]; simpl; [done|].
  destruct (Z.eqb k0 k); simpl; [done|]. intros H. by rewrite IH.
Qed.

(** The pointer-down that makes a second pointer active. *)
Lemma down_second s0 c pc e0 now :
  activePointers s0 = [(c, pc)] -> pointerId e0 <> c ->
  let s1 := onPointerDown s0 e0 now in
  activePointers s1 = [(c, pc); (pointerId e0, clientPoint e0)] /\
  pan s1 = pan s0 /\ zoomLevel s1 = zoomLevel s0 /\
  (isPinchEnabled s0 = true ->
   initialPinchDistance s1 = Some (getDistance pc (clientPoint e0)) /\
   initialZoomLevel s1 = zoomLevel s0) /\
  (isPinchEnabled s0 = false ->
   initialPinchDistance s1 = initialPinchDistance s0 /\
   initialZoomLevel s1 = initialZoomLevel s0).
Proof.
  intros Ha Hne s1. subst s1. unfold onPointerDown. rewrite Ha. simpl.
  destruct (Z.eqb_spec c (pointerId e0)) as [E|_]; [by symmetry in E|]. simpl.
  destruct (isPinchEnabled s0); simpl; repeat split; try done; discriminate.
Qed.

(** The distance that a later move compares with is set by no other
    event than a pointer-down with pinch enabled that leaves two pointers
    active. *)
Lemma capture_only_on_down s0 ev d :
  initialPinchDistance (step s0 ev) = Some d ->
  initialPinchDistance s0 = Some d \/
  exists e0 now,
    ev = PointerDown e0 now /\ isPinchEnabled s0 = true /\
    let m := JsMap.set Z.eqb (activePointers s0) (pointerId e0) (clientPoint e0) in
    JsMap.size m = 2%nat /\
    d = getDistance (point (JsMap.values m) 0) (point (JsMap.values m) 1).
Proof.
  destruct ev as [e now|e|e now|n now| | | |path]; simpl.
  - unfold onPointerDown. simpl.
    destruct (Nat.eqb_spec
                (JsMap.size (JsMap.set Z.eqb (activePointers s0) (pointerId e)
                               (clientPoint e))) 2) as [E2|_]; simpl.
    + destruct (isPinchEnabled s0) eqn:Ep; simpl.
      * intros [= <-]. right. exists e, now. repeat split; done.
      * break_if; simpl; by left.
    + break_if; simpl; by left.
  - unfold onPointerMove. repeat break_if; simpl; try (by left);
      unfold panBy; simpl; by left.
  - unfold onPointerUp. simpl. repeat break_if; simpl; try discriminate; by left.
  - unfold handleDomainClickRequest. break_if; simpl; by left.
  - by left.
  - by left.
  - by left.
  - by left.
Qed.

(** C5 (as amended).  While the two pointers [a] and [b] are active, at
    [pa] and [pb], with pinch enabled, a pointer-move event never changes
    the pan.  A move of [a] or of [b] records the position of the event
    for that pointer and leaves the other where it was; when an initial
    distance [d0] other than zero was captured, the zoom becomes the
    captured zoom times the ratio of the distance between the two
    positions, that of the event and that of the other pointer, to [d0],
    clamped to [0.6, 2.5]; when no initial distance was captured, or it is
    zero, the zoom stays as it is.  A move of any other pointer changes
    nothing.  The pointer-down that makes a second pointer active captures
    the distance between the first pointer and the event, and the zoom,
    when pinch is enabled at that moment, and leaves both captures as they
    were when it is not; and no event other than a pointer-down with pinch
    enabled that leaves two pointers active gives the captured distance a
    new value. *)
Theorem pinch_move s a pa b pb e :
  activePointers s = [(a, pa); (b, pb)] -> a <> b -> isPinchEnabled s = true ->
  let s' := onPointerMove s e in
  let pa' := if Z.eqb (pointerId e) a then clientPoint e else pa in
  let pb' := if Z.eqb (pointerId e) b then clientPoint e else pb in
  pan s' = pan s /\
  (pointerId e = a \/ pointerId e = b ->
   activePointers s' = [(a, pa'); (b, pb')] /\
   (forall d0,
      initialPinchDistance s = Some d0 -> d0 <> 0 ->
      zoomLevel s'
      = Rmin (Rmax (initialZoomLevel s * (getDistance pa' pb' / d0)) 0.6) 2.5) /\
   (initialPinchDistance s = None \/ initialPinchDistance s = Some 0 ->
    zoomLevel s' = zoomLevel s)) /\
  (pointerId e <> a -> pointerId e <> b -> s' = s) /\
  (forall s0 c pc e0 now,
     activePointers s0 = [(c, pc)] -> pointerId e0 <> c ->
     let s1 := onPointerDown s0 e0 now in
     activePointers s1 = [(c, pc); (pointerId e0, clientPoint e0)] /\
     pan s1 = pan s0 /\ zoomLevel s1 = zoomLevel s0 /\
     (isPinchEnabled s0 = true ->
      initialPinchDistance s1 = Some (getDistance pc (clientPoint e0)) /\
      initialZoomLevel s1 = zoomLevel s0) /\
     (isPinchEnabled s0 = false ->
      initialPinchDistance s1 = initialPinchDistance s0 /\
      initialZoomLevel s1 = initialZoomLevel s0)) /\
  (forall s0 ev d,
     initialPinchDistance (step s0 ev) = Some d ->
     initialPinchDistance s0 = Some d \/
     exists e0 now,
       ev = PointerDown e0 now /\ isPinchEnabled s0 = true /\
       let m := JsMap.set Z.eqb (activePointers s0) (pointerId e0)
                  (clientPoint e0) in
       JsMap.size m = 2%nat /\
       d = getDistance (point (JsMap.values m) 0) (point (JsMap.values m) 1)).
Proof.
  intros Ha Hab Hpinch s' pa' pb'.
  assert (Hmove : forall p1 p2 : Point,
            JsMap.has Z.eqb (activePointers s) (pointerId e) = true ->
            JsMap.set Z.eqb (activePointers s) (pointerId e) (clientPoint e)
            = [(a, p1); (b, p2)] ->
            pan s' = pan s /\
            activePointers s' = [(a, p1); (b, p2)] /\
            (forall d0,
               initialPinchDistance s = Some d0 -> d0 <> 0 ->
               zoomLevel s'
               = Rmin (Rmax (initialZoomLevel s * (getDistance p1 p2 / d0)) 0.6) 2.5) /\
            (initialPinchDistance s = None \/ initialPinchDistance s = Some 0 ->
             zoomLevel s' = zoomLevel s)).
  { intros p1 p2 Hhas Hset. subst s'. unfold onPointerMove.
    rewrite Hhas. simpl. rewrite Hset, Hpinch. simpl.
    destruct (initialPinchDistance s) as [d|] eqn:Ed; simpl.
    - destruct (Req_dec_T d 0) as [->|Hd]; simpl.
      + repeat split; try done. intros d0 [= <-] Hne. done.
      + repeat split; try done.
        * intros d0 [= <-] _. done.
        * intros [H|[= H]]; [discriminate|done].
    - repeat split; try done. }
  split; [|split; [|split; [|split]]].
  - destruct (Z.eqb_spec (pointerId e) a) as [Ea|Na].
    + apply (Hmove (clientPoint e) pb).
      * unfold JsMap.has. rewrite Ha, Ea. simpl. by rewrite Z.eqb_refl.
      * rewrite Ha, Ea. simpl. by rewrite Z.eqb_refl.
    + destruct (Z.eqb_spec (pointerId e) b) as [Eb|Nb].
      * apply (Hmove pa (clientPoint e)).
        -- unfold JsMap.has. rewrite Ha, Eb. simpl.
           destruct (Z.eqb_spec a b); [done|]. by rewrite Z.eqb_refl.
        -- rewrite Ha, Eb. simpl.
           destruct (Z.eqb_spec a b); [done|]. by rewrite Z.eqb_refl.
      * subst s'. rewrite onPointerMove_untracked; [done|].
        unfold JsMap.has. rewrite Ha. simpl.
        destruct (Z.eqb_spec a (pointerId e)) as [E|_]; [by symmetry in E|].
        destruct (Z.eqb_spec b (pointerId e)) as [E|_]; [by symmetry in E|].
        done.
  - intros Hab'. subst pa' pb'.
    destruct (Z.eqb_spec (pointerId e) a) as [Ea|Na].
    + destruct (Z.eqb_spec (pointerId e) b) as [Eb|_]; [congruence|].
      apply (Hmove (clientPoint e) pb).
      * unfold JsMap.has. rewrite Ha, Ea. simpl. by rewrite Z.eqb_refl.
      * rewrite Ha, Ea. simpl. by rewrite Z.eqb_refl.
    + destruct Hab' as [Ea|Eb]; [done|].
      destruct (Z.eqb_spec (pointerId e) b) as [_|Nb]; [|done].
      apply (Hmove pa (clientPoint e)).
      * unfold JsMap.has. rewrite Ha, Eb. simpl.
        destruct (Z.eqb_spec a b); [done|]. by rewrite Z.eqb_refl.
      * rewrite Ha, Eb. simpl.
        destruct (Z.eqb_spec a b); [done|]. by rewrite Z.eqb_refl.
  - intros Na Nb. subst s'. apply onPointerMove_untracked.
    unfold JsMap.has. rewrite Ha. simpl.
    destruct (Z.eqb_spec a (pointerId e)) as [E|_]; [by symmetry in E|].
    destruct (Z.eqb_spec b (pointerId e)) as [E|_]; [by symmetry in E|].
    done.
  - intros s0 c pc e0 now. apply down_second.
  - intros s0 ev d. apply capture_only_on_down.
Qed.

Lemma pinchBy2_captured :
  initialPinchDistance (run (initialState []) pinchBy2) = Some 10.
Proof.
  unfold run, pinchBy2. simpl fold_left.
  unfold onPointerDown, point, clientPoint. simpl.
  by rewrite getDistance_horizontal, Rminus_0_r by lra.
Qed.

Lemma pinch_move_witness :
  let s := run (initialState []) pinchBy2 in
  let s' := onPointerMove s (mkEvent 2 20 0 "touch") in
  activePointers s = [(1%Z, mkPoint 0 0); (2%Z, mkPoint 10 0)] /\
  pan s' = pan s /\
  activePointers s' = [(1%Z, mkPoint 0 0); (2%Z, mkPoint 20 0)] /\
  zoomLevel s'
  = Rmin (Rmax (initialZoomLevel s
                * (getDistance (mkPoint 0 0) (mkPoint 20 0) / 10)) 0.6) 2.5 /\
  zoomLevel s' = 2.
Proof.
  intros s s'.
  destruct (pinch_move s 1%Z (mkPoint 0 0) 2%Z (mkPoint 10 0)
              (mkEvent 2 20 0 "touch") eq_refl ltac:(discriminate) eq_refl)
    as (Hpan & Hmove & _).
  destruct (Hmove (or_intror eq_refl)) as (Hact & Hzoom & _).
  specialize (Hzoom 10 pinchBy2_captured ltac:(lra)).
  assert (Hz : zoomLevel s'
               = Rmin (Rmax (initialZoomLevel s
                             * (getDistance (mkPoint 0 0) (mkPoint 20 0) / 10))
                            0.6) 2.5) by exact Hzoom.
  split; [reflexivity|]. split; [exact Hpan|]. split; [exact Hact|].
  split; [exact Hz|]. rewrite Hz.
  rewrite getDistance_horizontal by lra.
  change (initialZoomLevel s) with 1.
  unfold Rmin, Rmax. destruct (Rle_dec _ 0.6); destruct (Rle_dec _ 2.5); lra.
Defined.

(** C5 as stated fails: two pointers go down 10 apart while pinch is
    disabled, pinch is then enabled, and one pointer moves until they are
    20 apart.  Two pointers are active with pinch enabled, the ratio of the
    current to the initial distance is 2, the zoom was 1, and the move
    leaves the zoom at 1, where the claim has 2. *)
Lemma pinch_enabled_late :
  let s := run (initialState [])
             [ PointerDown (mkEvent 1 0 0 "touch") 0;
               PointerDown (mkEvent 2 10 0 "touch") 5;
               TogglePinch ] in
  let s' := onPointerMove s (mkEvent 2 20 0 "touch") in
  JsMap.size (activePointers s) = 2%nat /\ isPinchEnabled s = true /\
  JsMap.values (activePointers s) = [mkPoint 0 0; mkPoint 10 0] /\
  JsMap.values (activePointers s') = [mkPoint 0 0; mkPoint 20 0] /\
  zoomLevel s = 1 /\ zoomLevel s' = 1 /\
  Rmin (Rmax (1 * (getDistance (mkPoint 0 0) (mkPoint 20 0)
                   / getDistance (mkPoint 0 0) (mkPoint 10 0))) 0.6) 2.5 = 2.
Proof.
  repeat split.
  rewrite !getDistance_horizontal by lra.
  unfold Rmin, Rmax. destruct (Rle_dec _ 0.6); destruct (Rle_dec _ 2.5); lra.
Qed.

(** *** One pointer: the pan *)

Lemma point_eta (p : Point) : mkPoint (x p) (y p) = p.
Proof. by destruct p. Qed.

(** One move of the only active pointer: the pan takes the step from the
    last pan position once the drag is committed, and nothing moves
    before. *)
Lemma move_single_pan s id pointerType' p q :
  activePointers s = [(id, q)] ->
  let s' := onPointerMove s (mkEvent id (x p) (y p) pointerType') in
  if isDragging s || commits pointerType' (dragStartPos s) p then
    pan s' = mkPoint (x (pan s) + (x p - x (lastPanPosition s)))
                     (y (pan s) + (y p - y (lastPanPosition s))) /\
    lastPanPosition s' = p
  else pan s' = pan s /\ lastPanPosition s' = lastPanPosition s.
Proof.
  intros Ha s'. subst s'. unfold onPointerMove, JsMap.has. rewrite Ha. simpl.
  rewrite Z.eqb_refl. simpl. unfold commits, panBy, clientPoint. simpl.
  destruct (isDragging s) eqn:Ed; simpl.
  - by rewrite point_eta.
  - destruct (isMouse pointerType'); simpl.
    + by rewrite point_eta.
    + rewrite !point_eta.
      destruct (Rgt_dec (getDistance (dragStartPos s) p) 10); simpl; [|done].
      done.
Qed.

Lemma moves_snoc s id pointerType' ps p :
  moves s id pointerType' (ps ++ [p])
  = onPointerMove (moves s id pointerType' ps) (mkEvent id (x p) (y p) pointerType').
Proof. unfold moves. by rewrite fold_left_app. Qed.

(** The moves of the only active pointer keep the offset between the pan
    and the last pan position. *)
Lemma moves_pan id pointerType' ps :
  forall s q,
    activePointers s = [(id, q)] ->
    let s' := moves s id pointerType' ps in
    x (pan s') - x (lastPanPosition s') = x (pan s) - x (lastPanPosition s) /\
    y (pan s') - y (lastPanPosition s') = y (pan s) - y (lastPanPosition s) /\
    (isDragging s' = false -> lastPanPosition s' = lastPanPosition s) /\
    (isDragging s' = true -> ps <> [] -> lastPanPosition s' = List.last ps q).
Proof.
  induction ps as [|p ps IH] using rev_ind; intros s q Ha; simpl.
  - repeat split; done.
  - rewrite moves_snoc.
    destruct (moves_single id pointerType' ps s q Ha)
      as ((q' & Ha') & Hstart & _).
    destruct (IH s q Ha) as (Hx & Hy & Hnd & Hd).
    pose proof (move_single_pan (moves s id pointerType' ps) id pointerType'
                  p q' Ha') as Hm.
    destruct (move_single (moves s id pointerType' ps) id pointerType' p q' Ha')
      as (_ & _ & _ & _ & _ & _ & Hdrag).
    simpl in Hm, Hdrag. rewrite Hdrag.
    destruct (isDragging (moves s id pointerType' ps)
              || commits pointerType' (dragStartPos (moves s id pointerType' ps)) p)
      eqn:E.
    + destruct Hm as (Hp & Hl). rewrite Hp, Hl. simpl.
      repeat split; [lra|lra|discriminate|].
      intros _ _. by rewrite last_last.
    + destruct Hm as (Hp & Hl). rewrite Hp, Hl.
      apply orb_false_elim in E as (E & _).
      repeat split; [done|done|intros _; by apply Hnd|discriminate].
Qed.

(** A drag with one pointer moves the view with the pointer.  From no
    active pointer, after the pointer went down at [p0] and moved through
    the points [ps]: once the drag is committed, the pan has changed by
    exactly the way from [p0] to the last point (also for a touch pointer,
    whose first moves inside the threshold are caught up by the move that
    commits the drag); before that the pan is where it was. *)
Theorem drag_follows_pointer s id pointerType' p0 t0 ps :
  activePointers s = [] ->
  let ev p := mkEvent id (x p) (y p) pointerType' in
  let s2 := moves (onPointerDown s (ev p0) t0) id pointerType' ps in
  isDragging s2 = existsb (commits pointerType' p0) ps /\
  if isDragging s2 then
    x (pan s2) = x (pan s) + (x (List.last ps p0) - x p0) /\
    y (pan s2) = y (pan s) + (y (List.last ps p0) - y p0) /\
    lastPanPosition s2 = List.last ps p0
  else pan s2 = pan s.
Proof.
  intros Ha ev s2.
  pose proof (down_first s (ev p0) t0 Ha) as Hdown.
  set (s1 := onPointerDown s (ev p0) t0) in *.
  assert (Ha1 : activePointers s1 = [(id, p0)]).
  { rewrite Hdown. simpl. unfold clientPoint. simpl. by rewrite point_eta. }
  assert (Hl1 : lastPanPosition s1 = p0).
  { rewrite Hdown. simpl. unfold clientPoint. simpl. by rewrite point_eta. }
  assert (Hs1 : dragStartPos s1 = p0).
  { rewrite Hdown. simpl. unfold clientPoint. simpl. by rewrite point_eta. }
  assert (Hp1 : pan s1 = pan s) by (by rewrite Hdown).
  assert (Hd1 : isDragging s1 = false) by (by rewrite Hdown).
  destruct (moves_single id pointerType' ps s1 p0 Ha1)
    as (_ & _ & _ & _ & _ & _ & Hdrag).
  destruct (moves_pan id pointerType' ps s1 p0 Ha1) as (Hx & Hy & Hnd & Hd).
  fold s2 in Hdrag, Hx, Hy, Hnd, Hd.
  rewrite Hd1, Hs1 in Hdrag. simpl in Hdrag. split; [exact Hdrag|].
  rewrite Hl1, Hp1 in Hx, Hy.
  destruct (isDragging s2) eqn:E.
  - assert (Hne : ps <> []) by (intros ->; simpl in Hdrag; discriminate).
    rewrite (Hd eq_refl Hne) in Hx, Hy. rewrite (Hd eq_refl Hne).
    repeat split; lra.
  - rewrite (Hnd eq_refl), Hl1 in Hx, Hy.
    destruct (pan s2) as [a b], (pan s) as [a' b']. simpl in *.
    f_equal; lra.
Qed.

Lemma drag_follows_pointer_witness :
  let s := initialState [] in
  let ev p := mkEvent 1 (x p) (y p) "touch" in
  let ps := [mkPoint 3 0; mkPoint 30 40; mkPoint 20 10] in
  let s2 := moves (onPointerDown s (ev (mkPoint 0 0)) 1000) 1 "touch" ps in
  isDragging s2 = existsb (commits "touch" (mkPoint 0 0)) ps /\
  if isDragging s2 then
    x (pan s2) = x (pan s) + (x (List.last ps (mkPoint 0 0)) - x (mkPoint 0 0)) /\
    y (pan s2) = y (pan s) + (y (List.last ps (mkPoint 0 0)) - y (mkPoint 0 0)) /\
    lastPanPosition s2 = List.last ps (mkPoint 0 0)
  else pan s2 = pan s.
Proof.
  apply (drag_follows_pointer (initialState []) 1 "touch" (mkPoint 0 0) 1000
           [mkPoint 3 0; mkPoint 30 40; mkPoint 20 10]).
  reflexivity.
Defined.

(** *** More than one pointer *)

(** With two pointers down and pinch zoom off, or with three or more
    pointers down, a move changes nothing but the recorded position of the
    pointer: no pan, no zoom, no drag. *)
Theorem multi_pointer_move_inert s e :
  (2 <= JsMap.size (activePointers s))%nat ->
  isPinchEnabled s = false \/ (3 <= JsMap.size (activePointers s))%nat ->
  onPointerMove s e
  = if JsMap.has Z.eqb (activePointers s) (pointerId e)
    then setActivePointers s
           (JsMap.set Z.eqb (activePointers s) (pointerId e) (clientPoint e))
    else s.
Proof.
  intros H2 Hor. unfold onPointerMove.
  destruct (JsMap.has Z.eqb (activePointers s) (pointerId e)) eqn:Eh; [|done].
  simpl. rewrite (size_set_tracked _ _ _ Eh).
  destruct Hor as [Hp|H3].
  - rewrite Hp, andb_false_r. simpl.
    destruct (Nat.eqb_spec (JsMap.size (activePointers s)) 1); [lia|done].
  - destruct (Nat.eqb_spec (JsMap.size (activePointers s)) 2); [lia|]. simpl.
    destruct (Nat.eqb_spec (JsMap.size (activePointers s)) 1); [lia|done].
Qed.

Lemma multi_pointer_move_inert_witness :
  let s := run (initialState [])
             [ PointerDown (mkEvent 1 0 0 "touch") 0;
               PointerDown (mkEvent 2 10 0 "touch") 5 ] in
  let e := mkEvent 2 20 0 "touch" in
  onPointerMove s e
  = if JsMap.has Z.eqb (activePointers s) (pointerId e)
    then setActivePointers s
           (JsMap.set Z.eqb (activePointers s) (pointerId e) (clientPoint e))
    else s.
Proof.
  apply (multi_pointer_move_inert
           (run (initialState [])
              [ PointerDown (mkEvent 1 0 0 "touch") 0;
                PointerDown (mkEvent 2 10 0 "touch") 5 ])
           (mkEvent 2 20 0 "touch")).
  - apply Nat.le_refl.
  - left. reflexivity.
Defined.

(** *** The pointers that are tracked *)

Lemma keys_set (m : JsMap.t Z Point) k v :
  NoDup (map fst m) -> NoDup (map fst (JsMap.set Z.eqb m k v)) /\
  (forall k', In k' (map fst (JsMap.set Z.eqb m k v)) -> k' = k \/ In k' (map fst m)).
Proof.
  induction m as [|[k0 v0] m IH]; simpl; intros Hn.
  - split; [repeat constructor; by intros H%elem_of_nil|]. intros k' [->|[]]. by left.
  - apply NoDup_cons in Hn as (Hk0 & Hn).
    destruct (Z.eqb_spec k0 k) as [->|Hne]; simpl.
    + split; [by apply NoDup_cons|]. intros k' [->|H]; [by left|right; by right].
    + destruct (IH Hn) as (IH1 & IH2). split.
      * apply NoDup_cons. split; [|done]. intros Hin.
        apply list_elem_of_In in Hin. apply IH2 in Hin as [->|Hin]; [done|].
        apply Hk0. by apply list_elem_of_In.
      * intros k' [->|H]; [right; by left|].
        apply IH2 in H as [->|H]; [by left|right; by right].
Qed.

Lemma keys_delete (m : JsMap.t Z Point) k :
  NoDup (map fst m) ->
  NoDup (map fst (JsMap.delete Z.eqb m k)) /\
  JsMap.has Z.eqb (JsMap.delete Z.eqb m k) k = false.
Proof.
  unfold JsMap.has.
  induction m as [|[k0 v0] m IH]; simpl; intros Hn; [done|].
  apply NoDup_cons in Hn as (Hk0 & Hn).
  destruct (Z.eqb_spec k0 k) as [->|Hne]; simpl.
  - split; [done|].
    assert (Hnone : forall m' : JsMap.t Z Point,
              ~ In k (map fst m') -> JsMap.get Z.eqb m' k = None).
    { induction m' as [|[k1 v1] m' IH']; simpl; [done|]. intros Hin.
      destruct (Z.eqb_spec k1 k) as [->|]; [exfalso; apply Hin; by left|].
      apply IH'. intros H. apply Hin. by right. }
    rewrite Hnone; [done|]. intros Hin. apply Hk0. by apply list_elem_of_In.
  - destruct (IH Hn) as (IH1 & IH2). split.
    + apply NoDup_cons. split; [|done]. intros Hin. apply Hk0.
      apply list_elem_of_In in Hin. apply list_elem_of_In.
      clear -Hin. induction m as [|[k1 v1] m IHm]; simpl in *; [done|].
      destruct (Z.eqb k1 k); simpl in *; [by right|].
      destruct Hin as [->|Hin]; [by left|right; by apply IHm].
    + destruct (Z.eqb_spec k0 k); [done|]. exact IH2.
Qed.

Lemma activePointers_step s ev :
  activePointers (step s ev) = activePointers s \/
  (exists k v, activePointers (step s ev) = JsMap.set Z.eqb (activePointers s) k v) \/
  (exists k, activePointers (step s ev) = JsMap.delete Z.eqb (activePointers s) k).
Proof.
  destruct ev as [e now|e|e now|n now| | | |path]; simpl.
  - right. left. exists (pointerId e), (clientPoint e).
    unfold onPointerDown. simpl. by repeat break_if.
  - unfold onPointerMove.
    destruct (JsMap.has Z.eqb (activePointers s) (pointerId e)); simpl; [|by left].
    right. left. exists (pointerId e), (clientPoint e).
    repeat break_if; done.
  - right. right. exists (pointerId e).
    unfold onPointerUp. simpl. by repeat break_if.
  - left. unfold handleDomainClickRequest. by destruct (honored s now).
  - by left.
  - by left.
  - by left.
  - by left.
Qed.

(** No pointer is tracked twice. *)
Lemma activePointers_nodup evs : forall s,
  NoDup (map fst (activePointers s)) ->
  NoDup (map fst (activePointers (run s evs))).
Proof.
  induction evs as [|ev evs IH]; intros s Hn; [done|].
  simpl. apply IH.
  destruct (activePointers_step s ev) as [->|[(k & v & ->)|(k & ->)]]; [done| |].
  - by apply keys_set.
  - by apply keys_delete.
Qed.

(** After [onPointerUp] (or [onPointerLeave]) of a pointer, its moves are
    ignored until it goes down again, whatever the view went through
    before: a mouse that hovers over the view does not pan it. *)
Theorem released_pointer_is_ignored initialPath evs e now x' y' pointerType' :
  let s := onPointerUp (run (initialState initialPath) evs) e now in
  JsMap.has Z.eqb (activePointers s) (pointerId e) = false /\
  onPointerMove s (mkEvent (pointerId e) x' y' pointerType') = s.
Proof.
  intros s.
  assert (Hn : NoDup (map fst (activePointers (run (initialState initialPath) evs)))).
  { apply activePointers_nodup. simpl. constructor. }
  assert (Hh : JsMap.has Z.eqb (activePointers s) (pointerId e) = false).
  { replace (activePointers s)
      with (JsMap.delete Z.eqb
              (activePointers (run (initialState initialPath) evs)) (pointerId e)).
    - by apply keys_delete.
    - unfold s, onPointerUp. simpl. by repeat break_if. }
  split; [exact Hh|]. by apply onPointerMove_untracked.
Qed.

(** When one of two pointers is lifted, panning goes on with the pointer
    that remains: the pan is anchored at its recorded position, so its next
    move pans by exactly its own step, the pinch is over, and the drag
    counts as committed, so that lifting the remaining touch pointer is
    never taken for a tap. *)
Theorem lift_one_of_two s a pa b pb e now :
  activePointers s = [(a, pa); (b, pb)] -> a <> b ->
  pointerId e = a \/ pointerId e = b ->
  let rest := if Z.eqb (pointerId e) a then (b, pb) else (a, pa) in
  let s1 := onPointerUp s e now in
  activePointers s1 = [rest] /\
  lastPanPosition s1 = snd rest /\
  isDragging s1 = true /\
  initialPinchDistance s1 = None /\
  pan s1 = pan s /\ zoomLevel s1 = zoomLevel s /\
  (forall q pointerType',
     pan (onPointerMove s1 (mkEvent (fst rest) (x q) (y q) pointerType'))
     = mkPoint (x (pan s) + (x q - x (snd rest)))
               (y (pan s) + (y q - y (snd rest)))) /\
  (forall e2 now2 n now3,
     pointerId e2 = fst rest -> pointerType e2 <> "mouse"%string ->
     handleDomainClickRequest (onPointerUp s1 e2 now2) n now3
     = onPointerUp s1 e2 now2).
Proof.
  intros Ha Hab He rest s1.
  assert (Hs1 : activePointers s1 = [rest] /\ lastPanPosition s1 = snd rest /\
                isDragging s1 = true /\ initialPinchDistance s1 = None /\
                pan s1 = pan s /\ zoomLevel s1 = zoomLevel s /\
                lastPointerType s1 = lastPointerType s /\
                startDragTime s1 = startDragTime s).
  { unfold s1, rest, onPointerUp. rewrite Ha. simpl.
    destruct He as [-> | ->].
    - rewrite Z.eqb_refl. simpl. repeat split; done.
    - destruct (Z.eqb_spec b a) as [->|_]; [done|].
      destruct (Z.eqb_spec a b) as [->|_]; [done|]. simpl.
      rewrite Z.eqb_refl. simpl. repeat split; done. }
  destruct Hs1 as (H1 & H2 & H3 & H4 & H5 & H6 & H7 & H8).
  repeat split; try done.
  - intros q pointerType'.
    destruct rest as [c pc] eqn:Hrest. simpl in *.
    pose proof (move_single_pan s1 c pointerType' q pc H1) as Hm.
    simpl in Hm. rewrite H3 in Hm. simpl in Hm.
    destruct Hm as (Hm & _). by rewrite Hm, H5, H2.
  - intros e2 now2 n now3 Hid Hty.
    destruct rest as [c pc] eqn:Hrest. simpl in *. subst c.
    destruct (up_last s1 e2 pc now2 H1) as (_ & _ & _ & _ & Hd).
    simpl in Hd. rewrite (isMouse_false _ Hty), H3 in Hd. simpl in Hd.
    apply click_suppressed. unfold honored. by rewrite Hd.
Qed.

Lemma lift_one_of_two_witness :
  let s := run (initialState [])
             [ PointerDown (mkEvent 1 0 0 "touch") 0;
               PointerDown (mkEvent 2 10 0 "touch") 5 ] in
  let e := mkEvent 1 0 0 "touch" in
  let rest := if Z.eqb (pointerId e) 1 then (2%Z, mkPoint 10 0)
              else (1%Z, mkPoint 0 0) in
  let s1 := onPointerUp s e 50 in
  activePointers s1 = [rest] /\
  lastPanPosition s1 = snd rest /\
  isDragging s1 = true /\
  initialPinchDistance s1 = None /\
  pan s1 = pan s /\ zoomLevel s1 = zoomLevel s /\
  (forall q pointerType',
     pan (onPointerMove s1 (mkEvent (fst rest) (x q) (y q) pointerType'))
     = mkPoint (x (pan s) + (x q - x (snd rest)))
               (y (pan s) + (y q - y (snd rest)))) /\
  (forall e2 now2 n now3,
     pointerId e2 = fst rest -> pointerType e2 <> "mouse"%string ->
     handleDomainClickRequest (onPointerUp s1 e2 now2) n now3
     = onPointerUp s1 e2 now2).
Proof.
  apply (lift_one_of_two
           (run (initialState [])
              [ PointerDown (mkEvent 1 0 0 "touch") 0;
                PointerDown (mkEvent 2 10 0 "touch") 5 ])
           1 (mkPoint 0 0) 2 (mkPoint 10 0) (mkEvent 1 0 0 "touch") 50).
  - reflexivity.
  - discriminate.
  - left. reflexivity.
Defined.

(** *** The zoom buttons *)

(** Zoom-in is capped at 2.0 and pinch at 2.5: from a zoom level above 2.0,
    which a pinch reaches, the zoom-in button lowers the zoom to 2.0; from
    a level of at most 2.0 it never lowers it, and it raises it below 2.0.
    Zoom-out never raises the zoom of a level of at least 0.6. *)
Theorem zoom_buttons s :
  (2.0 < zoomLevel s -> zoomLevel (handleZoomIn s) = 2.0) /\
  (zoomLevel s <= 2.0 -> zoomLevel s <= zoomLevel (handleZoomIn s)) /\
  (zoomLevel s < 2.0 -> zoomLevel s < zoomLevel (handleZoomIn s)) /\
  (0.6 <= zoomLevel s -> zoomLevel (handleZoomOut s) <= zoomLevel s) /\
  (0.6 < zoomLevel s -> zoomLevel (handleZoomOut s) < zoomLevel s) /\
  zoomLevel (handleZoomIn (run (initialState []) pinchOut)) = 2.0 /\
  zoomLevel (handleZoomIn (run (initialState []) pinchOut))
  < zoomLevel (run (initialState []) pinchOut).
Proof.
  assert (Hin : forall s0, zoomLevel (handleZoomIn s0)
                           = Rmin (zoomLevel s0 + 0.2) 2.0) by done.
  assert (Hout : forall s0, zoomLevel (handleZoomOut s0)
                            = Rmax (zoomLevel s0 - 0.2) 0.6) by done.
  rewrite !Hin, Hout, pinchOut_zoom.
  unfold Rmin, Rmax.
  repeat split; intros; repeat destruct (Rle_dec _ _); lra.
Qed.

(** *** Navigation *)

(** The paths of navigation.  Going back after selecting a domain restores
    the path; going to the breadcrumb [i] and then to the breadcrumb [j]
    is going to the earlier of the two; going back is going to the
    breadcrumb before the last one; each of them resets the zoom to 1 and
    the pan to the origin, except going back on the empty path, which does
    nothing at all. *)
Theorem navigation_paths s n i j :
  currentPath (handleBack (handleSelectDomain s n)) = currentPath s /\
  currentPath (handleNavigate (handleNavigate s i) j)
  = currentPath (handleNavigate s (Nat.min i j)) /\
  currentPath (handleBack s)
  = firstn (List.length (currentPath s) - 1) (currentPath s) /\
  ((2 <= List.length (currentPath s))%nat ->
   handleBack s = handleNavigate s (List.length (currentPath s) - 2)) /\
  (currentPath s = [] -> handleBack s = s) /\
  (currentPath s <> [] ->
   zoomLevel (handleBack s) = 1 /\ pan (handleBack s) = mkPoint 0 0) /\
  zoomLevel (handleNavigate s i) = 1 /\ pan (handleNavigate s i) = mkPoint 0 0 /\
  (S i = List.length (currentPath s) ->
   currentPath (handleNavigate s i) = currentPath s).
Proof.
  repeat split.
  - unfold handleBack, handleSelectDomain. simpl.
    rewrite length_app. simpl.
    destruct (Nat.ltb_spec 0 (List.length (currentPath s) + 1)); [|lia].
    simpl. replace (List.length (currentPath s) + 1 - 1)%nat
      with (List.length (currentPath s) + 0)%nat by lia.
    rewrite firstn_app_2. simpl. by rewrite app_nil_r.
  - unfold handleNavigate. simpl. rewrite firstn_firstn.
    f_equal. lia.
  - unfold handleBack. destruct (currentPath s) eqn:E; simpl; [by rewrite E|].
    done.
  - intros H2. unfold handleBack, handleNavigate.
    destruct (Nat.ltb_spec 0 (List.length (currentPath s))); [|lia].
    do 2 f_equal. lia.
  - intros E. unfold handleBack. by rewrite E.
  - unfold handleBack. destruct (currentPath s); done.
  - unfold handleBack. destruct (currentPath s); done.
  - intros E. unfold handleNavigate. simpl. rewrite E. apply firstn_all.
Qed.

End GestureFacts.

(** ** The layout engine *)

Module LayoutFacts.
Import TreeStore Layout Line.
Local Open Scope R_scope.

(** *** The direction of a push *)

Lemma sqrt_one_plus_sqr b a (D : R) :
  0 < a -> 0 < D -> D * D = a * a + b * b -> sqrt (1 + (b / a)²) = D / a.
Proof.
  intros Ha HD HD2. apply sqrt_lem_1.
  - pose proof (Rle_0_sqr (b / a)). lra.
  - apply Rlt_le, Rdiv_lt_0_compat; lra.
  - unfold Rsqr. field_simplify_eq; [|lra]. nra.
Qed.

(** The cosine and the sine of [Math.atan2(b, a)] are those of the
    direction of [(a, b)]. *)
Lemma atan2_cos_sin b a :
  0 < sqrt (a * a + b * b) ->
  cos (atan2 b a) = a / sqrt (a * a + b * b) /\
  sin (atan2 b a) = b / sqrt (a * a + b * b).
Proof.
  set (D := sqrt (a * a + b * b)). intros HD.
  assert (HD2 : D * D = a * a + b * b) by (apply sqrt_sqrt; nra).
  unfold atan2. destruct (Rlt_dec 0 a) as [Ha|Ha].
  - rewrite cos_atan, sin_atan, (sqrt_one_plus_sqr b a D Ha HD HD2).
    split; field; lra.
  - destruct (Rlt_dec a 0) as [Ha'|Ha'].
    + assert (Hs : sqrt (1 + (b / a)²) = D / - a).
      { replace (b / a) with ((- b) / (- a)) by (field; lra).
        apply sqrt_one_plus_sqr; lra. }
      destruct (Rle_dec 0 b) as [Hb|Hb].
      * rewrite neg_cos, neg_sin, cos_atan, sin_atan, Hs. split; field; lra.
      * rewrite cos_minus, sin_minus, cos_PI, sin_PI, cos_atan, sin_atan, Hs.
        rewrite !Rmult_0_r, Rplus_0_r, Rminus_0_r.
        split; field; lra.
    + assert (a = 0) by lra. subst a.
      destruct (Rlt_dec 0 b) as [Hb|Hb].
      * assert (HDb : D = b) by nra. rewrite cos_PI2, sin_PI2, HDb.
        split; field; lra.
      * destruct (Rlt_dec b 0) as [Hb'|Hb'].
        -- assert (HDb : D = - b) by nra.
           rewrite cos_neg, sin_neg, cos_PI2, sin_PI2, HDb. split; field; lra.
        -- assert (b = 0) by lra. subst b. nra.
Qed.

Lemma sqrt_scaled k a b :
  0 <= k -> sqrt (k * a * (k * a) + k * b * (k * b)) = k * sqrt (a * a + b * b).
Proof.
  intros Hk. apply sqrt_lem_1.
  - nra.
  - apply Rmult_le_pos; [done|apply sqrt_pos].
  - assert (H : sqrt (a * a + b * b) * sqrt (a * a + b * b) = a * a + b * b)
      by (apply sqrt_sqrt; nra).
    nra.
Qed.

(** *** One attraction step *)

(** The distance from the center after the step: a node in the exclusion
    zone (and not at the center) is put at [m - 0.015 d], any other node
    at [0.985 d]. *)
Lemma attract_distance centerRadius n :
  0 < centerDistance n ->
  centerDistance (attract centerRadius n)
  = if Rlt_dec (centerDistance n) (centerRadius + radius n + 4)
    then centerRadius + radius n + 4 - 0.015 * centerDistance n
    else 0.985 * centerDistance n.
Proof.
  unfold centerDistance, attract. cbv zeta.
  set (dx := 50 - x n). set (dy := 50 - y n).
  set (D := sqrt (dx * dx + dy * dy)).
  set (m := centerRadius + radius n + 4). intros HD.
  destruct (Rlt_dec D m) as [Hlt|Hge].
  - destruct (Rgt_dec D 0) as [_|Hn]; [|lra]. cbn [x y moveTo].
    destruct (atan2_cos_sin dy dx HD) as [-> ->]. fold D.
    set (k := (m - 0.015 * D) / D).
    assert (Hk : 0 <= k).
    { apply Rlt_le, Rdiv_lt_0_compat; lra. }
    replace (50 - (x n + dx * 0.015 - (m - D) * (dx / D))) with (k * dx)
      by (unfold k, dx; field; lra).
    replace (50 - (y n + dy * 0.015 - (m - D) * (dy / D))) with (k * dy)
      by (unfold k, dy; field; lra).
    rewrite (sqrt_scaled k dx dy Hk). fold D. unfold k. field. lra.
  - cbn [x y moveTo].
    replace (50 - (x n + dx * 0.015)) with (0.985 * dx) by (unfold dx; lra).
    replace (50 - (y n + dy * 0.015)) with (0.985 * dy) by (unfold dy; lra).
    rewrite (sqrt_scaled 0.985 dx dy); [done|lra].
Qed.

Lemma attract_excludes centerRadius n :
  0 < centerDistance n ->
  0.985 * (centerRadius + radius n + 4) <= centerDistance (attract centerRadius n).
Proof.
  intros HD. rewrite (attract_distance _ _ HD).
  destruct (Rlt_dec _ _); lra.
Qed.

Lemma attract_same centerRadius n :
  domain (attract centerRadius n) = domain n /\
  radius (attract centerRadius n) = radius n.
Proof.
  unfold attract. cbv zeta.
  destruct (Rlt_dec _ _); [destruct (Rgt_dec _ _)|]; done.
Qed.

(** A node at the center is not moved. *)
Lemma attract_center centerRadius n :
  x n = 50 -> y n = 50 -> attract centerRadius n = n.
Proof.
  intros Hx Hy. unfold attract. cbv zeta. rewrite Hx, Hy.
  replace ((50 - 50) * (50 - 50) + (50 - 50) * (50 - 50)) with 0 by ring.
  rewrite sqrt_0.
  assert (Hn : moveTo n (50 + (50 - 50) * 0.015) (50 + (50 - 50) * 0.015) = n).
  { destruct n as [d r nx ny]. simpl in *. subst. unfold moveTo. simpl.
    f_equal; lra. }
  destruct (Rlt_dec 0 _); [destruct (Rgt_dec 0 0); [lra|]|]; exact Hn.
Qed.

(** *** One separation step *)

(** Two nodes that overlap (with the margin of 2) and do not coincide are
    put at exactly the sum of their radii plus 2 from one another. *)
Lemma separate_distance n1 n2 :
  0 < nodeDistance n1 n2 < radius n1 + radius n2 + 2 ->
  nodeDistance (fst (separate n1 n2)) (snd (separate n1 n2))
  = radius n1 + radius n2 + 2.
Proof.
  unfold nodeDistance, separate. cbv zeta.
  set (dx := x n2 - x n1). set (dy := y n2 - y n1).
  set (D := sqrt (dx * dx + dy * dy)).
  set (m := radius n1 + radius n2 + 2). intros [HD Hlt].
  destruct (Rlt_dec D m) as [_|Hn]; [|lra].
  destruct (Rgt_dec D 0) as [_|Hn]; [|lra]. cbn [fst snd x y moveTo].
  destruct (atan2_cos_sin dy dx HD) as [-> ->]. fold D.
  set (k := m / D).
  assert (Hk : 0 <= k) by (apply Rlt_le, Rdiv_lt_0_compat; lra).
  replace (x n2 + (m - D) / 2 * (dx / D) - (x n1 - (m - D) / 2 * (dx / D)))
    with (k * dx) by (unfold k, dx; field; lra).
  replace (y n2 + (m - D) / 2 * (dy / D) - (y n1 - (m - D) / 2 * (dy / D)))
    with (k * dy) by (unfold k, dy; field; lra).
  rewrite (sqrt_scaled k dx dy Hk). fold D. unfold k. field. lra.
Qed.

Lemma separate_same n1 n2 :
  domain (fst (separate n1 n2)) = domain n1 /\
  radius (fst (separate n1 n2)) = radius n1 /\
  domain (snd (separate n1 n2)) = domain n2 /\
  radius (snd (separate n1 n2)) = radius n2.
Proof.
  unfold separate. cbv zeta.
  destruct (Rlt_dec _ _); [destruct (Rgt_dec _ _)|]; done.
Qed.

(** *** What the passes keep *)

Lemma sameNode_refl l : Forall2 sameNode l l.
Proof. induction l; constructor; done. Qed.

Lemma sameNode_trans l1 l2 l3 :
  Forall2 sameNode l1 l2 -> Forall2 sameNode l2 l3 -> Forall2 sameNode l1 l3.
Proof.
  apply Forall2_trans. intros a b c [? ?] [? ?]. split; congruence.
Qed.

Lemma sameNode_insert l l' i v w :
  Forall2 sameNode l l' -> l !! i = Some v -> sameNode v w ->
  Forall2 sameNode l (<[i := w]> l').
Proof.
  intros H Hi Hvw. rewrite <- (list_insert_id l i v Hi).
  by apply Forall2_insert.
Qed.

Lemma pairStep_same nodes j k : Forall2 sameNode nodes (pairStep nodes j k).
Proof.
  unfold pairStep.
  destruct (nodes !! j) as [n1|] eqn:Hj; [|apply sameNode_refl].
  destruct (nodes !! k) as [n2|] eqn:Hk; [|apply sameNode_refl].
  destruct (separate_same n1 n2) as (H1 & H2 & H3 & H4).
  destruct (separate n1 n2) as [n1' n2']. simpl in *.
  apply (sameNode_insert _ _ _ n2); [|done|by split].
  apply (sameNode_insert _ _ _ n1); [apply sameNode_refl|done|by split].
Qed.

Lemma fold_same {A} (f : list Node -> A -> list Node) :
  (forall l a, Forall2 sameNode l (f l a)) ->
  forall (xs : list A) l, Forall2 sameNode l (fold_left f xs l).
Proof.
  intros Hf. induction xs as [|a xs IH]; intros l; simpl.
  - apply sameNode_refl.
  - eapply sameNode_trans; [apply Hf|apply IH].
Qed.

Lemma pairLoop_same nodes : Forall2 sameNode nodes (pairLoop nodes).
Proof.
  unfold pairLoop. apply fold_same. intros l j.
  apply fold_same. intros l' k. apply pairStep_same.
Qed.

Lemma map_attract_same centerRadius l :
  Forall2 sameNode l (map (attract centerRadius) l).
Proof.
  induction l as [|n l IH]; simpl; constructor; [|done].
  destruct (attract_same centerRadius n). by split.
Qed.

Lemma iteration_same centerRadius nodes :
  Forall2 sameNode nodes (iteration centerRadius nodes).
Proof.
  unfold iteration.
  eapply sameNode_trans; [apply pairLoop_same|apply map_attract_same].
Qed.

Lemma iter_same centerRadius k nodes :
  Forall2 sameNode nodes (Nat.iter k (iteration centerRadius) nodes).
Proof.
  induction k as [|k IH]; simpl.
  - apply sameNode_refl.
  - eapply sameNode_trans; [exact IH|apply iteration_same].
Qed.

Lemma imap_seed (f : nat -> Domain -> Node) (g : Domain -> R) domains :
  (forall i d, domain (f i d) = d /\ radius (f i d) = g d) ->
  Forall2 (fun d n => domain n = d /\ radius n = g d) domains (imap f domains).
Proof.
  revert f. induction domains as [|d l IH]; intros f Hf; simpl; constructor.
  - apply Hf.
  - apply IH. intros i d'. apply Hf.
Qed.

(** A single node has no pair: the loop over pairs leaves it alone. *)
Lemma pairLoop_single n : pairLoop [n] = [n].
Proof. reflexivity. Qed.

Lemma iter_single centerRadius k n :
  Nat.iter k (iteration centerRadius) [n]
  = [Nat.iter k (attract centerRadius) n].
Proof.
  induction k as [|k IH]; simpl; [done|].
  rewrite IH. unfold iteration. by rewrite pairLoop_single.
Qed.

(** A single child with a cached position at the center of the space
    stays there, whatever the sizes. *)
Lemma layout_center_fixed calculateSphereSize random d containerSize centerNodeName :
  position d = Some (mkPosition 50 50) ->
  calculateChaoticLayout calculateSphereSize random (Some [d])
    containerSize centerNodeName
  = [ {| domain := d; radius := calculateSphereSize (name d) * 0.56;
         x := 50; y := 50 |} ].
Proof.
  intros Hp. unfold calculateChaoticLayout. cbv zeta. simpl imap.
  rewrite iter_single.
  assert (Hseed : seed calculateSphereSize random 0 d
                  = {| domain := d; radius := calculateSphereSize (name d) * 0.56;
                       x := 50; y := 50 |}).
  { unfold seed. rewrite Hp. reflexivity. }
  rewrite Hseed.
  assert (Hfix : forall k, Nat.iter k (attract (calculateSphereSize centerNodeName * 0.56))
                     {| domain := d; radius := calculateSphereSize (name d) * 0.56;
                        x := 50; y := 50 |}
                   = {| domain := d; radius := calculateSphereSize (name d) * 0.56;
                        x := 50; y := 50 |}).
  { induction k as [|k IH]; simpl; [done|]. rewrite IH.
    by apply attract_center. }
  rewrite Hfix. simpl. unfold withPosition. simpl. f_equal. f_equal.
  destruct d as [i n ch s p]. simpl in *. subst p. reflexivity.
Qed.

(** *** The nodes that come out *)

Lemma out_structure calculateSphereSize l nodes :
  Forall2 (fun d n => domain n = d /\ radius n = calculateSphereSize (name d) * 0.56)
          l nodes ->
  Forall2 (fun d o =>
             domain o = setPosition d (Some (mkPosition (x o) (y o))) /\
             radius o = calculateSphereSize (name d) * 0.56)
          l (map withPosition nodes).
Proof.
  induction 1 as [|d n l nodes [Hd Hr] _ IH]; simpl; constructor; [|done].
  unfold withPosition. simpl. by rewrite Hd, Hr.
Qed.

Lemma node_ext (n n' : Node) :
  domain n = domain n' -> radius n = radius n' -> x n = x n' -> y n = y n' ->
  n = n'.
Proof.
  destruct n, n'. simpl. by intros -> -> -> ->.
Qed.

(** *** A single child on the horizontal line through the center *)






Lemma layout_single calculateSphereSize random d containerSize centerNodeName :
  calculateChaoticLayout calculateSphereSize random (Some [d])
    containerSize centerNodeName
  = [ withPosition
        (Nat.iter iterations (attract (calculateSphereSize centerNodeName * 0.56))
           (seed calculateSphereSize random 0 d)) ].
Proof.
  unfold calculateChaoticLayout. cbv zeta. simpl imap.
  by rewrite iter_single.
Qed.




(** *** Cached positions *)






(** *** More on one attraction step *)



(** Outside of the exclusion zone the step is the homothety of ratio 0.985
    about the center. *)
Lemma attract_outside centerRadius n :
  centerRadius + radius n + 4 <= centerDistance n ->
  x (attract centerRadius n) = 50 - 0.985 * (50 - x n) /\
  y (attract centerRadius n) = 50 - 0.985 * (50 - y n).
Proof.
  unfold centerDistance, attract. cbv zeta. intros H.
  destruct (Rlt_dec _ _) as [Hlt|_]; [lra|]. cbn [x y moveTo]. split; lra.
Qed.

Lemma attract_homothety centerRadius p q :
  centerRadius + radius p + 4 <= centerDistance p ->
  centerRadius + radius q + 4 <= centerDistance q ->
  nodeDistance (attract centerRadius p) (attract centerRadius q)
  = 0.985 * nodeDistance p q.
Proof.
  intros Hp Hq.
  destruct (attract_outside _ _ Hp) as (Hpx & Hpy).
  destruct (attract_outside _ _ Hq) as (Hqx & Hqy).
  unfold nodeDistance. rewrite Hpx, Hpy, Hqx, Hqy.
  rewrite <- (sqrt_scaled 0.985) by lra. f_equal. ring.
Qed.

(** *** More on one separation step *)

Lemma nodeDistance_nonneg n1 n2 : 0 <= nodeDistance n1 n2.
Proof. apply sqrt_pos. Qed.

(** Two nodes that coincide, or that are at least the sum of their radii
    plus 2 apart, are left where they are. *)
Lemma separate_idle n1 n2 :
  nodeDistance n1 n2 = 0 \/ radius n1 + radius n2 + 2 <= nodeDistance n1 n2 ->
  separate n1 n2 = (n1, n2).
Proof.
  unfold nodeDistance, separate. cbv zeta. intros H.
  destruct (Rlt_dec _ _) as [Hlt|_]; [|done].
  destruct (Rgt_dec _ _) as [Hgt|_]; [|done]. lra.
Qed.

(** After the step the two nodes coincide or are at least the sum of their
    radii plus 2 apart. *)
Lemma separate_apart n1 n2 :
  let n1' := fst (separate n1 n2) in
  let n2' := snd (separate n1 n2) in
  nodeDistance n1' n2' = 0 \/ radius n1' + radius n2' + 2 <= nodeDistance n1' n2'.
Proof.
  intros n1' n2'.
  destruct (separate_same n1 n2) as (_ & Hr1 & _ & Hr2).
  fold n1' in Hr1. fold n2' in Hr2. rewrite Hr1, Hr2.
  pose proof (nodeDistance_nonneg n1 n2) as H0.
  destruct (Rlt_dec (nodeDistance n1 n2) (radius n1 + radius n2 + 2)) as [Hlt|Hge].
  - destruct (Rle_lt_or_eq_dec _ _ H0) as [Hpos|H0'].
    + right. unfold n1', n2'. rewrite separate_distance by lra. lra.
    + left. unfold n1', n2'. rewrite separate_idle by (left; lra). simpl. lra.
  - right. unfold n1', n2'. rewrite separate_idle by (right; lra). simpl. lra.
Qed.

(** *** The passes keep the length, and what they do last *)

Lemma pairStep_length nodes j k : List.length (pairStep nodes j k) = List.length nodes.
Proof. symmetry. eapply Forall2_length. apply pairStep_same. Qed.

Lemma fold_pairStep_length j ks : forall nodes,
  List.length (fold_left (fun nodes k => pairStep nodes j k) ks nodes)
  = List.length nodes.
Proof.
  induction ks as [|k ks IH]; intros nodes; [done|]. simpl.
  by rewrite IH, pairStep_length.
Qed.

Lemma fold_pairs_length js : forall nodes,
  List.length
    (fold_left
       (fun nodes j =>
          fold_left (fun nodes k => pairStep nodes j k)
            (seq (S j) (List.length nodes - S j)) nodes) js nodes)
  = List.length nodes.
Proof.
  induction js as [|j js IH]; intros nodes; [done|]. simpl.
  by rewrite IH, fold_pairStep_length.
Qed.

Lemma seq_last_two n :
  (2 <= n)%nat -> seq 0 n = seq 0 (n - 2) ++ [(n - 2)%nat; (n - 1)%nat].
Proof.
  intros Hn. destruct n as [|[|m]]; [lia|lia|].
  rewrite !seq_S, <- app_assoc. simpl. rewrite Nat.sub_0_r. done.
Qed.

(** The last thing a pass over the pairs does is the step on the last two
    nodes. *)
Lemma pairLoop_last nodes :
  (2 <= List.length nodes)%nat ->
  exists nodes',
    List.length nodes' = List.length nodes /\
    pairLoop nodes
    = pairStep nodes' (List.length nodes - 2) (List.length nodes - 1).
Proof.
  intros Hn. unfold pairLoop.
  set (n := List.length nodes) in *.
  rewrite (seq_last_two n Hn), fold_left_app.
  set (l1 := fold_left _ (seq 0 (n - 2)) nodes).
  assert (Hl1 : List.length l1 = n) by apply fold_pairs_length.
  exists l1. split; [done|]. simpl. rewrite Hl1.
  replace (n - S (n - 2))%nat with 1%nat by lia. simpl.
  rewrite pairStep_length, Hl1.
  replace (n - S (n - 1))%nat with 0%nat by lia. simpl.
  f_equal. lia.
Qed.

(** After the pass over the pairs the last two nodes coincide or are at
    least the sum of their radii plus 2 apart. *)
Lemma pairLoop_last_apart nodes front p q :
  pairLoop nodes = front ++ [p; q] ->
  nodeDistance p q = 0 \/ radius p + radius q + 2 <= nodeDistance p q.
Proof.
  intros E.
  assert (Hlen : List.length nodes = (List.length front + 2)%nat).
  { erewrite (Forall2_length _ nodes (pairLoop nodes)) by apply pairLoop_same.
    rewrite E, length_app. done. }
  destruct (pairLoop_last nodes ltac:(lia)) as (l' & Hl' & E').
  rewrite E in E'. rewrite Hlen in E', Hl'.
  replace (List.length front + 2 - 2)%nat with (List.length front) in E' by lia.
  replace (List.length front + 2 - 1)%nat with (S (List.length front)) in E' by lia.
  unfold pairStep in E'.
  destruct (l' !! List.length front) as [a|] eqn:Ea.
  2:{ apply lookup_ge_None in Ea. lia. }
  destruct (l' !! S (List.length front)) as [b|] eqn:Eb.
  2:{ apply lookup_ge_None in Eb. lia. }
  pose proof (separate_apart a b) as Hap. cbv zeta in Hap.
  destruct (separate a b) as [a' b']. simpl in Hap.
  assert (Hp : (front ++ [p; q]) !! List.length front = Some a').
  { rewrite E'. rewrite list_lookup_insert_ne by lia.
    apply list_lookup_insert_eq. apply lookup_lt_Some in Ea. done. }
  assert (Hq : (front ++ [p; q]) !! S (List.length front) = Some b').
  { rewrite E'. apply list_lookup_insert_eq. rewrite length_insert.
    apply lookup_lt_Some in Eb. done. }
  rewrite lookup_app_r in Hp by lia. rewrite Nat.sub_diag in Hp.
  rewrite lookup_app_r in Hq by lia.
  replace (S (List.length front) - List.length front)%nat with 1%nat in Hq by lia.
  simpl in Hp, Hq. injection Hp as ->. injection Hq as ->. exact Hap.
Qed.




(** *** [separate] and [attract] on the line *)

Lemma sqrt_line a : sqrt (a * a + (50 - 50) * (50 - 50)) = Rabs a.
Proof.
  replace (a * a + (50 - 50) * (50 - 50)) with (Rsqr a) by (unfold Rsqr; ring).
  apply sqrt_Rsqr_abs.
Qed.

Lemma separate_line d1 r1 x1 d2 r2 x2 :
  let dx := x2 - x1 in
  separate (mkNode d1 r1 x1 50) (mkNode d2 r2 x2 50)
  = if Rlt_dec (Rabs dx) (r1 + r2 + 2) then
      if Rgt_dec (Rabs dx) 0 then
        (mkNode d1 r1 (x1 - (r1 + r2 + 2 - Rabs dx) / 2 * (dx / Rabs dx)) 50,
         mkNode d2 r2 (x2 + (r1 + r2 + 2 - Rabs dx) / 2 * (dx / Rabs dx)) 50)
      else (mkNode d1 r1 x1 50, mkNode d2 r2 x2 50)
    else (mkNode d1 r1 x1 50, mkNode d2 r2 x2 50).
Proof.
  intros dx. unfold separate. cbn [x y radius domain moveTo]. fold dx.
  rewrite (sqrt_line dx).
  destruct (Rlt_dec (Rabs dx) (r1 + r2 + 2)); [|done].
  destruct (Rgt_dec (Rabs dx) 0) as [Hpos|]; [|done].
  assert (HD : 0 < sqrt (dx * dx + (50 - 50) * (50 - 50)))
    by (rewrite sqrt_line; lra).
  destruct (atan2_cos_sin (50 - 50) dx HD) as [Hc Hs].
  rewrite sqrt_line in Hc, Hs. rewrite Hc, Hs.
  unfold moveTo; cbn [x y radius domain].
  f_equal; apply node_ext; cbn [x y radius domain]; try done; field; lra.
Qed.

Lemma attract_on_line centerRadius d r x0 :
  let dx := 50 - x0 in
  let m := centerRadius + r + 4 in
  attract centerRadius (mkNode d r x0 50)
  = if Rlt_dec (Rabs dx) m then
      if Rgt_dec (Rabs dx) 0 then
        mkNode d r (x0 + dx * 0.015 - (m - Rabs dx) * (dx / Rabs dx)) 50
      else mkNode d r (x0 + dx * 0.015) 50
    else mkNode d r (x0 + dx * 0.015) 50.
Proof.
  intros dx m. unfold attract. cbn [x y radius domain moveTo]. fold dx m.
  rewrite (sqrt_line dx).
  assert (Hy : 50 + (50 - 50) * 0.015 = 50) by lra.
  destruct (Rlt_dec (Rabs dx) m).
  - destruct (Rgt_dec (Rabs dx) 0) as [Hpos|].
    + assert (HD : 0 < sqrt (dx * dx + (50 - 50) * (50 - 50)))
        by (rewrite sqrt_line; lra).
      destruct (atan2_cos_sin (50 - 50) dx HD) as [Hc Hs].
      rewrite sqrt_line in Hc, Hs. rewrite Hc, Hs.
      unfold moveTo; cbn [x y radius domain].
      apply node_ext; cbn [x y radius domain]; try done.
      rewrite Hy. field. lra.
    + unfold moveTo; cbn [x y radius domain]. by rewrite Hy.
  - unfold moveTo; cbn [x y radius domain]. by rewrite Hy.
Qed.

(** *** The integer passes agree with the passes *)

Lemma Rabs_IZR_div (a D : Z) :
  (0 < D)%Z -> Rabs (IZR a / IZR D) = IZR (Z.abs a) / IZR D.
Proof.
  intros HD. apply IZR_lt in HD.
  unfold Rdiv. rewrite Rabs_mult, <- abs_IZR.
  rewrite (Rabs_pos_eq (/ IZR D)); [done|].
  left. by apply Rinv_0_lt_compat.
Qed.

Lemma sign_IZR_div (a D : Z) :
  (0 < D)%Z -> a <> 0%Z ->
  IZR a / IZR D / (IZR (Z.abs a) / IZR D) = IZR (Z.sgn a).
Proof.
  intros HD Ha. apply IZR_lt in HD.
  destruct (Z.lt_trichotomy a 0) as [Hneg|[H0|Hpos]]; [|done|].
  - rewrite (Z.abs_neq a) by lia. rewrite (Z.sgn_neg a) by lia.
    rewrite opp_IZR. apply IZR_lt in Hneg. field. lra.
  - rewrite (Z.abs_eq a) by lia. rewrite (Z.sgn_pos a) by lia.
    apply IZR_lt in Hpos. field. lra.
Qed.

Lemma IZR_div_lt (a b D : Z) :
  (0 < D)%Z -> (IZR a / IZR D < IZR b / IZR D <-> (a < b)%Z).
Proof.
  intros HD. apply IZR_lt in HD. split.
  - intros H. apply lt_IZR.
    apply (Rmult_lt_reg_r (/ IZR D)); [by apply Rinv_0_lt_compat|done].
  - intros H. apply IZR_lt in H.
    apply (Rmult_lt_compat_r (/ IZR D)); [by apply Rinv_0_lt_compat|done].
Qed.

Lemma toNode_scale (c D : Z) n :
  (0 < c)%Z -> (0 < D)%Z -> toNode (c * D) (scaleNode c n) = toNode D n.
Proof.
  intros Hc HD. apply IZR_lt in Hc, HD.
  unfold toNode, scaleNode. cbn [ldomain lradius lx].
  rewrite !mult_IZR.
  apply node_ext; cbn [x y radius domain]; try done; field; lra.
Qed.

Lemma separateZ_spec (D : Z) n1 n2 :
  (0 < D)%Z ->
  separate (toNode D n1) (toNode D n2)
  = match separateZ D n1 n2 with
    | Some (n1', n2') => (toNode (2 * D) n1', toNode (2 * D) n2')
    | None => (toNode D n1, toNode D n2)
    end.
Proof.
  intros HD. pose proof (IZR_lt _ _ HD) as HDR.
  unfold toNode at 1 2. rewrite separate_line.
  set (a := (lx n2 - lx n1)%Z).
  replace (IZR (lx n2) / IZR D - IZR (lx n1) / IZR D) with (IZR a / IZR D)
    by (unfold a; rewrite minus_IZR; field; lra).
  rewrite (Rabs_IZR_div a D HD).
  set (m := (lradius n1 + lradius n2 + 2 * D)%Z).
  replace (IZR (lradius n1) / IZR D + IZR (lradius n2) / IZR D + 2)
    with (IZR m / IZR D)
    by (unfold m; rewrite !plus_IZR, mult_IZR; field; lra).
  unfold separateZ. fold a. fold m.
  destruct (Rlt_dec (IZR (Z.abs a) / IZR D) (IZR m / IZR D)) as [Hlt|Hlt].
  - apply IZR_div_lt in Hlt; [|done].
    rewrite (proj2 (Z.ltb_lt _ _) Hlt). cbn [andb].
    destruct (Rgt_dec (IZR (Z.abs a) / IZR D) 0) as [Hpos|Hpos].
    + assert (Ha : (0 < Z.abs a)%Z).
      { apply (IZR_div_lt 0 (Z.abs a) D HD). unfold Rdiv at 1.
        rewrite Rmult_0_l. exact Hpos. }
      rewrite (proj2 (Z.ltb_lt _ _) Ha).
      rewrite (sign_IZR_div a D HD) by lia.
      unfold toNode. cbn [ldomain lradius lx].
      f_equal; apply node_ext; cbn [x y radius domain]; try done;
        repeat first [rewrite plus_IZR | rewrite minus_IZR | rewrite mult_IZR];
        field; lra.
    + assert (Ha : ~ (0 < Z.abs a)%Z).
      { intros Ha. apply Hpos. apply (IZR_div_lt 0 (Z.abs a) D HD) in Ha.
        unfold Rdiv at 1 in Ha. rewrite Rmult_0_l in Ha. exact Ha. }
      by rewrite (proj2 (Z.ltb_ge _ _)) by lia.
  - assert (Hge : ~ (Z.abs a < m)%Z).
    { intros H. apply Hlt. by apply IZR_div_lt. }
    by rewrite (proj2 (Z.ltb_ge _ _)) by lia.
Qed.

Lemma attractZ_spec (D c : Z) n :
  (0 < D)%Z ->
  attract (IZR c / IZR D) (toNode D n) = toNode (200 * D) (attractZ D c n).
Proof.
  intros HD. pose proof (IZR_lt _ _ HD) as HDR.
  unfold toNode at 1. rewrite attract_on_line.
  set (a := (50 * D - lx n)%Z).
  replace (50 - IZR (lx n) / IZR D) with (IZR a / IZR D)
    by (unfold a; rewrite minus_IZR, mult_IZR; field; lra).
  rewrite (Rabs_IZR_div a D HD).
  set (m := (c + lradius n + 4 * D)%Z).
  replace (IZR c / IZR D + IZR (lradius n) / IZR D + 4)
    with (IZR m / IZR D)
    by (unfold m; rewrite !plus_IZR, mult_IZR; field; lra).
  unfold attractZ. fold a. fold m.
  destruct (Rlt_dec (IZR (Z.abs a) / IZR D) (IZR m / IZR D)) as [Hlt|Hlt].
  - apply IZR_div_lt in Hlt; [|done].
    rewrite (proj2 (Z.ltb_lt _ _) Hlt). cbn [andb].
    destruct (Rgt_dec (IZR (Z.abs a) / IZR D) 0) as [Hpos|Hpos].
    + assert (Ha : (0 < Z.abs a)%Z).
      { apply (IZR_div_lt 0 (Z.abs a) D HD). unfold Rdiv at 1.
        rewrite Rmult_0_l. exact Hpos. }
      rewrite (proj2 (Z.ltb_lt _ _) Ha).
      rewrite (sign_IZR_div a D HD) by lia.
      unfold toNode. cbn [ldomain lradius lx].
      apply node_ext; cbn [x y radius domain]; try done;
        unfold a; replace 0.015 with (3 / 200) by lra;
        repeat first [rewrite plus_IZR | rewrite minus_IZR | rewrite mult_IZR];
        field; lra.
    + assert (Ha : ~ (0 < Z.abs a)%Z).
      { intros Ha. apply Hpos. apply (IZR_div_lt 0 (Z.abs a) D HD) in Ha.
        unfold Rdiv at 1 in Ha. rewrite Rmult_0_l in Ha. exact Ha. }
      rewrite (proj2 (Z.ltb_ge _ _)) by lia.
      unfold toNode. cbn [ldomain lradius lx].
      apply node_ext; cbn [x y radius domain]; try done;
        unfold a; replace 0.015 with (3 / 200) by lra;
        repeat first [rewrite plus_IZR | rewrite minus_IZR | rewrite mult_IZR];
        field; lra.
  - assert (Hge : ~ (Z.abs a < m)%Z).
    { intros H. apply Hlt. by apply IZR_div_lt. }
    rewrite (proj2 (Z.ltb_ge _ _)) by lia. cbn [andb].
    unfold toNode. cbn [ldomain lradius lx].
    apply node_ext; cbn [x y radius domain]; try done;
      unfold a; replace 0.015 with (3 / 200) by lra;
      repeat first [rewrite plus_IZR | rewrite minus_IZR | rewrite mult_IZR];
      field; lra.
Qed.

Lemma toNodes_lookup st i :
  toNodes st !! i = toNode (den st) <$> lnodes st !! i.
Proof. unfold toNodes. apply (list_lookup_fmap (toNode (den st))). Qed.

Lemma toNodes_length st : List.length (toNodes st) = List.length (lnodes st).
Proof. unfold toNodes. apply length_map. Qed.

Lemma toCenterRadius_scale (c : Z) st :
  (0 < c)%Z -> (0 < den st)%Z ->
  IZR (c * lcenterRadius st) / IZR (c * den st) = toCenterRadius st.
Proof.
  intros Hc HD. apply IZR_lt in Hc, HD. unfold toCenterRadius.
  rewrite !mult_IZR. field. lra.
Qed.

Lemma pairStepZ_spec st j k :
  (0 < den st)%Z ->
  (0 < den (pairStepZ st j k))%Z /\
  toNodes (pairStepZ st j k) = pairStep (toNodes st) j k /\
  toCenterRadius (pairStepZ st j k) = toCenterRadius st.
Proof.
  intros HD. unfold pairStepZ, pairStep.
  pose proof (toNodes_lookup st j) as Hj.
  pose proof (toNodes_lookup st k) as Hk.
  destruct (lnodes st !! j) as [n1|]; [|by rewrite Hj].
  destruct (lnodes st !! k) as [n2|]; [|by rewrite Hj, Hk].
  rewrite Hj, Hk. cbn [fmap option_fmap option_map].
  cbn [fmap option_fmap option_map] in Hj, Hk.
  rewrite (separateZ_spec (den st) n1 n2 HD).
  destruct (separateZ (den st) n1 n2) as [[n1' n2']|].
  - split; [cbn [den]; lia|]. split.
    + unfold toNodes. cbn [den lnodes].
      change (map (toNode (2 * den st))
                (<[k:=n2']> (<[j:=n1']> (map (scaleNode 2) (lnodes st)))))
        with (toNode (2 * den st) <$>
                (<[k:=n2']> (<[j:=n1']> (scaleNode 2 <$> lnodes st)))).
      rewrite !list_fmap_insert, <- list_fmap_compose.
      f_equal. f_equal. apply list_fmap_ext. intros i n _. cbn.
      by apply toNode_scale.
    + unfold toCenterRadius at 1. cbn [den lcenterRadius].
      by apply toCenterRadius_scale.
  - split; [done|]. split; [|done].
    rewrite (list_insert_id (toNodes st) j) by done.
    by rewrite list_insert_id.
Qed.

Lemma fold_pairStepZ_spec j ks : forall st,
  (0 < den st)%Z ->
  let st' := fold_left (fun st k => pairStepZ st j k) ks st in
  (0 < den st')%Z /\
  toNodes st' = fold_left (fun nodes k => pairStep nodes j k) ks (toNodes st) /\
  toCenterRadius st' = toCenterRadius st.
Proof.
  induction ks as [|k ks IH]; intros st HD; [done|].
  cbn [fold_left].
  destruct (pairStepZ_spec st j k HD) as (HD' & Hn & Hc).
  destruct (IH _ HD') as (HD'' & Hn' & Hc').
  split; [done|]. split; [by rewrite <- Hn|]. by rewrite <- Hc.
Qed.

Lemma fold_pairsZ_spec js : forall st,
  (0 < den st)%Z ->
  let st' :=
    fold_left
      (fun st j =>
         fold_left (fun st k => pairStepZ st j k)
           (seq (S j) (List.length (lnodes st) - S j)) st) js st in
  (0 < den st')%Z /\
  toNodes st' =
    fold_left
      (fun nodes j =>
         fold_left (fun nodes k => pairStep nodes j k)
           (seq (S j) (List.length nodes - S j)) nodes) js (toNodes st) /\
  toCenterRadius st' = toCenterRadius st.
Proof.
  induction js as [|j js IH]; intros st HD; [done|].
  cbn [fold_left].
  destruct (fold_pairStepZ_spec j (seq (S j) (List.length (lnodes st) - S j))
              st HD) as (HD' & Hn & Hc).
  destruct (IH _ HD') as (HD'' & Hn' & Hc').
  split; [done|]. split; [|by rewrite <- Hc].
  by rewrite toNodes_length, <- Hn.
Qed.

Lemma pairLoopZ_spec st :
  (0 < den st)%Z ->
  (0 < den (pairLoopZ st))%Z /\
  toNodes (pairLoopZ st) = pairLoop (toNodes st) /\
  toCenterRadius (pairLoopZ st) = toCenterRadius st.
Proof.
  intros HD. unfold pairLoopZ, pairLoop. rewrite toNodes_length.
  by apply fold_pairsZ_spec.
Qed.

Lemma iterationZ_spec st :
  (0 < den st)%Z ->
  (0 < den (iterationZ st))%Z /\
  toNodes (iterationZ st) = iteration (toCenterRadius st) (toNodes st) /\
  toCenterRadius (iterationZ st) = toCenterRadius st.
Proof.
  intros HD. destruct (pairLoopZ_spec st HD) as (HD' & Hn & Hc).
  unfold iterationZ, iteration. split; [cbn [den]; lia|]. split.
  - rewrite <- Hn, <- Hc. unfold toNodes at 1. cbn [den lnodes].
    unfold toNodes. rewrite !map_map. apply map_ext. intros n.
    symmetry. by apply attractZ_spec.
  - unfold toCenterRadius at 1. cbn [den lcenterRadius].
    rewrite <- Hc. by apply toCenterRadius_scale.
Qed.

Lemma iter_iterationZ_spec k st :
  (0 < den st)%Z ->
  (0 < den (Nat.iter k iterationZ st))%Z /\
  toNodes (Nat.iter k iterationZ st)
  = Nat.iter k (iteration (toCenterRadius st)) (toNodes st) /\
  toCenterRadius (Nat.iter k iterationZ st) = toCenterRadius st.
Proof.
  intros HD. induction k as [|k (HD' & Hn & Hc)]; [done|].
  rewrite !Nat.iter_succ.
  destruct (iterationZ_spec _ HD') as (HD'' & Hn' & Hc').
  split; [done|]. split; [by rewrite Hn', Hc, Hn|]. by rewrite Hc'.
Qed.

(** *** The layout of children cached on the line *)

Lemma imap_map {A B} (f : nat -> A -> B) (g : A -> B) l :
  (forall i a, f i a = g a) -> imap f l = map g l.
Proof.
  intros H. revert f H. induction l as [|a l IH]; intros f H; [done|].
  simpl. rewrite H. f_equal. apply IH. intros i b. apply H.
Qed.

Lemma seed_lineChild random i c :
  seed sizeByLength random i (lineChild c)
  = toNode 25 {| ldomain := lineChild c;
                 lradius := 14 * (8 + Z.of_nat (String.length c.1));
                 lx := 25 * c.2 |}.
Proof.
  unfold seed, toNode, sizeByLength, lineChild.
  cbn [position name option_map default TreeStore.x TreeStore.y
       ldomain lradius lx].
  apply node_ext; cbn [x y radius domain].
  - done.
  - rewrite mult_IZR, plus_IZR, <- INR_IZR_INZ. lra.
  - unfold Datatypes.id. rewrite mult_IZR. lra.
  - done.
Qed.

Lemma lineStart_nodes random centerNodeName children :
  imap (seed sizeByLength random) (map lineChild children)
  = toNodes (lineStart centerNodeName children).
Proof.
  unfold toNodes, lineStart. cbn [den lnodes]. rewrite map_map.
  change (map lineChild children) with (lineChild <$> children).
  rewrite (imap_fmap (seed sizeByLength random) lineChild children).
  apply imap_map. intros i c. apply seed_lineChild.
Qed.

Lemma lineStart_centerRadius centerNodeName children :
  toCenterRadius (lineStart centerNodeName children)
  = sizeByLength centerNodeName * 0.56.
Proof.
  unfold toCenterRadius, lineStart, sizeByLength. cbn [den lcenterRadius].
  rewrite mult_IZR, plus_IZR, <- INR_IZR_INZ. lra.
Qed.

(** The layout of children cached on the line, by the integer passes. *)
Lemma layout_on_line random children containerSize centerNodeName :
  let st := Nat.iter iterations iterationZ (lineStart centerNodeName children) in
  (0 < den st)%Z /\
  toCenterRadius st = sizeByLength centerNodeName * 0.56 /\
  calculateChaoticLayout sizeByLength random (Some (map lineChild children))
    containerSize centerNodeName
  = lineOut st.
Proof.
  intros st.
  destruct (iter_iterationZ_spec iterations (lineStart centerNodeName children))
    as (HD & Hn & Hc); [unfold lineStart; cbn [den]; lia|].
  split; [exact HD|]. split; [unfold st; by rewrite Hc, lineStart_centerRadius|].
  unfold calculateChaoticLayout, lineOut. cbv zeta. f_equal.
  fold st in Hn. rewrite Hn, lineStart_centerRadius.
  by rewrite (lineStart_nodes random centerNodeName).
Qed.

Lemma lineOut_lookup st i :
  lineOut st !! i
  = (fun n => withPosition (toNode (den st) n)) <$> lnodes st !! i.
Proof.
  unfold lineOut, toNodes. rewrite map_map.
  apply (list_lookup_fmap (fun n => withPosition (toNode (den st) n))).
Qed.

Lemma nodeDistance_line D a b :
  (0 < D)%Z ->
  nodeDistance (withPosition (toNode D a)) (withPosition (toNode D b))
  = IZR (Z.abs (lx b - lx a)) / IZR D.
Proof.
  intros HD. pose proof (IZR_lt _ _ HD) as HDR.
  unfold nodeDistance, withPosition, toNode. cbn [x y].
  rewrite sqrt_line, <- Rabs_IZR_div by done.
  f_equal. rewrite minus_IZR. field. lra.
Qed.

Lemma centerDistance_toNode D n :
  (0 < D)%Z ->
  centerDistance (withPosition (toNode D n))
  = IZR (Z.abs (50 * D - lx n)) / IZR D.
Proof.
  intros HD. pose proof (IZR_lt _ _ HD) as HDR.
  unfold centerDistance, withPosition, toNode. cbn [x y].
  rewrite sqrt_line, <- Rabs_IZR_div by done.
  f_equal. rewrite minus_IZR, mult_IZR. field. lra.
Qed.

Lemma IZR_div_le (a b D : Z) :
  (0 < D)%Z -> (a <= b)%Z -> IZR a / IZR D <= IZR b / IZR D.
Proof.
  intros HD H. apply IZR_lt in HD. apply IZR_le in H.
  apply Rmult_le_compat_r; [|done]. left. by apply Rinv_0_lt_compat.
Qed.

Lemma leftOf_spec c st i :
  (0 < den st)%Z -> leftOf c st i = true ->
  exists o, lineOut st !! i = Some o /\ x o < IZR c.
Proof.
  intros HD. unfold leftOf. rewrite lineOut_lookup.
  destruct (lnodes st !! i) as [n|]; [|done]. intros H.
  apply Z.ltb_lt in H. eexists. split; [done|].
  unfold withPosition, toNode. cbn [x].
  apply (IZR_div_lt _ _ _ HD) in H. rewrite mult_IZR in H.
  apply IZR_lt in HD.
  replace (IZR c) with (IZR c * IZR (den st) / IZR (den st)) by (field; lra).
  done.
Qed.

Lemma overlapBy_spec t st i j :
  (0 < den st)%Z -> overlapBy t st i j = true ->
  exists a b,
    lineOut st !! i = Some a /\ lineOut st !! j = Some b /\
    0 < nodeDistance a b /\
    nodeDistance a b + IZR t / 10 < radius a + radius b.
Proof.
  intros HD. unfold overlapBy. rewrite !lineOut_lookup.
  destruct (lnodes st !! i) as [a|]; [|done].
  destruct (lnodes st !! j) as [b|]; [|done]. intros H.
  apply andb_prop in H as [H0 H1].
  apply Z.ltb_lt in H0, H1. eexists _, _. split; [done|]. split; [done|].
  rewrite nodeDistance_line by done.
  apply (IZR_div_lt _ _ _ HD) in H0, H1.
  unfold withPosition, toNode. cbn [radius].
  apply IZR_lt in HD. split.
  - unfold Rdiv at 1 in H0. by rewrite Rmult_0_l in H0.
  - repeat first [rewrite plus_IZR in H1 | rewrite mult_IZR in H1].
    replace ((10 * IZR (Z.abs (lx b - lx a)) + IZR t * IZR (den st))
             / IZR (den st))
      with (10 * (IZR (Z.abs (lx b - lx a)) / IZR (den st)) + IZR t) in H1
      by (field; lra).
    replace (10 * (IZR (lradius a) + IZR (lradius b)) / IZR (den st))
      with (10 * (IZR (lradius a) / IZR (den st)
                  + IZR (lradius b) / IZR (den st))) in H1
      by (field; lra).
    lra.
Qed.

Lemma clearOfCenter_spec st i :
  (0 < den st)%Z -> clearOfCenter st i = true ->
  exists o,
    lineOut st !! i = Some o /\
    toCenterRadius st + radius o + 4 <= centerDistance o.
Proof.
  intros HD. unfold clearOfCenter. rewrite lineOut_lookup.
  destruct (lnodes st !! i) as [n|]; [|done]. intros H.
  apply Z.leb_le in H. eexists. split; [done|].
  rewrite centerDistance_toNode by done.
  apply (IZR_div_le _ _ _ HD) in H.
  unfold withPosition, toNode, toCenterRadius. cbn [radius].
  apply IZR_lt in HD.
  repeat first [rewrite plus_IZR in H | rewrite mult_IZR in H].
  replace (IZR (lcenterRadius st) / IZR (den st)
           + IZR (lradius n) / IZR (den st) + 4)
    with ((IZR (lcenterRadius st) + IZR (lradius n) + 4 * IZR (den st))
          / IZR (den st)) by (field; lra).
  done.
Qed.

Lemma distinctAt_spec st i j :
  (0 < den st)%Z -> distinctAt st i j = true ->
  exists a b,
    lineOut st !! i = Some a /\ lineOut st !! j = Some b /\
    0 < nodeDistance a b.
Proof.
  intros HD. unfold distinctAt. rewrite !lineOut_lookup.
  destruct (lnodes st !! i) as [a|]; [|done].
  destruct (lnodes st !! j) as [b|]; [|done]. intros H.
  apply negb_true_iff, Z.eqb_neq in H.
  eexists _, _. split; [done|]. split; [done|].
  rewrite nodeDistance_line by done.
  assert (H0 : (0 < Z.abs (lx b - lx a))%Z) by lia.
  apply (IZR_div_lt _ _ _ HD) in H0.
  unfold Rdiv at 1 in H0. by rewrite Rmult_0_l in H0.
Qed.

(** *** What the last pass leaves *)

Lemma centerDistance_zero n : centerDistance n = 0 -> x n = 50 /\ y n = 50.
Proof.
  unfold centerDistance. intros H.
  pose proof (Rle_0_sqr (50 - x n)) as Hx.
  pose proof (Rle_0_sqr (50 - y n)) as Hy. unfold Rsqr in Hx, Hy.
  apply sqrt_eq_0 in H; [|lra].
  destruct (Rplus_sqr_eq_0 (50 - x n) (50 - y n) H). split; lra.
Qed.

Lemma centerDistance_nonneg n : 0 <= centerDistance n.
Proof. apply sqrt_pos. Qed.

(** The step keeps a node off the center. *)
Lemma attract_positive centerRadius n :
  0 < centerDistance n -> 0 < centerDistance (attract centerRadius n).
Proof.
  intros HD. rewrite (attract_distance _ _ HD). destruct (Rlt_dec _ _); lra.
Qed.

Lemma iter_attract_positive centerRadius k n :
  0 < centerDistance n ->
  0 < centerDistance (Nat.iter k (attract centerRadius) n).
Proof.
  intros HD. induction k as [|k IH]; [done|].
  rewrite Nat.iter_succ. by apply attract_positive.
Qed.

(** A node that the step leaves clear of the exclusion zone has been moved
    by the homothety of ratio 0.985 about the center. *)
Lemma attract_clear centerRadius n :
  centerRadius + radius (attract centerRadius n) + 4
    <= centerDistance (attract centerRadius n) ->
  x (attract centerRadius n) = 50 - 0.985 * (50 - x n) /\
  y (attract centerRadius n) = 50 - 0.985 * (50 - y n).
Proof.
  intros H. destruct (attract_same centerRadius n) as [_ Hr].
  rewrite Hr in H.
  destruct (Rle_lt_or_eq_dec _ _ (centerDistance_nonneg n)) as [HD|HD].
  - rewrite (attract_distance _ _ HD) in H.
    destruct (Rlt_dec _ _) as [Hlt|Hge]; [lra|].
    apply attract_outside. lra.
  - symmetry in HD. destruct (centerDistance_zero n HD) as [Hx Hy].
    rewrite (attract_center centerRadius n Hx Hy), Hx, Hy. split; lra.
Qed.

Lemma attract_clear_pair centerRadius p q :
  centerRadius + radius (attract centerRadius p) + 4
    <= centerDistance (attract centerRadius p) ->
  centerRadius + radius (attract centerRadius q) + 4
    <= centerDistance (attract centerRadius q) ->
  nodeDistance (attract centerRadius p) (attract centerRadius q)
  = 0.985 * nodeDistance p q.
Proof.
  intros Hp Hq.
  destruct (attract_clear _ _ Hp) as (Hpx & Hpy).
  destruct (attract_clear _ _ Hq) as (Hqx & Hqy).
  unfold nodeDistance. rewrite Hpx, Hpy, Hqx, Hqy.
  replace (50 - 0.985 * (50 - x q) - (50 - 0.985 * (50 - x p)))
    with (0.985 * (x q - x p)) by lra.
  replace (50 - 0.985 * (50 - y q) - (50 - 0.985 * (50 - y p)))
    with (0.985 * (y q - y p)) by lra.
  apply sqrt_scaled. lra.
Qed.

Lemma centerDistance_withPosition n :
  centerDistance (withPosition n) = centerDistance n.
Proof. reflexivity. Qed.

Lemma nodeDistance_withPosition n1 n2 :
  nodeDistance (withPosition n1) (withPosition n2) = nodeDistance n1 n2.
Proof. reflexivity. Qed.

Lemma out_center centerRadius pre :
  Forall (fun o =>
            centerDistance o = 0 \/
            0.985 * (centerRadius + radius o + 4) <= centerDistance o)
         (map withPosition (map (attract centerRadius) pre)).
Proof.
  induction pre as [|p pre IH]; simpl; constructor; [|done].
  change (centerDistance (withPosition (attract centerRadius p)))
    with (centerDistance (attract centerRadius p)).
  change (radius (withPosition (attract centerRadius p)))
    with (radius (attract centerRadius p)).
  destruct (attract_same centerRadius p) as [_ Hr]. rewrite Hr.
  destruct (Rle_lt_or_eq_dec _ _ (centerDistance_nonneg p)) as [HD|HD].
  - right. by apply attract_excludes.
  - left. symmetry in HD. destruct (centerDistance_zero p HD) as [Hx Hy].
    by rewrite (attract_center centerRadius p Hx Hy).
Qed.

Lemma out_last_pair centerRadius nodes front a b :
  map withPosition (map (attract centerRadius) (pairLoop nodes))
  = front ++ [a; b] ->
  centerRadius + radius a + 4 <= centerDistance a ->
  centerRadius + radius b + 4 <= centerDistance b ->
  nodeDistance a b = 0 \/
  0.985 * (radius a + radius b + 2) <= nodeDistance a b.
Proof.
  rewrite map_map. intros E Ha Hb.
  apply map_eq_app in E as (pre & l2 & Epre & _ & E2).
  destruct l2 as [|p [|q [|? ?]]]; try discriminate E2.
  injection E2 as <- <-.
  change (centerDistance (withPosition (attract centerRadius p)))
    with (centerDistance (attract centerRadius p)) in Ha.
  change (radius (withPosition (attract centerRadius p)))
    with (radius (attract centerRadius p)) in Ha.
  change (centerDistance (withPosition (attract centerRadius q)))
    with (centerDistance (attract centerRadius q)) in Hb.
  change (radius (withPosition (attract centerRadius q)))
    with (radius (attract centerRadius q)) in Hb.
  change (nodeDistance (withPosition (attract centerRadius p))
            (withPosition (attract centerRadius q)))
    with (nodeDistance (attract centerRadius p) (attract centerRadius q)).
  change (radius (withPosition (attract centerRadius p)))
    with (radius (attract centerRadius p)).
  change (radius (withPosition (attract centerRadius q)))
    with (radius (attract centerRadius q)).
  rewrite (attract_clear_pair _ _ _ Ha Hb).
  destruct (attract_same centerRadius p) as [_ ->].
  destruct (attract_same centerRadius q) as [_ ->].
  destruct (pairLoop_last_apart nodes pre p q Epre) as [H|H].
  - left. rewrite H. lra.
  - right. lra.
Qed.

Lemma layout_last_pass calculateSphereSize random domains containerSize
    centerNodeName :
  calculateChaoticLayout calculateSphereSize random (Some domains)
    containerSize centerNodeName
  = map withPosition
      (map (attract (calculateSphereSize centerNodeName * 0.56))
         (pairLoop
            (Nat.iter 299 (iteration (calculateSphereSize centerNodeName * 0.56))
               (imap (seed calculateSphereSize random) domains)))).
Proof.
  unfold calculateChaoticLayout. cbv zeta.
  replace iterations with (S 299) by reflexivity.
  by rewrite Nat.iter_succ.
Qed.

(** *** The distance of a lone node from the center, pass after pass *)












(** *** A lone child, pass after pass *)








(** *** Cached positions that are settled *)











(** *** The claims on the layout *)

(** C2 (as amended).  The layout returns one node per child, in order,
    with the fields of the child, its radius, and its final coordinates as
    [position].  Every returned node is either exactly at the center of the
    space or at least 0.985 (R + r + 4) from it, [R] being the exclusion
    radius of the center node and [r] the radius of the child; that is at
    least [R + r] whenever [R + r] is at most 262.  A lone child that does
    not start at the center is never at the center.  The last two children
    of the list, when both come out clear of the exclusion zone (at least
    [R + r + 4] from the center), come out at the same place or at least
    0.985 (r1 + r2 + 2) apart, which is at least [r1 + r2] whenever
    [r1 + r2] is at most 131.  (For the range of the positions, for the
    other pairs and for children at the center nothing holds in
    general.) *)
Theorem layout_guarantees
    calculateSphereSize random domains containerSize centerNodeName :
  let centerRadius := calculateSphereSize centerNodeName * 0.56 in
  let out := calculateChaoticLayout calculateSphereSize random (Some domains)
               containerSize centerNodeName in
  Forall2 (fun d o =>
             domain o = setPosition d (Some (mkPosition (x o) (y o))) /\
             radius o = calculateSphereSize (name d) * 0.56)
          domains out /\
  Forall (fun o =>
            centerDistance o = 0 \/
            0.985 * (centerRadius + radius o + 4) <= centerDistance o /\
            (centerRadius + radius o <= 262 ->
             centerRadius + radius o <= centerDistance o))
         out /\
  (forall d o,
     domains = [d] ->
     0 < centerDistance (seed calculateSphereSize random 0 d) ->
     out = [o] ->
     0.985 * (centerRadius + radius o + 4) <= centerDistance o) /\
  (forall front a b,
     out = front ++ [a; b] ->
     centerRadius + radius a + 4 <= centerDistance a ->
     centerRadius + radius b + 4 <= centerDistance b ->
     nodeDistance a b = 0 \/
     0.985 * (radius a + radius b + 2) <= nodeDistance a b /\
     (radius a + radius b <= 131 -> radius a + radius b <= nodeDistance a b)).
Proof.
  intros centerRadius out.
  assert (Hout : out = map withPosition (map (attract centerRadius)
                   (pairLoop (Nat.iter 299 (iteration centerRadius)
                      (imap (seed calculateSphereSize random) domains)))))
    by apply layout_last_pass.
  assert (Hcenter :
    Forall (fun o =>
              centerDistance o = 0 \/
              0.985 * (centerRadius + radius o + 4) <= centerDistance o) out)
    by (rewrite Hout; apply out_center).
  split; [|split; [|split]].
  - unfold out, calculateChaoticLayout. cbv zeta.
    apply out_structure.
    eapply Forall2_trans;
      [|apply (imap_seed (seed calculateSphereSize random)
                 (fun d => calculateSphereSize (name d) * 0.56));
        intros i d; split; reflexivity
       |apply iter_same].
    intros d n n' [Hd Hr] [Hd' Hr']. split; congruence.
  - eapply Forall_impl; [exact Hcenter|].
    intros o [H|H]; [by left|right]. split; [done|]. lra.
  - intros d o -> HD Eo.
    assert (Hpos : 0 < centerDistance o).
    { unfold out in Eo. rewrite layout_single in Eo.
      apply (f_equal head) in Eo. cbn [head] in Eo.
      apply (inj Some) in Eo. rewrite <- Eo, centerDistance_withPosition.
      apply iter_attract_positive. exact HD. }
    rewrite Eo in Hcenter. apply Forall_cons_1 in Hcenter as [[H|H] _]; lra.
  - intros front a b E Ha Hb. rewrite Hout in E.
    destruct (out_last_pair _ _ _ _ _ E Ha Hb) as [H|H]; [by left|right].
    split; [done|]. lra.
Qed.


(** *** The claims at concrete inputs *)


(** Five children cached on the line, at 10, 15, 20, 25 and 30: after the
    300 passes the first one is left of -4, and the third and the fifth
    overlap by more than 0.7. *)
Lemma lineFive_run :
  let st := Nat.iter iterations iterationZ (lineStart "Root" lineFive) in
  leftOf (-4) st 0 && overlapBy 7 st 2 4 = true.
Proof. vm_compute. reflexivity. Qed.

(** Three children cached on the line, at 30, 20 and 10: after the 300
    passes the last two are clear of the exclusion zone and do not
    coincide. *)
Lemma lineThree_run :
  let st := Nat.iter iterations iterationZ (lineStart "Root" lineThree) in
  clearOfCenter st 1 && clearOfCenter st 2 && distinctAt st 1 2 = true.
Proof. vm_compute. reflexivity. Qed.

(** C2 as stated fails, in each of its three parts.  A single child cached
    at the center of the space comes out at distance 0 from the center.
    Of five children cached on the horizontal line through the center, at
    the abscissas 10, 15, 20, 25 and 30, the first comes out left of -4,
    outside of the space, and the third and the fifth come out at
    different places whose distance is less than the sum of their radii
    by more than 0.7. *)
Lemma layout_breaks_guarantees :
  (exists o,
     calculateChaoticLayout sizeByLength constantRandom (Some [centerChild])
       500 "Root" = [o] /\
     centerDistance o = 0 /\
     0 < sizeByLength "Root" * 0.56 + radius o) /\
  let out := calculateChaoticLayout sizeByLength constantRandom
               (Some (map lineChild lineFive)) 500 "Root" in
  (exists o, out !! 0%nat = Some o /\ x o < -4) /\
  (exists a b,
     out !! 2%nat = Some a /\ out !! 4%nat = Some b /\
     0 < nodeDistance a b /\
     nodeDistance a b + 0.7 < radius a + radius b).
Proof.
  split.
  - eexists. split; [by apply layout_center_fixed|]. split.
    + unfold centerDistance. cbn [x y].
      replace ((50 - 50) * (50 - 50) + (50 - 50) * (50 - 50)) with 0 by ring.
      apply sqrt_0.
    + cbn [radius]. unfold sizeByLength. simpl. lra.
  - pose proof (layout_on_line constantRandom lineFive 500 "Root") as H.
    pose proof lineFive_run as Hrun. cbv zeta in H, Hrun. cbv zeta.
    destruct H as (HD & _ & ->).
    revert HD Hrun.
    generalize (Nat.iter iterations iterationZ (lineStart "Root" lineFive)).
    intros st HD Hrun. apply andb_prop in Hrun as [Hleft Hover].
    split.
    + exact (leftOf_spec _ _ _ HD Hleft).
    + destruct (overlapBy_spec _ _ _ _ HD Hover) as (a & b & Ha & Hb & H0 & H1).
      exists a, b. split; [done|]. split; [done|]. split; [done|]. lra.
Qed.

Lemma layout_guarantees_witness :
  exists o a b,
    calculateChaoticLayout sizeByLength constantRandom
      (Some (map lineChild lineThree)) 500 "Root" = [o; a; b] /\
    sizeByLength "Root" * 0.56 + radius a + 4 <= centerDistance a /\
    sizeByLength "Root" * 0.56 + radius b + 4 <= centerDistance b /\
    radius a = 5.04 /\ radius b = 5.04 /\
    0.985 * (radius a + radius b + 2) <= nodeDistance a b /\
    radius a + radius b <= nodeDistance a b.
Proof.
  pose proof (layout_guarantees sizeByLength constantRandom
                (map lineChild lineThree) 500 "Root") as G.
  pose proof (layout_on_line constantRandom lineThree 500 "Root") as H.
  pose proof lineThree_run as Hrun. cbv zeta in G, H, Hrun.
  destruct H as (HD & Hc & E). rewrite E in G. rewrite E. clear E.
  rewrite <- Hc in G. rewrite <- Hc. revert G HD Hrun. clear Hc.
  generalize (Nat.iter iterations iterationZ (lineStart "Root" lineThree)).
  intros st (Hs & _ & _ & Hpair) HD Hrun.
  apply andb_prop in Hrun as [Hrun Hdist].
  apply andb_prop in Hrun as [Hclear1 Hclear2].
  destruct (clearOfCenter_spec _ _ HD Hclear1) as (a & Ha & Hca).
  destruct (clearOfCenter_spec _ _ HD Hclear2) as (b & Hb & Hcb).
  destruct (distinctAt_spec _ _ _ HD Hdist) as (a' & b' & Ha' & Hb' & Hab).
  rewrite Ha in Ha'. rewrite Hb in Hb'.
  injection Ha' as <-. injection Hb' as <-.
  pose proof (Forall2_length _ _ _ Hs) as Hlen.
  destruct (lineOut st) as [|o [|a0 [|b0 [|? ?]]]]; try discriminate Hlen.
  injection Ha as ->. injection Hb as ->.
  exists o, a, b. split; [done|]. split; [done|]. split; [done|].
  apply Forall2_cons_1 in Hs as [_ Hs].
  apply Forall2_cons_1 in Hs as [[_ Hra] Hs].
  apply Forall2_cons_1 in Hs as [[_ Hrb] _].
  assert (Hra' : radius a = 5.04).
  { rewrite Hra. unfold sizeByLength. simpl. lra. }
  assert (Hrb' : radius b = 5.04).
  { rewrite Hrb. unfold sizeByLength. simpl. lra. }
  split; [done|]. split; [done|].
  destruct (Hpair [o] a b eq_refl Hca Hcb) as [H0|[H1 H2]]; [lra|].
  split; [done|]. apply H2. lra.
Defined.






(** *** The children as a whole, and a lone child *)

Lemma sum_insert (f : Node -> R) (l : list Node) i v w :
  l !! i = Some v ->
  fold_right Rplus 0 (map f (<[i := w]> l))
  = fold_right Rplus 0 (map f l) - f v + f w.
Proof.
  revert i. induction l as [|a l IH]; intros i Hi; [done|].
  destruct i as [|i]; simpl in *.
  - injection Hi as ->. lra.
  - rewrite (IH i Hi). lra.
Qed.

Lemma separate_sum n1 n2 :
  x (fst (separate n1 n2)) + x (snd (separate n1 n2)) = x n1 + x n2 /\
  y (fst (separate n1 n2)) + y (snd (separate n1 n2)) = y n1 + y n2.
Proof.
  unfold separate. cbv zeta.
  destruct (Rlt_dec _ _); [|done].
  destruct (Rgt_dec _ _); [|done].
  simpl. split; lra.
Qed.

Lemma pairStep_sum nodes j k :
  j <> k ->
  sumX (pairStep nodes j k) = sumX nodes /\
  sumY (pairStep nodes j k) = sumY nodes.
Proof.
  intros Hjk. unfold pairStep.
  destruct (nodes !! j) as [n1|] eqn:E1; [|done].
  destruct (nodes !! k) as [n2|] eqn:E2; [|done].
  destruct (separate_sum n1 n2) as (Hx & Hy).
  destruct (separate n1 n2) as [n1' n2']. simpl in Hx, Hy.
  assert (E2' : <[j := n1']> nodes !! k = Some n2)
    by (by rewrite list_lookup_insert_ne).
  unfold sumX, sumY.
  rewrite (sum_insert x _ _ _ _ E2'), (sum_insert x _ _ _ _ E1).
  rewrite (sum_insert y _ _ _ _ E2'), (sum_insert y _ _ _ _ E1).
  split; lra.
Qed.

Lemma fold_sum {A} (P : A -> Prop) (f : list Node -> A -> list Node) :
  (forall l a, P a -> sumX (f l a) = sumX l /\ sumY (f l a) = sumY l) ->
  forall (xs : list A) l, Forall P xs ->
    sumX (fold_left f xs l) = sumX l /\ sumY (fold_left f xs l) = sumY l.
Proof.
  intros Hf xs. induction xs as [|a xs IH]; intros l HP; [done|].
  inversion HP as [|? ? Ha HP']; subst. simpl.
  destruct (IH (f l a) HP') as (-> & ->). by apply Hf.
Qed.

(** The separation of the pairs pushes the two nodes of a pair by the same
    amount in opposite directions: one pass over all the pairs leaves the
    sums of the coordinates of the nodes, hence their mean position, where
    they were.  Only the attraction moves the children as a whole. *)
Theorem pairLoop_keeps_centroid nodes :
  sumX (pairLoop nodes) = sumX nodes /\ sumY (pairLoop nodes) = sumY nodes.
Proof.
  unfold pairLoop.
  apply (fold_sum (fun _ => True)); [|by apply Forall_forall].
  intros l j _.
  apply (fold_sum (fun k => j <> k)).
  - intros l' k Hjk. by apply pairStep_sum.
  - apply Forall_forall. intros k Hk. apply list_elem_of_In in Hk.
    apply in_seq in Hk. lia.
Qed.



End LayoutFacts.
